(** * Grammar-constrained parsing and the generation-state tree of [guidance]

    A shallow embedding of [guidance/_parser.py] (the token parser [LLParser]
    and the byte parser [ByteParser]) and of the node operations of
    [guidance/models/_base/_model.py], followed by the properties that the
    design document states about them.

    Conventions of the embedding:
    - Python [bytes] is [list byte]; a byte read by indexing is the integer
      [Z_of_byte b];
    - Python [int] is [Z]; a cursor that only counts up from zero is [nat];
    - Python [float] is the IEEE 754 binary64 type [PrimFloat.float];
    - a [dict] is an association list in insertion order ([PyDict]);
    - a method is a function in the state-and-exception monad [M]; a loop
      that Python does not bound takes fuel. *)

From Stdlib Require Import ZArith List String Ascii Bool Lia PeanoNat.
From Stdlib Require Import PrimFloat Uint63 Strings.Byte.
From Stdlib Require Import Sorting.Sorted.
Import ListNotations.

Set Implicit Arguments.

(* ================================================================== *)
(** * Python values *)

Definition pybytes := list byte.

Definition Z_of_byte (b : byte) : Z := Z.of_N (Byte.to_N b).

(** [bytes([t])]: a one-byte string, [ValueError] outside [range(256)]. *)
Definition byte_of_Z (t : Z) : option byte :=
  if (t <? 0)%Z then None else Byte.of_N (Z.to_N t).

Definition byte_eqb (a b : byte) : bool := Byte.eqb a b.

(** An element of a heterogeneous Python list: an [int] or a [bytes]. *)
Inductive pyobj : Type :=
| PyInt (n : Z)
| PyBytes (b : pybytes).

Definition is_int (o : pyobj) : bool :=
  match o with PyInt _ => true | PyBytes _ => false end.

Definition is_bytes (o : pyobj) : bool :=
  match o with PyInt _ => false | PyBytes _ => true end.

(** The value of a capture once [_update_capture] has tried to decode it:
    a [str], kept as its UTF-8 encoding, or the raw [bytes]. *)
Inductive pytext : Type :=
| PStr (utf8 : pybytes)
| PRaw (raw : pybytes).

(** A capture entry: one value, or the list of a repeated capture. *)
Inductive capture (A : Type) : Type :=
| Scalar (a : A)
| Multi (l : list A).

Arguments Scalar {A} a.
Arguments Multi {A} l.

Definition isinstance_list {A} (c : capture A) : bool :=
  match c with Scalar _ => false | Multi _ => true end.

Definition capture_map {A B} (f : A -> B) (c : capture A) : capture B :=
  match c with
  | Scalar a => Scalar (f a)
  | Multi l => Multi (map f l)
  end.

(** [float(n)] for a count [n]. *)
Definition float_of_nat (n : nat) : float :=
  PrimFloat.of_uint63 (Uint63.of_Z (Z.of_nat n)).

(** [l[:stop]] with Python's treatment of negative and large bounds. *)
Definition slice_to {A} (l : list A) (stop : Z) : list A :=
  let n := Z.of_nat (List.length l) in
  let s := if (stop <? 0)%Z then Z.max 0 (stop + n) else Z.min stop n in
  firstn (Z.to_nat s) l.

(** [s[n:]] on a [str]. *)
Fixpoint str_from (n : nat) (s : string) : string :=
  match n, s with
  | O, _ => s
  | S n', String _ s' => str_from n' s'
  | S _, EmptyString => EmptyString
  end.

Definition startswith (s p : string) : bool := String.prefix p s.

(* ------------------------------------------------------------------ *)
(** ** Strict UTF-8 validity, as [bytes.decode("utf8")] checks it *)

Definition in_range (lo hi : Z) (b : byte) : bool :=
  ((lo <=? Z_of_byte b) && (Z_of_byte b <=? hi))%Z.

Definition cont (b : byte) : bool := in_range 128 191 b.

Fixpoint utf8_valid (bs : pybytes) : bool :=
  match bs with
  | [] => true
  | b0 :: r0 =>
      if in_range 0 127 b0 then utf8_valid r0
      else match r0 with
      | [] => false
      | b1 :: r1 =>
          if in_range 194 223 b0 then cont b1 && utf8_valid r1
          else match r1 with
          | [] => false
          | b2 :: r2 =>
              if in_range 224 224 b0
              then in_range 160 191 b1 && cont b2 && utf8_valid r2
              else if in_range 237 237 b0
              then in_range 128 159 b1 && cont b2 && utf8_valid r2
              else if in_range 225 239 b0
              then cont b1 && cont b2 && utf8_valid r2
              else match r2 with
              | [] => false
              | b3 :: r3 =>
                  if in_range 240 240 b0
                  then in_range 144 191 b1 && cont b2 && cont b3
                       && utf8_valid r3
                  else if in_range 241 243 b0
                  then cont b1 && cont b2 && cont b3 && utf8_valid r3
                  else if in_range 244 244 b0
                  then in_range 128 143 b1 && cont b2 && cont b3
                       && utf8_valid r3
                  else false
              end
          end
      end
  end.

(** [v.decode("utf8")] with the [UnicodeDecodeError] swallowed. *)
Definition try_decode (v : pybytes) : pytext :=
  if utf8_valid v then PStr v else PRaw v.

(* ================================================================== *)
(** * Insertion-ordered dictionaries *)

Module PyDict.
Section Dict.
Context {K V : Type}.
Variable eqb : K -> K -> bool.

Definition t := list (K * V).

(** [d.get(k)] *)
Fixpoint get (d : t) (k : K) : option V :=
  match d with
  | [] => None
  | (k', v) :: r => if eqb k k' then Some v else get r k
  end.

(** [k in d] *)
Definition contains (d : t) (k : K) : bool :=
  match get d k with Some _ => true | None => false end.

(** [d[k] = v]: a key already present keeps its place. *)
Fixpoint set (d : t) (k : K) (v : V) : t :=
  match d with
  | [] => [(k, v)]
  | (k', v') :: r => if eqb k k' then (k', v) :: r else (k', v') :: set r k v
  end.

(** [d.pop(k)], [None] standing for the [KeyError]. *)
Fixpoint pop (d : t) (k : K) : option (V * t) :=
  match d with
  | [] => None
  | (k', v) :: r =>
      if eqb k k' then Some (v, r)
      else match pop r k with
           | Some (x, r') => Some (x, (k', v) :: r')
           | None => None
           end
  end.

Definition keys (d : t) : list K := map fst d.
Definition items (d : t) : list (K * V) := d.
End Dict.
End PyDict.

Definition dict (V : Type) := @PyDict.t string V.
Definition dget {V} (d : dict V) (k : string) := PyDict.get String.eqb d k.
Definition dset {V} (d : dict V) (k : string) (v : V) := PyDict.set String.eqb d k v.
Definition dcontains {V} (d : dict V) (k : string) := PyDict.contains String.eqb d k.
Definition dpop {V} (d : dict V) (k : string) := PyDict.pop String.eqb d k.

(* ================================================================== *)
(** * Exceptions and the method monad *)

Inductive exn : Type :=
| AssertionError
| ParserException (current_byte : Z) (allowed_bytes : list pyobj)
                  (consumed_bytes : pybytes)
| ValueError
| KeyError
| IndexError
| TypeError
| AttributeError
| NotImplementedError.

(** Failures of the assertion class are not meant to be caught; a
    [ParserException] is the one a caller recovers from. *)
Definition is_assertion (e : exn) : bool :=
  match e with AssertionError => true | _ => false end.

Definition is_parser_exception (e : exn) : bool :=
  match e with ParserException _ _ _ => true | _ => false end.

Inductive result (A : Type) : Type :=
| Ret (a : A)
| Exc (e : exn).

Arguments Ret {A} a.
Arguments Exc {A} e.

(** What a call on an object in state [S] comes to: a value, an exception
    (the mutations made before it stay), or no answer within the fuel. *)
Inductive outcome (S A : Type) : Type :=
| Ok (a : A) (s : S)
| Raise (e : exn) (s : S)
| OutOfFuel.

Arguments Ok {S A} a s.
Arguments Raise {S A} e s.
Arguments OutOfFuel {S A}.

Definition M (S A : Type) : Type := S -> outcome S A.

Definition ret {S A} (a : A) : M S A := fun s => Ok a s.
Definition raise {S A} (e : exn) : M S A := fun s => Raise e s.
Definition bind {S A B} (c : M S A) (k : A -> M S B) : M S B :=
  fun s => match c s with
           | Ok a s' => k a s'
           | Raise e s' => Raise e s'
           | OutOfFuel => OutOfFuel
           end.
Definition get_state {S} : M S S := fun s => Ok s s.
Definition modify {S} (f : S -> S) : M S unit := fun s => Ok tt (f s).
Definition lift {S A} (r : result A) : M S A :=
  match r with Ret a => ret a | Exc e => raise e end.
Definition py_assert {S} (b : bool) : M S unit :=
  if b then ret tt else raise AssertionError.

Declare Scope py_scope.
Delimit Scope py_scope with py.
Notation "x <- c ;; k" := (bind c (fun x => k))
  (at level 61, c at next level, right associativity) : py_scope.
Notation "c ;;; k" := (bind c (fun _ => k))
  (at level 61, right associativity) : py_scope.
Open Scope py_scope.

(** [for x in l: body x] *)
Fixpoint for_each {S A} (l : list A) (body : A -> M S unit) : M S unit :=
  match l with
  | [] => ret tt
  | x :: r => body x ;;; for_each r body
  end.

(** A call of a static method or of a function with locals [L] of its own,
    made from a method of an object in state [S]. *)
Definition call {S L A} (c : M L A) (locals : L) : M S A :=
  fun s => match c locals with
           | Ok a _ => Ok a s
           | Raise e _ => Raise e s
           | OutOfFuel => OutOfFuel
           end.

(* ================================================================== *)
(** * The token parser: data *)

Record ParserState : Type := {
  tokens : list Z;
  ff_tokens : list Z;
  backtrack : Z;
  done : bool
}.

Record ParserResponse : Type := {
  new_bytes : pybytes;
  new_token_count : Z;
  new_bytes_prob : float;
  is_generated : bool;
  capture_groups : dict (capture pybytes);
  capture_group_log_probs : dict (capture float)
}.

(** [mask] holds one [uint8] per vocabulary entry. *)
Record GenData : Type := {
  gen_tokens : list Z;
  mask : pybytes;
  temperature : float
}.

(** [np.where(mask)[0].tolist()], counting indices from [i]. *)
Fixpoint where_nonzero (i : Z) (m : pybytes) : list Z :=
  match m with
  | [] => []
  | b :: r =>
      if byte_eqb b x00 then where_nonzero (i + 1) r
      else i :: where_nonzero (i + 1) r
  end.

Definition valid_next_tokens (g : GenData) : list Z :=
  where_nonzero 0 (mask g).

(** One entry of the interpreter's progress log, after [json.loads] and
    [bytes.fromhex]: the entry's ["object"] tag selects the constructor. *)
Inductive progress_event : Type :=
| CaptureEvent (name : string) (data : pybytes) (log_prob : float)
| TextEvent (data : pybytes) (num_tokens : Z) (log_prob : float)
            (generated : bool)
| OtherEvent (tag : string).

(** The step report that [mid_process] returns next to the mask. *)
Record StepReport : Type := {
  rep_backtrack : Z;
  rep_ff_tokens : list Z;
  rep_stop : bool;
  rep_temperature : float;
  rep_progress : list progress_event
}.

(* ------------------------------------------------------------------ *)
(** ** [LLParser._handle_progress] *)

(** The local variables of [_handle_progress]. *)
Record hp_locals : Type := {
  hp_new_bytes : pybytes;
  hp_new_token_count : Z;
  hp_new_bytes_prob : float;
  hp_is_generated : bool;
  hp_capture_groups : dict (capture pybytes);
  hp_capture_group_log_probs : dict (capture float);
  hp_num_text_entries : nat
}.

Definition hp_init : hp_locals :=
  {| hp_new_bytes := [];
     hp_new_token_count := 0%Z;
     hp_new_bytes_prob := 0%float;
     hp_is_generated := false;
     hp_capture_groups := [];
     hp_capture_group_log_probs := [];
     hp_num_text_entries := 0 |}.

Definition hp_set_is_generated (b : bool) (s : hp_locals) : hp_locals :=
  {| hp_new_bytes := hp_new_bytes s;
     hp_new_token_count := hp_new_token_count s;
     hp_new_bytes_prob := hp_new_bytes_prob s;
     hp_is_generated := b;
     hp_capture_groups := hp_capture_groups s;
     hp_capture_group_log_probs := hp_capture_group_log_probs s;
     hp_num_text_entries := hp_num_text_entries s |}.

Definition hp_set_capture_groups (d : dict (capture pybytes)) (s : hp_locals)
  : hp_locals :=
  {| hp_new_bytes := hp_new_bytes s;
     hp_new_token_count := hp_new_token_count s;
     hp_new_bytes_prob := hp_new_bytes_prob s;
     hp_is_generated := hp_is_generated s;
     hp_capture_groups := d;
     hp_capture_group_log_probs := hp_capture_group_log_probs s;
     hp_num_text_entries := hp_num_text_entries s |}.

Definition hp_set_capture_group_log_probs (d : dict (capture float))
  (s : hp_locals) : hp_locals :=
  {| hp_new_bytes := hp_new_bytes s;
     hp_new_token_count := hp_new_token_count s;
     hp_new_bytes_prob := hp_new_bytes_prob s;
     hp_is_generated := hp_is_generated s;
     hp_capture_groups := hp_capture_groups s;
     hp_capture_group_log_probs := d;
     hp_num_text_entries := hp_num_text_entries s |}.

(** The four updates of the ["text"] branch. *)
Definition hp_add_text (data : pybytes) (n : Z) (lp : float) (g : bool)
  (s : hp_locals) : hp_locals :=
  {| hp_new_bytes := hp_new_bytes s ++ data;
     hp_new_token_count := (hp_new_token_count s + n)%Z;
     hp_new_bytes_prob := PrimFloat.add (hp_new_bytes_prob s) lp;
     hp_is_generated := hp_is_generated s || g;
     hp_capture_groups := hp_capture_groups s;
     hp_capture_group_log_probs := hp_capture_group_log_probs s;
     hp_num_text_entries := S (hp_num_text_entries s) |}.

(** [d[k].append(x)] *)
Definition list_append {A} (d : dict (capture A)) (k : string) (x : A)
  : result (dict (capture A)) :=
  match dget d k with
  | None => Exc KeyError
  | Some (Scalar _) => Exc AttributeError
  | Some (Multi l) => Ret (dset d k (Multi (l ++ [x])))
  end.

(** [k not in d or not isinstance(d[k], list)] *)
Definition not_a_list {A} (d : dict (capture A)) (k : string) : bool :=
  negb (dcontains d k) ||
  match dget d k with
  | Some c => negb (isinstance_list c)
  | None => true
  end.

Definition LIST_APPEND : string := "__LIST_APPEND:".

(** The body of the loop over the progress log. *)
Definition handle_event (j : progress_event) : M hp_locals unit :=
  match j with
  | CaptureEvent cname data log_prob =>
      modify (hp_set_is_generated true) ;;;
      if startswith cname LIST_APPEND then
        let cname := str_from 14 cname in
        s <- get_state ;;
        (if not_a_list (hp_capture_groups s) cname then
           modify (fun s =>
             hp_set_capture_groups
               (dset (hp_capture_groups s) cname (Multi [])) s) ;;;
           modify (fun s =>
             hp_set_capture_group_log_probs
               (dset (hp_capture_group_log_probs s) cname (Multi [])) s)
         else ret tt) ;;;
        s <- get_state ;;
        d <- lift (list_append (hp_capture_groups s) cname data) ;;
        modify (hp_set_capture_groups d) ;;;
        s <- get_state ;;
        d <- lift (list_append (hp_capture_group_log_probs s) cname log_prob) ;;
        modify (hp_set_capture_group_log_probs d)
      else
        modify (fun s =>
          hp_set_capture_groups
            (dset (hp_capture_groups s) cname (Scalar data)) s) ;;;
        modify (fun s =>
          hp_set_capture_group_log_probs
            (dset (hp_capture_group_log_probs s) cname (Scalar log_prob)) s)
  | TextEvent data num_tokens log_prob generated =>
      modify (hp_add_text data num_tokens log_prob generated)
  | OtherEvent _ => ret tt
  end.

(** The statements after the loop: the division and the response. *)
Definition hp_response (s : hp_locals) : ParserResponse :=
  {| new_bytes := hp_new_bytes s;
     new_token_count := hp_new_token_count s;
     new_bytes_prob :=
       if (0 <? hp_num_text_entries s)%nat
       then PrimFloat.div (hp_new_bytes_prob s)
                          (float_of_nat (hp_num_text_entries s))
       else hp_new_bytes_prob s;
     is_generated := hp_is_generated s;
     capture_groups := hp_capture_groups s;
     capture_group_log_probs := hp_capture_group_log_probs s |}.

Definition handle_progress_body (progress : list progress_event)
  : M hp_locals ParserResponse :=
  for_each progress handle_event ;;;
  s <- get_state ;;
  ret (hp_response s).

Definition _handle_progress {S} (progress : list progress_event)
  : M S ParserResponse :=
  call (handle_progress_body progress) hp_init.

(* ------------------------------------------------------------------ *)
(** ** [LLParser] and [ByteParser] over an interpreter *)

Section Parsers.

(** The grammar interpreter is an external collaborator: its state and
    its [mid_process(backtrack, ff_tokens)] step are left open. *)
Variable Interp : Type.
Variable mid_process :
  Interp -> Z -> list Z -> option pybytes * StepReport * Interp.

Record LLParser : Type := {
  ll_interpreter : Interp;
  _state : ParserState
}.

Definition set_interpreter (i : Interp) (self : LLParser) : LLParser :=
  {| ll_interpreter := i; _state := _state self |}.

Definition set_state (st : ParserState) (self : LLParser) : LLParser :=
  {| ll_interpreter := ll_interpreter self; _state := st |}.

(** [LLParser._start], from the tokens that [process_prompt] returns. *)
Definition _start (prompt_tokens : list Z) : ParserState :=
  {| tokens := prompt_tokens; ff_tokens := []; backtrack := 0%Z;
     done := false |}.

Definition _advance (state : ParserState)
  : M LLParser (option GenData * ParserResponse * ParserState) :=
  self <- get_state ;;
  let '(mask, r, i') :=
    mid_process (ll_interpreter self) (backtrack state) (ff_tokens state) in
  modify (set_interpreter i') ;;;
  let backtrack := rep_backtrack r in
  let ff_tokens := rep_ff_tokens r in
  let done := rep_stop r in
  let tokens := tokens state in
  tg <- match mask with
        | Some mask =>
            py_assert (negb done) ;;;
            py_assert (backtrack =? 0)%Z ;;;
            py_assert (List.length ff_tokens =? 0)%nat ;;;
            ret (tokens,
                 Some {| gen_tokens := tokens; mask := mask;
                         temperature := rep_temperature r |})
        | None =>
            let tokens :=
              if (backtrack =? 0)%Z then tokens
              else slice_to tokens (- backtrack) in
            let tokens := tokens ++ ff_tokens in
            ret (tokens, None)
        end ;;
  let '(tokens, gen_data) := tg in
  response <- _handle_progress (rep_progress r) ;;
  let state := {| tokens := tokens; ff_tokens := ff_tokens;
                  backtrack := backtrack; done := done |} in
  ret (gen_data, response, state).

Definition _consume_token (tok_id : Z) (state : ParserState)
  : M LLParser ParserState :=
  py_assert (negb (done state)) ;;;
  py_assert (backtrack state =? 0)%Z ;;;
  py_assert (List.length (ff_tokens state) =? 0)%nat ;;;
  ret {| tokens := tokens state ++ [tok_id];
         ff_tokens := [tok_id];
         backtrack := 0%Z;
         done := false |}.

(** The public wrappers, which store the new state. *)
Definition advance : M LLParser (option GenData * ParserResponse) :=
  self <- get_state ;;
  r <- _advance (_state self) ;;
  let '(gen_data, response, st) := r in
  modify (set_state st) ;;;
  ret (gen_data, response).

Definition consume_token (tok_id : Z) : M LLParser unit :=
  self <- get_state ;;
  st <- _consume_token tok_id (_state self) ;;
  modify (set_state st).

(** The property [LLParser.done]. *)
Definition parser_done (self : LLParser) : bool := done (_state self).

(* ---------------------------------------------------------------- *)
(** *** [ByteParser] *)

Record ByteParser : Type := {
  ll_parser : LLParser;
  bytes : pybytes;
  gen_data : option GenData;
  pos : nat;
  _variables : dict (capture pytext);
  _variables_log_probs : dict (capture float)
}.

Definition set_ll_parser (p : LLParser) (self : ByteParser) : ByteParser :=
  {| ll_parser := p; bytes := bytes self; gen_data := gen_data self;
     pos := pos self; _variables := _variables self;
     _variables_log_probs := _variables_log_probs self |}.

Definition set_bytes (b : pybytes) (self : ByteParser) : ByteParser :=
  {| ll_parser := ll_parser self; bytes := b; gen_data := gen_data self;
     pos := pos self; _variables := _variables self;
     _variables_log_probs := _variables_log_probs self |}.

Definition set_gen_data (g : option GenData) (self : ByteParser)
  : ByteParser :=
  {| ll_parser := ll_parser self; bytes := bytes self; gen_data := g;
     pos := pos self; _variables := _variables self;
     _variables_log_probs := _variables_log_probs self |}.

Definition set_pos (n : nat) (self : ByteParser) : ByteParser :=
  {| ll_parser := ll_parser self; bytes := bytes self;
     gen_data := gen_data self; pos := n; _variables := _variables self;
     _variables_log_probs := _variables_log_probs self |}.

Definition set_variables (d : dict (capture pytext)) (self : ByteParser)
  : ByteParser :=
  {| ll_parser := ll_parser self; bytes := bytes self;
     gen_data := gen_data self; pos := pos self; _variables := d;
     _variables_log_probs := _variables_log_probs self |}.

Definition set_variables_log_probs (d : dict (capture float))
  (self : ByteParser) : ByteParser :=
  {| ll_parser := ll_parser self; bytes := bytes self;
     gen_data := gen_data self; pos := pos self;
     _variables := _variables self; _variables_log_probs := d |}.

(** [ByteParser.__init__], from the token parser it builds. *)
Definition ByteParser_init (p : LLParser) : ByteParser :=
  {| ll_parser := p; bytes := []; gen_data := None; pos := 0;
     _variables := []; _variables_log_probs := [] |}.

(** A method call on [self.ll_parser]. *)
Definition on_ll_parser {A} (c : M LLParser A) : M ByteParser A :=
  fun self =>
    match c (ll_parser self) with
    | Ok a p => Ok a (set_ll_parser p self)
    | Raise e p => Raise e (set_ll_parser p self)
    | OutOfFuel => OutOfFuel
    end.

(** [d[k]] *)
Definition subscript {V} (d : dict V) (k : string) : result V :=
  match dget d k with Some v => Ret v | None => Exc KeyError end.

(** [d[k]], wanted for its [append] *)
Definition the_list {A} (d : dict (capture A)) (k : string)
  : result (list A) :=
  match dget d k with
  | None => Exc KeyError
  | Some (Scalar _) => Exc AttributeError
  | Some (Multi l) => Ret l
  end.

(** [d[k][i]] *)
Definition subscript2 {A} (d : dict (capture A)) (k : string) (i : nat)
  : result A :=
  match dget d k with
  | None => Exc KeyError
  | Some (Scalar _) => Exc TypeError
  | Some (Multi l) =>
      match nth_error l i with
      | Some x => Ret x
      | None => Exc IndexError
      end
  end.

Definition enumerate {A} (l : list A) : list (nat * A) :=
  combine (seq 0 (List.length l)) l.

(** The body of the inner loop of [_update_capture]. *)
Definition update_capture_item (response : ParserResponse) (k : string)
  (item : nat * pybytes) : M ByteParser unit :=
  let '(i, inner_v) := item in
  let inner_v := try_decode inner_v in
  self <- get_state ;;
  (if not_a_list (_variables self) k then
     modify (fun self =>
       set_variables (dset (_variables self) k (Multi [])) self) ;;;
     modify (fun self =>
       set_variables_log_probs
         (dset (_variables_log_probs self) k (Multi [])) self)
   else ret tt) ;;;
  self <- get_state ;;
  d <- lift (list_append (_variables self) k inner_v) ;;
  modify (set_variables d) ;;;
  self <- get_state ;;
  l <- lift (the_list (_variables_log_probs self) k) ;;
  x <- lift (subscript2 (capture_group_log_probs response) k i) ;;
  modify (fun self =>
    set_variables_log_probs
      (dset (_variables_log_probs self) k (Multi (l ++ [x]))) self).

(** The body of the outer loop of [_update_capture]. *)
Definition update_capture_key (response : ParserResponse) (k : string)
  : M ByteParser unit :=
  v <- lift (subscript (capture_groups response) k) ;;
  match v with
  | Multi v =>
      for_each (enumerate v) (update_capture_item response k)
  | Scalar v =>
      let v := try_decode v in
      modify (fun self =>
        set_variables (dset (_variables self) k (Scalar v)) self) ;;;
      lp <- lift (subscript (capture_group_log_probs response) k) ;;
      modify (fun self =>
        set_variables_log_probs
          (dset (_variables_log_probs self) k lp) self)
  end.

Definition _update_capture (response : ParserResponse) : M ByteParser unit :=
  for_each (PyDict.keys (capture_groups response))
           (update_capture_key response).

(** The [while] loop that opens [consume_bytes]. *)
Fixpoint advance_loop (fuel : nat) : M ByteParser unit :=
  fun self =>
    match gen_data self, parser_done (ll_parser self) with
    | None, false =>
        match fuel with
        | O => OutOfFuel
        | S fuel' =>
            (r <- on_ll_parser advance ;;
             let '(g, response) := r in
             modify (set_gen_data g) ;;;
             _update_capture response ;;;
             modify (fun self =>
               set_bytes (bytes self ++ new_bytes response) self) ;;;
             advance_loop fuel') self
        end
    | _, _ => Ok tt self
    end.

(** [[bytes([t]) for t in valid_next_tokens]] *)
Fixpoint bytes_of_tokens (ts : list Z) : result (list pyobj) :=
  match ts with
  | [] => Ret []
  | t :: r =>
      match byte_of_Z t with
      | None => Exc ValueError
      | Some b =>
          match bytes_of_tokens r with
          | Ret l => Ret (PyBytes [b] :: l)
          | Exc e => Exc e
          end
      end
  end.

(** [b in l] *)
Definition int_in (b : Z) (l : list Z) : bool := existsb (Z.eqb b) l.

(** [seq[i]] for [0 <= i] *)
Definition index {A} (l : list A) (i : nat) : result A :=
  match nth_error l i with Some x => Ret x | None => Exc IndexError end.

Fixpoint consume_bytes (fuel : nat) (bts : pybytes) : M ByteParser unit :=
  match fuel with
  | O => fun _ => OutOfFuel
  | S fuel' =>
      advance_loop fuel' ;;;
      match bts with
      | [] => ret tt
      | b :: rest =>
          self <- get_state ;;
          if (pos self <? List.length (bytes self))%nat then
            c <- lift (index (bytes self) (pos self)) ;;
            if negb (byte_eqb b c) then
              raise (ParserException (Z_of_byte b) [PyInt (Z_of_byte c)]
                                     (bytes self))
            else
              modify (fun self => set_pos (pos self + 1) self) ;;;
              consume_bytes fuel' rest
          else
            g <- match gen_data self with
                 | Some g => ret g
                 | None => raise AssertionError
                 end ;;
            let valid_next_tokens := valid_next_tokens g in
            if negb (int_in (Z_of_byte b) valid_next_tokens) then
              valid_next_bytes <- lift (bytes_of_tokens valid_next_tokens) ;;
              raise (ParserException (Z_of_byte b) valid_next_bytes
                                     (bytes self))
            else
              on_ll_parser (consume_token (Z_of_byte b)) ;;;
              modify (set_gen_data None) ;;;
              consume_bytes fuel' bts
      end
  end.

Definition matched (fuel : nat) : M ByteParser bool :=
  self <- get_state ;;
  if (pos self <? List.length (bytes self))%nat then ret false
  else
    (if negb (parser_done (ll_parser self))
     then consume_bytes fuel []
     else ret tt) ;;;
    self <- get_state ;;
    ret (parser_done (ll_parser self)).

Definition get_captures (self : ByteParser)
  : dict (capture pytext) * dict (capture float) :=
  (_variables self, _variables_log_probs self).

End Parsers.

(** An interpreter that replays a fixed script of [mid_process] answers and
    stops once the script is used up; used to run the parsers. *)
Definition stop_report : StepReport :=
  {| rep_backtrack := 0%Z; rep_ff_tokens := []; rep_stop := true;
     rep_temperature := 0%float; rep_progress := [] |}.

Definition scripted (i : list (option pybytes * StepReport))
  (_ : Z) (_ : list Z)
  : option pybytes * StepReport * list (option pybytes * StepReport) :=
  match i with
  | [] => (None, stop_report, [])
  | (m, r) :: rest => (m, r, rest)
  end.

(* ================================================================== *)
(** * The generation-state tree *)

Module Tree.

(** [for x in l: acc = body x acc] *)
Fixpoint for_acc {S A B} (l : list A) (body : A -> B -> M S B) (acc : B)
  : M S B :=
  match l with
  | [] => ret acc
  | x :: r => acc' <- body x acc ;; for_acc r body acc'
  end.

(** Objects live in a store and are named by their position in it. *)
Definition ref := nat.

Definition store_set {A} (l : list A) (r : ref) (x : A) : list A :=
  firstn r l ++ match skipn r l with [] => [] | _ :: t => x :: t end.

(** Modelled from the spec: the chunk classes of [guidance.trace] are not
    among the sources; the kinds are those that [_apply_chunk] tests for,
    and [TextOutput] carries the [token_count] it reads. *)
Inductive MessageChunk : Type :=
| LiteralInput (value : string)
| TextOutput (value : string) (token_count : Z)
| CaptureOutput (name : string) (value : string)
| RoleOpenerInput (name : string)
| RoleCloserInput (name : string)
| ImageOutput (value : string)
| UnknownChunk (value : string).

Definition is_TextOutput (c : MessageChunk) : option Z :=
  match c with TextOutput _ n => Some n | _ => None end.

Definition is_supported (c : MessageChunk) : bool :=
  match c with UnknownChunk _ => false | _ => true end.

(** An entry of [State.captures]: [{"value": v, "log_prob": p}]. *)
Record CaptureVar : Type := {
  value : string;
  log_prob : option float
}.

Section Model.

Variable ASTNode : Type.
(** The class [Function] of [guidance._ast]. *)
Variable FunctionT : Type.
Variable Content : Type.

(** Modelled from the spec: the class [State] of [models/_base/_state.py]
    is not among the sources. It holds the capture map that [Model] reads
    and writes and the content that [str] renders. *)
Record State : Type := {
  captures : dict (capture CaptureVar);
  content : Content
}.

Variable str_of_state : State -> string.
Variable apply_chunk : State -> MessageChunk -> State.
(** [Client.run(state, node)], as the list of the chunks it yields. *)
Variable client_run : State -> ASTNode -> list MessageChunk.

Definition set_captures (d : dict (capture CaptureVar)) (s : State)
  : State :=
  {| captures := d; content := content s |}.

(** What [_parse_tags] returns, and what [__add__] accepts besides a
    [str]. *)
Inductive grammar : Type :=
| GFunction (f : FunctionT)
| GNode (n : ASTNode).

Inductive fragment : Type :=
| FStr (s : string)
| FGrammar (g : grammar).

Variable _parse_tags : string -> grammar.

(** Modelled from the spec: the class [Block] of [library/_block.py] is
    not among the sources. Blocks are compared and hashed by identity,
    here [block_id]. *)
Record Block : Type := {
  block_id : nat;
  block_name : option string;
  opener : option fragment;
  closer : option fragment
}.

Definition block_eqb (a b : Block) : bool :=
  Nat.eqb (block_id a) (block_id b).

Definition block_dict := @PyDict.t Block nat.

(** The attributes of a [Model] object. [_active_blocks] is a reference
    to a dictionary object, [_parent] a reference to a [Model]. *)
Record Model : Type := {
  echo : bool;
  _state : State;
  _active_blocks : ref;
  token_count : Z;
  _parent : option ref;
  _parent_id : option nat;
  _id : nat;
  _trace_nodes : list nat
}.

(** A call of [TraceHandler.update_node] or of [Renderer.update]. *)
Definition TraceMessage : Type := nat * option nat * option MessageChunk.

(** The interpreter state that the module reads and writes: the object
    stores, the module globals and the two context variables. *)
Record World : Type := {
  models : list Model;
  dicts : list block_dict;
  _id_counter : nat;
  active_blocks : list Block;
  event_queues : list (list ref);
  trace_handler : list TraceMessage;
  renderer : list TraceMessage
}.

Definition set_models (l : list Model) (w : World) : World :=
  {| models := l; dicts := dicts w; _id_counter := _id_counter w;
     active_blocks := active_blocks w; event_queues := event_queues w;
     trace_handler := trace_handler w; renderer := renderer w |}.

Definition set_dicts (l : list block_dict) (w : World) : World :=
  {| models := models w; dicts := l; _id_counter := _id_counter w;
     active_blocks := active_blocks w; event_queues := event_queues w;
     trace_handler := trace_handler w; renderer := renderer w |}.

Definition set_id_counter (n : nat) (w : World) : World :=
  {| models := models w; dicts := dicts w; _id_counter := n;
     active_blocks := active_blocks w; event_queues := event_queues w;
     trace_handler := trace_handler w; renderer := renderer w |}.

Definition set_active_blocks (l : list Block) (w : World) : World :=
  {| models := models w; dicts := dicts w; _id_counter := _id_counter w;
     active_blocks := l; event_queues := event_queues w;
     trace_handler := trace_handler w; renderer := renderer w |}.

Definition set_event_queues (l : list (list ref)) (w : World) : World :=
  {| models := models w; dicts := dicts w; _id_counter := _id_counter w;
     active_blocks := active_blocks w; event_queues := l;
     trace_handler := trace_handler w; renderer := renderer w |}.

Definition set_trace_handler (l : list TraceMessage) (w : World) : World :=
  {| models := models w; dicts := dicts w; _id_counter := _id_counter w;
     active_blocks := active_blocks w; event_queues := event_queues w;
     trace_handler := l; renderer := renderer w |}.

Definition set_renderer (l : list TraceMessage) (w : World) : World :=
  {| models := models w; dicts := dicts w; _id_counter := _id_counter w;
     active_blocks := active_blocks w; event_queues := event_queues w;
     trace_handler := trace_handler w; renderer := l |}.

Definition empty_world : World :=
  {| models := []; dicts := []; _id_counter := 0; active_blocks := [];
     event_queues := []; trace_handler := []; renderer := [] |}.

(** Reading and writing through a reference. A reference that the store
    does not hold has no counterpart in Python; [TypeError] stands for
    it, and no call on a reference of the store meets it. *)
Definition deref (self : ref) : M World Model :=
  fun w => match nth_error (models w) self with
           | Some o => Ok o w
           | None => Raise TypeError w
           end.

Definition assign (self : ref) (f : Model -> Model) : M World unit :=
  o <- deref self ;;
  modify (fun w => set_models (store_set (models w) self (f o)) w).

Definition new_model (o : Model) : M World ref :=
  w <- get_state ;;
  modify (set_models (models w ++ [o])) ;;;
  ret (List.length (models w)).

Definition deref_dict (d : ref) : M World block_dict :=
  fun w => match nth_error (dicts w) d with
           | Some o => Ok o w
           | None => Raise TypeError w
           end.

Definition assign_dict (d : ref) (f : block_dict -> block_dict)
  : M World unit :=
  o <- deref_dict d ;;
  modify (fun w => set_dicts (store_set (dicts w) d (f o)) w).

Definition new_dict (o : block_dict) : M World ref :=
  w <- get_state ;;
  modify (set_dicts (dicts w ++ [o])) ;;;
  ret (List.length (dicts w)).

Definition with_state (s : State) (o : Model) : Model :=
  {| echo := echo o; _state := s; _active_blocks := _active_blocks o;
     token_count := token_count o; _parent := _parent o;
     _parent_id := _parent_id o; _id := _id o;
     _trace_nodes := _trace_nodes o |}.

Definition with_token_count (n : Z) (o : Model) : Model :=
  {| echo := echo o; _state := _state o;
     _active_blocks := _active_blocks o; token_count := n;
     _parent := _parent o; _parent_id := _parent_id o; _id := _id o;
     _trace_nodes := _trace_nodes o |}.

Definition with_trace_nodes (l : list nat) (o : Model) : Model :=
  {| echo := echo o; _state := _state o;
     _active_blocks := _active_blocks o; token_count := token_count o;
     _parent := _parent o; _parent_id := _parent_id o; _id := _id o;
     _trace_nodes := l |}.

Definition with_echo (b : bool) (o : Model) : Model :=
  {| echo := b; _state := _state o;
     _active_blocks := _active_blocks o; token_count := token_count o;
     _parent := _parent o; _parent_id := _parent_id o; _id := _id o;
     _trace_nodes := _trace_nodes o |}.

Definition _gen_id : M World nat :=
  w <- get_state ;;
  let _id := _id_counter w in
  modify (set_id_counter (_id_counter w + 1)) ;;;
  ret _id.

(** [s.add(x)] on a set kept as a list without repetition *)
Definition set_add (x : nat) (s : list nat) : list nat :=
  if existsb (Nat.eqb x) s then s else s ++ [x].

Definition _update_trace_node (self : ref) (identifier : nat)
  (parent_id : option nat) (node_attr : option MessageChunk)
  : M World unit :=
  modify (fun w =>
    set_trace_handler
      (trace_handler w ++ [(identifier, parent_id, node_attr)]) w) ;;;
  assign self (fun o => with_trace_nodes (set_add identifier (_trace_nodes o)) o) ;;;
  o <- deref self ;;
  if echo o then
    modify (fun w =>
      set_renderer (renderer w ++ [(identifier, parent_id, node_attr)]) w)
  else ret tt.

(** [Model.__init__] *)
Definition Model_init (state : State) (echo : bool) : M World ref :=
  d <- new_dict [] ;;
  fresh <- _gen_id ;;
  self <- new_model {| echo := echo; _state := state; _active_blocks := d;
                       token_count := 0%Z; _parent := None;
                       _parent_id := None; _id := fresh;
                       _trace_nodes := [] |} ;;
  _update_trace_node self fresh None None ;;;
  ret self.

(** [Model.copy]: [__dict__.update] leaves every attribute of the new
    object pointing where the old one's does; [_state] (by [deepcopy]),
    [_id], [_parent_id], [_trace_nodes] and [_parent] are then replaced,
    [_active_blocks] is not. *)
Definition copy (self : ref) : M World ref :=
  o <- deref self ;;
  let state := _state o in
  fresh <- _gen_id ;;
  obj <- new_model {| echo := echo o; _state := state;
                      _active_blocks := _active_blocks o;
                      token_count := token_count o;
                      _parent := Some self;
                      _parent_id := Some (_id o);
                      _id := fresh;
                      _trace_nodes := [] |} ;;
  _update_trace_node obj fresh (Some (_id o)) None ;;;
  ret obj.

(** [try: c  except KeyError: h] *)
Definition except_KeyError {S A} (c : M S A) (h : M S A) : M S A :=
  fun s => match c s with
           | Raise KeyError s' => h s'
           | r => r
           end.

Definition __str__ (self : ref) : M World string :=
  o <- deref self ;;
  ret (str_of_state (_state o)).

Definition __len__ (self : ref) : M World nat :=
  s <- __str__ self ;;
  ret (String.length s).

Definition __getitem__ (self : ref) (key : string)
  : M World (capture string) :=
  o <- deref self ;;
  match dget (captures (_state o)) key with
  | None => raise KeyError
  | Some c => ret (capture_map value c)
  end.

Definition __contains__ (self : ref) (key : string) : M World bool :=
  o <- deref self ;;
  ret (dcontains (captures (_state o)) key).

Definition get {D} (self : ref) (key : string) (default : D)
  : M World (capture string + D) :=
  except_KeyError
    (v <- __getitem__ self key ;; ret (inl v))
    (ret (inr default)).

Definition log_prob_of {D} (self : ref) (key : string) (default : D)
  : M World (capture (option float) + D) :=
  o <- deref self ;;
  match dget (captures (_state o)) key with
  | None => ret (inr default)
  | Some c => ret (inl (capture_map log_prob c))
  end.

Definition fresh_var (v : string) : CaptureVar :=
  {| value := v; log_prob := None |}.

Definition set (self : ref) (key : string) (value : capture string)
  : M World ref :=
  self <- copy self ;;
  assign self (fun o =>
    with_state
      (set_captures
         (dset (captures (_state o)) key (capture_map fresh_var value))
         (_state o)) o) ;;;
  ret self.

Definition remove (self : ref) (key : string) : M World ref :=
  self <- copy self ;;
  o <- deref self ;;
  match dpop (captures (_state o)) key with
  | None => raise KeyError
  | Some (_, d) =>
      assign self (fun o => with_state (set_captures d (_state o)) o) ;;;
      ret self
  end.

Definition _send_to_event_queue (self : ref) : M World unit :=
  modify (fun w =>
    set_event_queues (map (fun q => q ++ [self]) (event_queues w)) w).

Definition _apply_chunk (self : ref) (chunk : MessageChunk)
  : M World ref :=
  self <- copy self ;;
  assign self (fun o => with_state (apply_chunk (_state o) chunk) o) ;;;
  match is_TextOutput chunk with
  | Some n =>
      assign self (fun o => with_token_count (token_count o + n)%Z o)
  | None => ret tt
  end ;;;
  (if is_supported chunk then
     o <- deref self ;;
     _update_trace_node self (_id o) (_parent_id o) (Some chunk)
   else raise NotImplementedError) ;;;
  _send_to_event_queue self ;;;
  ret self.

Definition _apply_node (self : ref) (node : ASTNode) : M World ref :=
  o <- deref self ;;
  for_acc (client_run (_state o) node)
          (fun chunk self => _apply_chunk self chunk) self.

(** The treatment that [_apply_blocks] gives a closer and an opener. *)
Definition apply_block_fragment (self : ref) (f : fragment)
  : M World ref :=
  let g := match f with FStr s => _parse_tags s | FGrammar g => g end in
  match g with
  | GFunction _ => raise NotImplementedError
  | GNode n => _apply_node self n
  end.

Definition block_in (b : Block) (l : list Block) : bool :=
  existsb (block_eqb b) l.

Definition _apply_blocks (self : ref) : M World ref :=
  self <- copy self ;;
  w <- get_state ;;
  let global_active_blocks := active_blocks w in
  o <- deref self ;;
  d <- deref_dict (_active_blocks o) ;;
  self <- for_acc (rev (PyDict.items d))
    (fun item self =>
       let '(block, start_index) := item in
       self <-
         (if negb (block_in block global_active_blocks) then
            o <- deref self ;;
            d <- deref_dict (_active_blocks o) ;;
            match PyDict.pop block_eqb d block with
            | None => raise KeyError
            | Some (_, d') =>
                assign_dict (_active_blocks o) (fun _ => d')
            end ;;;
            match closer block with
            | Some c => apply_block_fragment self c
            | None => ret self
            end
          else ret self) ;;
       match block_name block with
       | Some name =>
           s <- __str__ self ;;
           set self name (Scalar (str_from start_index s))
       | None => ret self
       end) self ;;
  for_acc global_active_blocks
    (fun block self =>
       o <- deref self ;;
       d <- deref_dict (_active_blocks o) ;;
       if negb (PyDict.contains block_eqb d block) then
         n <- __len__ self ;;
         assign_dict (_active_blocks o)
                     (fun d => PyDict.set block_eqb d block n) ;;;
         match opener block with
         | Some c => apply_block_fragment self c
         | None => ret self
         end
       else ret self) self.

Definition _update_open_block_captures (self : ref) : M World ref :=
  self <- copy self ;;
  o <- deref self ;;
  d <- deref_dict (_active_blocks o) ;;
  for_acc (PyDict.items d)
    (fun item self =>
       let '(block, start_index) := item in
       match block_name block with
       | Some name =>
           s <- __str__ self ;;
           set self name (Scalar (str_from start_index s))
       | None => ret self
       end) self.

(** [other(self)] for a [Function] *)
Variable call_function : FunctionT -> ref -> M World ref.

Definition __add__ (self : ref) (other : fragment) : M World ref :=
  self <- _apply_blocks self ;;
  match other with
  | FStr EmptyString => ret self
  | _ =>
      let g :=
        match other with FStr s => _parse_tags s | FGrammar g => g end in
      match g with
      | GFunction f => call_function f self
      | GNode n =>
          self <- _apply_node self n ;;
          _update_open_block_captures self
      end
  end.

(** What can be seen of a node: its attributes, with the dictionary
    that [_active_blocks] points to read through the reference. *)
Definition observe (w : World) (self : ref)
  : option (Model * option block_dict) :=
  match nth_error (models w) self with
  | Some o => Some (o, nth_error (dicts w) (_active_blocks o))
  | None => None
  end.

(** The world [w'] holds every object of [w] as it was in [w], and
    possibly new [Model] objects after them. *)
Definition extends (w w' : World) : Prop :=
  (exists added, models w' = models w ++ added) /\ dicts w' = dicts w.

(** The world holds the objects of [w] as they were and one more
    [Model]. *)
Definition one_more (w w' : World) : Prop :=
  (exists o, models w' = models w ++ [o]) /\ dicts w' = dicts w.

(** What a call that returns a node may do to the world [w]: extend it,
    and return a node that the new world holds. *)
Definition node_result (w : World) (out : outcome World ref) : Prop :=
  match out with
  | Ok r w' => extends w w' /\ r < List.length (models w')
  | Raise _ w' => extends w w'
  | OutOfFuel => True
  end.

Definition node_op (f : ref -> M World ref) : Prop :=
  forall self w, self < List.length (models w) -> node_result w (f self w).

End Model.

(** A client for running the tree: a node is a literal, run into one
    [LiteralInput] chunk, and the state renders the text applied so far. *)
Module Literal.
Definition apply_chunk (s : State string) (c : MessageChunk)
  : State string :=
  match c with
  | LiteralInput v | TextOutput v _ =>
      {| captures := captures s; content := (content s ++ v)%string |}
  | CaptureOutput n v =>
      {| captures := dset (captures s) n (Scalar (fresh_var v));
         content := content s |}
  | _ => s
  end.

Definition client_run (_ : State string) (node : string)
  : list MessageChunk := [LiteralInput node].

Definition _parse_tags (s : string) : grammar string Empty_set := GNode _ s.

Definition call_function (f : Empty_set) (self : ref)
  : M (World string Empty_set string) ref := ret self.

Definition world := World string Empty_set string.
Definition add := __add__ (@content string) apply_chunk client_run
                          _parse_tags call_function.
Definition apply_blocks := _apply_blocks (@content string) apply_chunk
                                         client_run _parse_tags.
Definition init := @Model_init string Empty_set string.
Definition initial_state : State string :=
  {| captures := []; content := EmptyString |}.
Definition contains := @__contains__ string Empty_set string.
Definition observe := @observe string Empty_set string.

(** A block that captures its extent under the name ["cap"] and has
    neither opener nor closer. *)
Definition cap_block : Block string Empty_set :=
  {| block_id := 7; block_name := Some "cap"%string; opener := None;
     closer := None |}.
End Literal.

End Tree.

(* ================================================================== *)
(** * The capture rule and the text summary, as the design states them *)

(** How a capture value arrives: flagged for appending, or plain. *)
Inductive write_mode : Type := AppendMode | ScalarMode.

(** The entry of a name after one more value for it. *)
Definition capture_write {A} (cur : option (capture A)) (m : write_mode)
  (x : A) : capture A :=
  match m, cur with
  | AppendMode, Some (Multi l) => Multi (l ++ [x])
  | AppendMode, _ => Multi [x]
  | ScalarMode, _ => Scalar x
  end.

(** The entry of a name after a sequence of values for it. *)
Definition replay {A} (ws : list (write_mode * A)) (cur : option (capture A))
  : option (capture A) :=
  fold_left (fun c w => Some (capture_write c (fst w) (snd w))) ws cur.

(** The key that a capture event writes, and the mode it writes in. *)
Definition event_key (cname : string) : string * write_mode :=
  if startswith cname LIST_APPEND then (str_from 14 cname, AppendMode)
  else (cname, ScalarMode).

(** The values (with their log-probabilities) that a progress log holds for
    the key [k], in report order. *)
Fixpoint writes (k : string) (progress : list progress_event)
  : list (write_mode * (pybytes * float)) :=
  match progress with
  | [] => []
  | CaptureEvent cname data lp :: r =>
      let '(k', m) := event_key cname in
      if String.eqb k k' then (m, (data, lp)) :: writes k r else writes k r
  | _ :: r => writes k r
  end.

Definition values_of {A B} (ws : list (write_mode * (A * B)))
  : list (write_mode * A) :=
  map (fun w => (fst w, fst (snd w))) ws.

Definition log_probs_of {A B} (ws : list (write_mode * (A * B)))
  : list (write_mode * B) :=
  map (fun w => (fst w, snd (snd w))) ws.

(** An entry of a step's response, read as the values it stands for. *)
Definition entry_writes {A} (e : option (capture A))
  : list (write_mode * A) :=
  match e with
  | None => []
  | Some (Scalar x) => [(ScalarMode, x)]
  | Some (Multi l) => map (fun x => (AppendMode, x)) l
  end.

(** The text fragments of a progress log, in report order. *)
Fixpoint text_fragments (progress : list progress_event)
  : list (pybytes * Z * float) :=
  match progress with
  | [] => []
  | TextEvent data n lp _ :: r => (data, n, lp) :: text_fragments r
  | _ :: r => text_fragments r
  end.

Definition fsum (l : list float) : float := fold_left PrimFloat.add l 0%float.

(** The arithmetic mean in binary64: the sum in list order over the
    count, and [0.0] for no element. *)
Definition fmean (l : list float) : float :=
  match l with
  | [] => 0%float
  | _ => PrimFloat.div (fsum l) (float_of_nat (List.length l))
  end.

Definition zsum (l : list Z) : Z := fold_right Z.add 0%Z l.

(** The two dictionaries of a response or of a parser agree on which names
    they hold, on list against scalar, and on the lengths of the lists. *)
Definition shape {A} (c : capture A) : option nat :=
  match c with Scalar _ => None | Multi l => Some (List.length l) end.

Definition in_sync {A B} (d : dict (capture A)) (e : dict (capture B)) : Prop :=
  forall k, option_map shape (dget d k) = option_map shape (dget e k).

(** The design's sentence on capture shapes, read on one progress log: the
    first value for a name fixes list or scalar, a list then holds every
    value in order and a scalar the last one. *)
Definition first_write_fixes_shape : Prop :=
  forall (progress : list progress_event) (k : string) m x rest
         (r : ParserResponse),
    @_handle_progress unit progress tt = Ok r tt ->
    values_of (writes k progress) = (m, x) :: rest ->
    dget (capture_groups r) k =
      Some (match m with
            | AppendMode => Multi (x :: map snd rest)
            | ScalarMode => Scalar (last (map snd rest) x)
            end).

(** The steps of a parse as far as captures go: each progress log is
    reduced and merged into the byte parser's variables. *)
Definition merge_steps Interp (steps : list (list progress_event))
  : M (ByteParser Interp) unit :=
  for_each steps (fun progress =>
    response <- _handle_progress progress ;;
    _update_capture response).

(** The entry of a name after the steps of a parse, by the capture rule:
    within a step the values are replayed from nothing, and the step's
    entry is then replayed onto what the parser holds. *)
Definition captured {A} (pick : pybytes * float -> A) (k : string)
  (steps : list (list progress_event)) : option (capture A) :=
  fold_left
    (fun cur progress =>
       replay (entry_writes
                 (replay (map (fun w => (fst w, pick (snd w)))
                              (writes k progress)) None)) cur)
    steps None.

(** The locals of [_handle_progress] after a capture event, by the
    capture rule. *)
Definition hp_write (km : string * write_mode) (data : pybytes) (lp : float)
  (s : hp_locals) : hp_locals :=
  {| hp_new_bytes := hp_new_bytes s;
     hp_new_token_count := hp_new_token_count s;
     hp_new_bytes_prob := hp_new_bytes_prob s;
     hp_is_generated := true;
     hp_capture_groups :=
       dset (hp_capture_groups s) (fst km)
            (capture_write (dget (hp_capture_groups s) (fst km)) (snd km) data);
     hp_capture_group_log_probs :=
       dset (hp_capture_group_log_probs s) (fst km)
            (capture_write (dget (hp_capture_group_log_probs s) (fst km))
                           (snd km) lp);
     hp_num_text_entries := hp_num_text_entries s |}.

Definition hp_step (s : hp_locals) (j : progress_event) : hp_locals :=
  match j with
  | CaptureEvent cname data lp => hp_write (event_key cname) data lp s
  | TextEvent data n lp g => hp_add_text data n lp g s
  | OtherEvent _ => s
  end.

(** A dictionary of values with its dictionary of log-probabilities, and
    the capture rule on the pair. *)
Definition caps (A : Type) : Type := (dict (capture A) * dict (capture float))%type.

Definition write2 {A} (k : string) (m : write_mode) (x : A) (lp : float)
  (c : caps A) : caps A :=
  (dset (fst c) k (capture_write (dget (fst c) k) m x),
   dset (snd c) k (capture_write (dget (snd c) k) m lp)).

Definition write_all {A} (k : string) (ws : list (write_mode * (A * float)))
  (c : caps A) : caps A :=
  fold_left (fun c w => write2 k (fst w) (fst (snd w)) (snd (snd w)) c) ws c.

Definition bp_caps {Interp} (self : ByteParser Interp) : caps pytext :=
  (_variables self, _variables_log_probs self).

Definition set_caps {Interp} (c : caps pytext) (self : ByteParser Interp)
  : ByteParser Interp :=
  set_variables_log_probs (snd c) (set_variables (fst c) self).

(** The values that a response holds for [k], decoded, each with its
    log-probability. *)
Definition entry_pairs (response : ParserResponse) (k : string)
  : list (write_mode * (pytext * float)) :=
  match dget (capture_groups response) k,
        dget (capture_group_log_probs response) k with
  | Some (Scalar v), Some (Scalar p) => [(ScalarMode, (try_decode v, p))]
  | Some (Multi vs), Some (Multi ps) =>
      map (fun vp => (AppendMode, (try_decode (fst vp), snd vp)))
          (combine vs ps)
  | _, _ => []
  end.

Definition uc_keys (response : ParserResponse) (keys : list string)
  (c : caps pytext) : caps pytext :=
  fold_left (fun c k => write_all k (entry_pairs response k) c) keys c.

(** A computation keeps the property [P] of the state, whether it returns
    or raises. *)
Definition kept {S A} (P : S -> Prop) (o : outcome S A) : Prop :=
  match o with
  | Ok _ s' => P s'
  | Raise _ s' => P s'
  | OutOfFuel => True
  end.

Inductive preserves {S A} (P : S -> Prop) (c : M S A) : Prop :=
| Preserves : (forall s, P s -> kept P (c s)) -> preserves P c.

(** A computation keeps [P] and, when it returns, returns a value in [Q]. *)
Inductive returns {S A} (P : S -> Prop) (Q : A -> Prop) (c : M S A) : Prop :=
| Returns :
    (forall s, P s ->
       match c s with
       | Ok a s' => P s' /\ Q a
       | Raise _ s' => P s'
       | OutOfFuel => True
       end) -> returns P Q c.

(** The cursor of a byte parser stays within the committed buffer. *)
Definition cursor_in_buffer {Interp} (self : ByteParser Interp) : Prop :=
  pos self <= List.length (bytes self).

(* ------------------------------------------------------------------ *)
(** ** Inputs for running the parsers *)

Definition report (bt : Z) (ff : list Z) (stop : bool)
  (progress : list progress_event) : StepReport :=
  {| rep_backtrack := bt; rep_ff_tokens := ff; rep_stop := stop;
     rep_temperature := 0%float; rep_progress := progress |}.

(** A byte parser as [ByteParser.__init__] leaves it, over a script. *)
Definition fresh_parser (script : list (option pybytes * StepReport))
  : ByteParser (list (option pybytes * StepReport)) :=
  ByteParser_init {| ll_interpreter := script; _state := _start [] |}.

(** The answers of an interpreter whose grammar accepts exactly ["ab"]:
    the first step forces the two byte tokens, the next one stops. *)
Definition forced_ab : list (option pybytes * StepReport) :=
  [(None, report 0 [97; 98]%Z false [TextEvent [x61; x62] 2 0%float false])].

(** A mask over [n] tokens with the tokens of [allowed] set. *)
Definition mask_of (allowed : list Z) (n : nat) : pybytes :=
  map (fun i => if int_in (Z.of_nat i) allowed then x01 else x00) (seq 0 n).

(** The answers of an interpreter that first leaves the choice between
    the byte tokens of ["a"] and ["b"] to the caller. *)
Definition choice_ab : list (option pybytes * StepReport) :=
  [(Some (mask_of [97; 98]%Z 256), report 0 [] false [])].

(** A token parser holding three tokens, over a script. *)
Definition parser_123 (script : list (option pybytes * StepReport))
  : LLParser (list (option pybytes * StepReport)) :=
  {| ll_interpreter := script; _state := _start [1; 2; 3]%Z |}.

(** All the values that the steps of a parse hold for [k], in order. *)
Definition all_writes (k : string) (steps : list (list progress_event))
  : list (write_mode * (pybytes * float)) :=
  List.concat (map (writes k) steps).

Definition appends {A} (xs : list A) : list (write_mode * A) :=
  map (fun x => (AppendMode, x)) xs.

(** The entry that holds the list [xs], and none for no value. *)
Definition list_entry {A} (xs : list A) : option (capture A) :=
  match xs with [] => None | _ :: _ => Some (Multi xs) end.

(* ------------------------------------------------------------------ *)
(** ** [LLParser._start] with its tokenizer *)

(** [s.startswith(p)] on [bytes] *)
Fixpoint bytes_startswith (s p : pybytes) {struct p} : bool :=
  match p, s with
  | [], _ => true
  | _ :: _, [] => false
  | c :: p', d :: s' => byte_eqb c d && bytes_startswith s' p'
  end.

Section Start.

Variable Interp : Type.
(** [tokenizer.bos_token], [tokenizer.encode] and the interpreter's
    [process_prompt] are taken as they come. *)
Variable bos_token : option pybytes.
Variable encode : pybytes -> list Z.
Variable process_prompt : Interp -> list Z -> list Z * Interp.

(** The prompt that [_start] hands to [encode]. *)
Definition start_prompt (prompt : pybytes) (ensure_bos_token : bool)
  : pybytes :=
  match bos_token with
  | Some bos =>
      if ensure_bos_token && negb (bytes_startswith prompt bos)
      then bos ++ prompt
      else prompt
  | None => prompt
  end.

(** [LLParser.__init__] from the interpreter it has built: the state is
    that of [_start]. *)
Definition LLParser_init (interp : Interp) (prompt : pybytes)
  (ensure_bos_token : bool) : LLParser Interp :=
  let prompt_tokens := encode (start_prompt prompt ensure_bos_token) in
  let '(tokens, interp') := process_prompt interp prompt_tokens in
  {| ll_interpreter := interp'; _state := _start tokens |}.

End Start.

(** Whether a progress entry marks the step as generated, and whether
    [_handle_progress] looks at it at all. *)
Definition marks_generated (j : progress_event) : bool :=
  match j with
  | CaptureEvent _ _ _ => true
  | TextEvent _ _ _ g => g
  | OtherEvent _ => false
  end.

Definition is_known_event (j : progress_event) : bool :=
  match j with OtherEvent _ => false | _ => true end.

(** A property of the cursor and the committed buffer of a byte parser. *)
Definition on_cursor {Interp} (Q : nat -> pybytes -> Prop)
  (self : ByteParser Interp) : Prop :=
  Q (pos self) (bytes self).

(** A computation raises only exceptions in [E]. *)
Inductive raises_only {S A} (E : exn -> Prop) (c : M S A) : Prop :=
| RaisesOnly :
    (forall s, match c s with Raise e _ => E e | _ => True end) ->
    raises_only E c.

Definition not_parser_exception (e : exn) : Prop :=
  is_parser_exception e = false.

(** The parser is not in the middle of a step: a mask is pending or the
    token parser is done. *)
Definition ready {Interp} (self : ByteParser Interp) : Prop :=
  gen_data self = None -> parser_done (ll_parser self) = true.

(** From [self] to [self'] the parser has consumed exactly the bytes
    [pre]: the cursor has advanced over them in the committed buffer. *)
Definition consumed_upto {Interp} (self self' : ByteParser Interp)
  (pre : pybytes) : Prop :=
  pos self' = pos self + List.length pre
  /\ firstn (pos self') (bytes self')
     = firstn (pos self) (bytes self) ++ pre.

(** What a byte-mismatch error raised by [consume_bytes bts] carries. *)
Definition mismatch_report {Interp} (self : ByteParser Interp)
  (bts : pybytes) (e : exn) (self' : ByteParser Interp) : Prop :=
  match e with
  | ParserException current_byte allowed_bytes consumed_bytes =>
      exists pre b rest,
        bts = pre ++ b :: rest
        /\ current_byte = Z_of_byte b
        /\ consumed_upto self self' pre
        /\ consumed_bytes = bytes self'
        /\ ~ In (PyInt current_byte) allowed_bytes
        /\ ~ In (PyBytes [b]) allowed_bytes
  | _ => True
  end.

(** What [consume_bytes bts] comes to. *)
Definition consume_outcome {Interp} (self : ByteParser Interp)
  (bts : pybytes) (out : outcome (ByteParser Interp) unit) : Prop :=
  match out with
  | Ok _ self' => consumed_upto self self' bts /\ ready self'
  | Raise e self' => mismatch_report self bts e self'
  | OutOfFuel => True
  end.

(** A byte parser whose token parser is done. *)
Definition finished_parser : ByteParser (list (option pybytes * StepReport)) :=
  set_ll_parser
    {| ll_interpreter := choice_ab;
       _state := {| tokens := []; ff_tokens := []; backtrack := 0%Z;
                    done := true |} |}
    (fresh_parser choice_ab).

(* ------------------------------------------------------------------ *)
(** ** [ModelStream] *)

Module Stream.
Import Tree.

Section ModelStream.
Variables ASTNode FunctionT Content : Type.
(** What a stream is extended with ([str], [ASTNode] or [Function]), and
    [+] on two of them. *)
Variable G : Type.
Variable grammar_add : G -> G -> G.

(** The attributes of a [ModelStream]; [grammar] is [None], another
    stream or a grammar. *)
Inductive ModelStream : Type :=
| MkModelStream (model : ref) (grammar : stream_grammar) (timeout : Z)
with stream_grammar : Type :=
| GNone
| GStream (s : ModelStream)
| GOther (g : G).

Definition model_of (s : ModelStream) : ref :=
  match s with MkModelStream m _ _ => m end.
Definition grammar_of (s : ModelStream) : stream_grammar :=
  match s with MkModelStream _ g _ => g end.
Definition timeout_of (s : ModelStream) : Z :=
  match s with MkModelStream _ _ t => t end.

(** The default of the parameter [timeout]. *)
Definition default_timeout : Z := 5.

(** [ModelStream.__init__] *)
Definition ModelStream_init (model : ref) (grammar : stream_grammar)
  (timeout : Z) : M (World ASTNode FunctionT Content) ModelStream :=
  o <- deref model ;;
  model <- (if echo o then
              model <- copy model ;;
              assign model (with_echo false) ;;;
              ret model
            else ret model) ;;
  ret (MkModelStream model grammar timeout).

(** [ModelStream.__add__]; on a stream whose grammar is a stream, [+] is
    this method again. *)
Fixpoint stream_add (self : ModelStream) (grammar : G)
  : M (World ASTNode FunctionT Content) ModelStream :=
  match self with
  | MkModelStream model g0 _ =>
      match g0 with
      | GNone => ModelStream_init model (GOther grammar) default_timeout
      | GOther g =>
          ModelStream_init model (GOther (grammar_add g grammar))
                           default_timeout
      | GStream s =>
          s' <- stream_add s grammar ;;
          ModelStream_init model (GStream s') default_timeout
      end
  end.

End ModelStream.
End Stream.

(* ------------------------------------------------------------------ *)
(** ** Specifications of the tree operations *)

(** A computation started in [P] returns in [Q] or raises in [E]. *)
Inductive hoare {S A} (P : S -> Prop) (c : M S A) (Q : A -> S -> Prop)
  (E : S -> Prop) : Prop :=
| Hoare :
    (forall s, P s ->
       match c s with
       | Ok a s' => Q a s'
       | Raise _ s' => E s'
       | OutOfFuel => True
       end) -> hoare P c Q E.

Module TreeSpec.
Import Tree.

Section Spec.
Variables ASTNode FunctionT Content : Type.
Implicit Types (w : World ASTNode FunctionT Content) (self : ref).
Implicit Types o : Model Content.

(** The object that [copy] makes of [o], and the world it leaves. *)
Definition copy_node self o w : Model Content :=
  {| echo := echo o; _state := _state o;
     _active_blocks := _active_blocks o; token_count := token_count o;
     _parent := Some self; _parent_id := Some (_id o);
     _id := _id_counter w; _trace_nodes := [_id_counter w] |}.

Definition copy_world self o w : World ASTNode FunctionT Content :=
  let msg := (_id_counter w, Some (_id o), @None MessageChunk) in
  {| models := models w ++ [copy_node self o w];
     dicts := dicts w;
     _id_counter := _id_counter w + 1;
     active_blocks := active_blocks w;
     event_queues := event_queues w;
     trace_handler := trace_handler w ++ [msg];
     renderer := if echo o then renderer w ++ [msg] else renderer w |}.

(** The tokens that a chunk adds to [token_count]. *)
Definition chunk_tokens (c : MessageChunk) : Z :=
  match is_TextOutput c with Some n => n | None => 0%Z end.

(** The messages that applying [chunk] to a copy of [o] sends to the
    trace handler. *)
Definition chunk_messages o w (chunk : MessageChunk)
  : list TraceMessage :=
  [(_id_counter w, Some (_id o), None);
   (_id_counter w, Some (_id o), Some chunk)].

(** An update of attributes that are not the identity of a node. *)
Definition keeps_identity (f : Model Content -> Model Content) : Prop :=
  forall o, echo (f o) = echo o /\ _id (f o) = _id o
            /\ _parent (f o) = _parent o /\ _parent_id (f o) = _parent_id o
            /\ _active_blocks (f o) = _active_blocks o.

(** The node [self] does not echo. *)
Definition is_quiet w self : Prop :=
  exists o, nth_error (models w) self = Some o /\ echo o = false.

(** The renderer has been sent [R] and the node [self] does not echo. *)
Definition quiet_at (R : list TraceMessage) self w : Prop :=
  renderer w = R /\ is_quiet w self.

(** A call on a node of [w] has sent nothing to the renderer, and the
    node it returns does not echo. *)
Definition quiet_outcome w
  (out : outcome (World ASTNode FunctionT Content) ref) : Prop :=
  match out with
  | Ok r w' => renderer w' = renderer w /\ is_quiet w' r
  | Raise _ w' => renderer w' = renderer w
  | OutOfFuel => True
  end.

(** Identifiers are handed out once, and a node's parent is an earlier
    node whose identifier the node records. *)
Definition ids_ok w : Prop :=
  Forall (fun o => _id o < _id_counter w) (models w)
  /\ NoDup (map (@_id Content) (models w))
  /\ forall r o, nth_error (models w) r = Some o ->
       match _parent o with
       | None => _parent_id o = None
       | Some p => p < r
                   /\ exists po, nth_error (models w) p = Some po
                                 /\ _parent_id o = Some (_id po)
       end.

(** The node [r] keeps its active blocks in the dictionary object [d],
    and that dictionary satisfies [P]. *)
Definition on_dict (d : ref) (P : block_dict ASTNode FunctionT -> Prop)
  r w : Prop :=
  (exists o, nth_error (models w) r = Some o /\ _active_blocks o = d)
  /\ exists D, nth_error (dicts w) d = Some D /\ P D.

(** The identities of the blocks that a dictionary holds. *)
Definition block_ids (D : block_dict ASTNode FunctionT) : list nat :=
  map (fun kv => block_id (fst kv)) D.

(** The dictionary after the closing loop of [_apply_blocks] has met
    [item], for the globally active blocks [G]. *)
Definition close_step (G : list (Block ASTNode FunctionT))
  (D : block_dict ASTNode FunctionT) (item : Block ASTNode FunctionT * nat)
  : block_dict ASTNode FunctionT :=
  if block_in (fst item) G then D
  else match PyDict.pop (@block_eqb ASTNode FunctionT) D (fst item) with
       | Some (_, D') => D'
       | None => D
       end.

(** What holds of the dictionary after the opening loop has met
    [block], when [P] held before. *)
Definition open_step (P : block_dict ASTNode FunctionT -> Prop)
  (block : Block ASTNode FunctionT)
  : block_dict ASTNode FunctionT -> Prop :=
  fun D' =>
    exists D, P D
      /\ ((D' = D
           /\ PyDict.contains (@block_eqb ASTNode FunctionT) D block = true)
          \/ (exists n,
                PyDict.contains (@block_eqb ASTNode FunctionT) D block
                = false
                /\ D' = PyDict.set (@block_eqb ASTNode FunctionT) D block
                                   n)).

(** The model of a stream, and of every stream nested in it as its
    grammar, does not echo. *)
Fixpoint stream_quiet {G : Type} w (s : Stream.ModelStream G) : Prop :=
  match s with
  | Stream.MkModelStream m g _ =>
      is_quiet w m
      /\ match g with
         | Stream.GStream s0 => stream_quiet w s0
         | _ => True
         end
  end.

End Spec.
End TreeSpec.

(** A world holding one root node with the variable ["x"], one
    dictionary of active blocks and one event queue; the node echoes or
    not. *)
Module Sample.
Import Tree.

Definition state : State string :=
  {| captures := [("x"%string, Scalar (fresh_var "1"))];
     content := "ab"%string |}.

Definition root (e : bool) : Model string :=
  {| echo := e; _state := state; _active_blocks := 0; token_count := 0%Z;
     _parent := None; _parent_id := None; _id := 0; _trace_nodes := [0] |}.

Definition world (e : bool) : Literal.world :=
  {| models := [root e]; dicts := [[]]; _id_counter := 1;
     active_blocks := []; event_queues := [[]];
     trace_handler := [(0, None, None)];
     renderer := if e then [(0, None, None)] else [] |}.

(** A client whose nodes are texts, run into one [TextOutput] chunk per
    character, of one token each. *)
Fixpoint chars (s : string) : list MessageChunk :=
  match s with
  | EmptyString => []
  | String c r => TextOutput (String c EmptyString) 1 :: chars r
  end.

Definition client_run (_ : State string) (node : string)
  : list MessageChunk := chars node.

End Sample.

(* ================================================================== *)
(** * The Phi-3 vision engine: the prompt tokens of [start] *)

Module Phi3V.

(** [l[start:]] with Python's treatment of negative and large bounds. *)
Definition slice_from {A} (l : list A) (start : Z) : list A :=
  let n := Z.of_nat (List.length l) in
  let s := if (start <? 0)%Z then Z.max 0 (start + n) else Z.min start n in
  skipn (Z.to_nat s) l.

Section Start.
Variable Interp : Type.
(** [process_prompt] of [guidance._parser] is not among the sources; it
    is taken as it comes, with the interpreter it leaves. *)
Variable process_prompt : list Z -> Interp -> option Z -> list Z * Interp.

(** The loop over [enumerate(reversed(tokens))], left at the first
    negative token. *)
Fixpoint find_last_multimodal (len : Z) (items : list (nat * Z))
  (last_multimodal_index : Z) : Z :=
  match items with
  | [] => last_multimodal_index
  | (i, token) :: rest =>
      if (token <? 0)%Z then (len - Z.of_nat i - 1)%Z
      else find_last_multimodal len rest last_multimodal_index
  end.

Definition last_multimodal_index (tokens : list Z) : Z :=
  find_last_multimodal (Z.of_nat (List.length tokens))
                       (enumerate (rev tokens)) (-1)%Z.

(** The part of [start] that follows the tokenization: from the token
    ids of the prompt to the tokens handed to the [TokenParser]. *)
Definition start_prompt_tokens (tokens : list Z) (ll_interpreter : Interp)
  (ensure_bos_token : bool) (tokenizer_bos_token_id : option Z)
  : list Z * Interp :=
  let bos_token_id :=
    if ensure_bos_token
       && match tokenizer_bos_token_id with Some _ => true | None => false end
    then tokenizer_bos_token_id
    else None in
  let last_multimodal_index := last_multimodal_index tokens in
  if negb (last_multimodal_index =? -1)%Z then
    let '(processed_tokens, i') :=
      process_prompt (slice_from tokens (last_multimodal_index + 1))
                     ll_interpreter bos_token_id in
    (slice_to tokens (last_multimodal_index + 1) ++ processed_tokens, i')
  else
    process_prompt tokens ll_interpreter bos_token_id.

End Start.
End Phi3V.

(* ================================================================== *)
(** * The monitoring loop *)

Module Metrics.

(** One entry of [gpu_stats.gpus]; [gpustat] gives [None] as the
    utilization of a GPU that does not report it. *)
Record gpu_stat : Type := {
  utilization : option Z;
  memory_used : Z;
  memory_total : Z
}.

(** What one turn of the loop reads from its environment: the stop flag
    at the loop test, the clock before and after the sampling, the
    samples of [psutil], and what [GPUStatCollection.new_query()] comes
    to when the turn calls it, a collection or an exception. *)
Record reading : Type := {
  stop_flag : bool;
  t0 : float;
  cpu_percent : float;
  memory_usage_used : Z;
  new_query : result (list gpu_stat);
  t1 : float
}.

(** The five lists of [metrics_dict], as [Monitor.__init__] builds it,
    and the log of the calls of [time.sleep] that have returned. *)
Record state : Type := {
  CPU_USAGE : list float;
  MEM_USAGE : list float;
  GPU_USAGE : list (list float);
  GPU_USED_MEM : list (list Z);
  GPU_TOTAL_MEM : list (list Z);
  slept : list float
}.

Section Monitor.
(** [int / int] and [int / float] of Python. *)
Variable int_div_int : Z -> Z -> float.
Variable int_div_float : Z -> float -> float.

(** [if len(metrics) > max_size: metrics.pop(0)] *)
Definition trim {A} (max_size : Z) (metrics : list A) : result (list A) :=
  if (Z.of_nat (List.length metrics) >? max_size)%Z then
    match metrics with
    | [] => Exc IndexError
    | _ :: rest => Ret rest
    end
  else Ret metrics.

(** [time.sleep(secs)]: a negative argument raises [ValueError]. *)
Definition time_sleep (secs : float) : M state unit :=
  if PrimFloat.ltb secs 0 then raise ValueError
  else modify (fun s =>
    {| CPU_USAGE := CPU_USAGE s; MEM_USAGE := MEM_USAGE s;
       GPU_USAGE := GPU_USAGE s; GPU_USED_MEM := GPU_USED_MEM s;
       GPU_TOTAL_MEM := GPU_TOTAL_MEM s; slept := slept s ++ [secs] |}).

(** [[gpu.utilization / 100.0 for gpu in gpu_stats.gpus]]; [None / 100.0]
    raises [TypeError]. *)
Fixpoint usage_of (gpus : list gpu_stat) : result (list float) :=
  match gpus with
  | [] => Ret []
  | gpu :: rest =>
      match utilization gpu with
      | None => Exc TypeError
      | Some u =>
          match usage_of rest with
          | Ret l => Ret (int_div_float u 100 :: l)
          | Exc e => Exc e
          end
      end
  end.

(** The two appends that open a turn. *)
Definition append_cpu_mem (rd : reading) (s : state) : state :=
  let cpu := PrimFloat.div (cpu_percent rd) 100 in
  let mem := int_div_int (memory_usage_used rd) (1024 ^ 3) in
  {| CPU_USAGE := CPU_USAGE s ++ [cpu];
     MEM_USAGE := MEM_USAGE s ++ [mem];
     GPU_USAGE := GPU_USAGE s;
     GPU_USED_MEM := GPU_USED_MEM s;
     GPU_TOTAL_MEM := GPU_TOTAL_MEM s;
     slept := slept s |}.

(** The three appends of the GPU part. *)
Definition append_gpu (usage : list float) (mem_usage mem_total : list Z)
  (s : state) : state :=
  {| CPU_USAGE := CPU_USAGE s;
     MEM_USAGE := MEM_USAGE s;
     GPU_USAGE := GPU_USAGE s ++ [usage];
     GPU_USED_MEM := GPU_USED_MEM s ++ [mem_usage];
     GPU_TOTAL_MEM := GPU_TOTAL_MEM s ++ [mem_total];
     slept := slept s |}.

(** The body of [if to_collect_gpu_stats:]. *)
Definition collect_gpu (rd : reading) : M state unit :=
  gpu_stats <- lift (new_query rd) ;;
  usage <- lift (usage_of gpu_stats) ;;
  let mem_usage := map memory_used gpu_stats in
  let mem_total := map memory_total gpu_stats in
  modify (append_gpu usage mem_usage mem_total).

(** [for metrics in metrics_dict.values(): ...], in the order of the
    dictionary; a list trimmed before an exception stays trimmed. *)
Definition trim_all (max_size : Z) : M state unit :=
  s <- get_state ;;
  l <- lift (trim max_size (CPU_USAGE s)) ;;
  modify (fun s =>
    {| CPU_USAGE := l; MEM_USAGE := MEM_USAGE s; GPU_USAGE := GPU_USAGE s;
       GPU_USED_MEM := GPU_USED_MEM s; GPU_TOTAL_MEM := GPU_TOTAL_MEM s;
       slept := slept s |}) ;;;
  l <- lift (trim max_size (MEM_USAGE s)) ;;
  modify (fun s =>
    {| CPU_USAGE := CPU_USAGE s; MEM_USAGE := l; GPU_USAGE := GPU_USAGE s;
       GPU_USED_MEM := GPU_USED_MEM s; GPU_TOTAL_MEM := GPU_TOTAL_MEM s;
       slept := slept s |}) ;;;
  l <- lift (trim max_size (GPU_USAGE s)) ;;
  modify (fun s =>
    {| CPU_USAGE := CPU_USAGE s; MEM_USAGE := MEM_USAGE s; GPU_USAGE := l;
       GPU_USED_MEM := GPU_USED_MEM s; GPU_TOTAL_MEM := GPU_TOTAL_MEM s;
       slept := slept s |}) ;;;
  l <- lift (trim max_size (GPU_USED_MEM s)) ;;
  modify (fun s =>
    {| CPU_USAGE := CPU_USAGE s; MEM_USAGE := MEM_USAGE s;
       GPU_USAGE := GPU_USAGE s; GPU_USED_MEM := l;
       GPU_TOTAL_MEM := GPU_TOTAL_MEM s; slept := slept s |}) ;;;
  l <- lift (trim max_size (GPU_TOTAL_MEM s)) ;;
  modify (fun s =>
    {| CPU_USAGE := CPU_USAGE s; MEM_USAGE := MEM_USAGE s;
       GPU_USAGE := GPU_USAGE s; GPU_USED_MEM := GPU_USED_MEM s;
       GPU_TOTAL_MEM := l; slept := slept s |}).

(** The body of the [while] loop. *)
Definition turn (to_collect_gpu_stats : bool) (max_size : Z)
  (interval_ms : float) (rd : reading) : M state unit :=
  modify (append_cpu_mem rd) ;;;
  (if to_collect_gpu_stats then collect_gpu rd else ret tt) ;;;
  trim_all max_size ;;;
  let lat := PrimFloat.sub (t1 rd) (t0 rd) in
  let sleep_time := PrimFloat.sub (PrimFloat.div interval_ms 1000) lat in
  if PrimFloat.ltb sleep_time 0 then time_sleep sleep_time else ret tt.

(** The loop, over the readings of its turns; it has not ended when the
    readings are used up. *)
Fixpoint monitor_loop (to_collect_gpu_stats : bool) (max_size : Z)
  (interval_ms : float) (readings : list reading) : M state unit :=
  match readings with
  | [] => fun _ => OutOfFuel
  | rd :: rest =>
      if stop_flag rd then ret tt
      else
        turn to_collect_gpu_stats max_size interval_ms rd ;;;
        monitor_loop to_collect_gpu_stats max_size interval_ms rest
  end.

(** [_monitor_fn], after the probing of [gpustat]: the loop inside
    [try: ... except Exception: pass]. *)
Definition _monitor_fn (to_collect_gpu_stats : bool) (max_size : Z)
  (interval_ms : float) (readings : list reading) : M state unit :=
  fun s =>
    match monitor_loop to_collect_gpu_stats max_size interval_ms readings s
    with
    | Raise _ s' => Ok tt s'
    | r => r
    end.

End Monitor.

(** A turn takes longer than the interval. *)
Definition overrun (interval_ms : float) (rd : reading) : bool :=
  PrimFloat.ltb
    (PrimFloat.sub (PrimFloat.div interval_ms 1000)
                   (PrimFloat.sub (t1 rd) (t0 rd))) 0.

(** The GPU samples of a turn. *)
Definition gpu_sample : Type := list float * list Z * list Z.

Section MonitorSpec.
Variable int_div_int : Z -> Z -> float.
Variable int_div_float : Z -> float -> float.
Variable to_collect_gpu_stats : bool.
Variable max_size : Z.
Variable interval_ms : float.

(** What the GPU part of a turn comes to: the samples it appends, none
    when GPU statistics are not collected, or the exception of the query
    or of a utilization that is [None]. *)
Definition gpu_part (rd : reading) : result (option gpu_sample) :=
  if to_collect_gpu_stats then
    match new_query rd with
    | Exc e => Exc e
    | Ret gpus =>
        match usage_of int_div_float gpus with
        | Exc e => Exc e
        | Ret usage =>
            Ret (Some (usage, map memory_used gpus, map memory_total gpus))
        end
    end
  else Ret None.

(** A list without its oldest sample when it holds more than [max_size]
    of them. *)
Definition trimmed {A} (metrics : list A) : list A :=
  if (Z.of_nat (List.length metrics) >? max_size)%Z then tl metrics
  else metrics.

(** The state after all the appends of a turn. *)
Definition appended (rd : reading) (g : option gpu_sample) (s : state)
  : state :=
  match g with
  | None => append_cpu_mem int_div_int rd s
  | Some (usage, mem_usage, mem_total) =>
      append_gpu usage mem_usage mem_total (append_cpu_mem int_div_int rd s)
  end.

(** The state after the appends and the trimming of a turn. *)
Definition sampled (rd : reading) (g : option gpu_sample) (s : state)
  : state :=
  let s1 := appended rd g s in
  {| CPU_USAGE := trimmed (CPU_USAGE s1);
     MEM_USAGE := trimmed (MEM_USAGE s1);
     GPU_USAGE := trimmed (GPU_USAGE s1);
     GPU_USED_MEM := trimmed (GPU_USED_MEM s1);
     GPU_TOTAL_MEM := trimmed (GPU_TOTAL_MEM s1);
     slept := slept s1 |}.

(** No list holds more than [max_size] samples. *)
Definition within (s : state) : Prop :=
  (Z.of_nat (List.length (CPU_USAGE s)) <= max_size)%Z
  /\ (Z.of_nat (List.length (MEM_USAGE s)) <= max_size)%Z
  /\ (Z.of_nat (List.length (GPU_USAGE s)) <= max_size)%Z
  /\ (Z.of_nat (List.length (GPU_USED_MEM s)) <= max_size)%Z
  /\ (Z.of_nat (List.length (GPU_TOTAL_MEM s)) <= max_size)%Z.

(** The newest [max_size] elements of a list. *)
Definition window {A} (l : list A) : list A :=
  skipn (List.length l - Z.to_nat max_size) l.

(** The turns of a run that reach the trimming, each with its GPU
    samples: those before the stop flag is seen set, up to and including
    a turn that takes longer than the interval, and short of a turn
    whose GPU part raises. *)
Fixpoint completed (readings : list reading)
  : list (reading * option gpu_sample) :=
  match readings with
  | [] => []
  | rd :: rest =>
      if stop_flag rd then []
      else match gpu_part rd with
           | Exc _ => []
           | Ret g =>
               (rd, g) :: (if overrun interval_ms rd then []
                           else completed rest)
           end
  end.

(** The turn whose GPU part raises, when the run ends in one. *)
Fixpoint cut_short (readings : list reading) : option reading :=
  match readings with
  | [] => None
  | rd :: rest =>
      if stop_flag rd then None
      else match gpu_part rd with
           | Exc _ => Some rd
           | Ret _ => if overrun interval_ms rd then None
                      else cut_short rest
           end
  end.

(** The function returns within the readings: the stop flag is seen
    set, or a turn raises in its GPU part or takes longer than the
    interval. *)
Fixpoint ends (readings : list reading) : bool :=
  match readings with
  | [] => false
  | rd :: rest =>
      if stop_flag rd then true
      else match gpu_part rd with
           | Exc _ => true
           | Ret _ => if overrun interval_ms rd then true else ends rest
           end
  end.

Definition usage_sample (t : reading * option gpu_sample)
  : list (list float) :=
  match snd t with Some (usage, _, _) => [usage] | None => [] end.

Definition used_mem_sample (t : reading * option gpu_sample)
  : list (list Z) :=
  match snd t with Some (_, mem_usage, _) => [mem_usage] | None => [] end.

Definition total_mem_sample (t : reading * option gpu_sample)
  : list (list Z) :=
  match snd t with Some (_, _, mem_total) => [mem_total] | None => [] end.

(** The lists after the given turns have run to their end: each list is
    the window over what it held followed by the samples of the turns,
    in order. *)
Definition recorded (turns : list (reading * option gpu_sample))
  (s : state) : state :=
  {| CPU_USAGE :=
       window (CPU_USAGE s
               ++ map (fun t => PrimFloat.div (cpu_percent (fst t)) 100)
                      turns);
     MEM_USAGE :=
       window (MEM_USAGE s
               ++ map (fun t => int_div_int (memory_usage_used (fst t))
                                            (1024 ^ 3)) turns);
     GPU_USAGE := window (GPU_USAGE s ++ flat_map usage_sample turns);
     GPU_USED_MEM :=
       window (GPU_USED_MEM s ++ flat_map used_mem_sample turns);
     GPU_TOTAL_MEM :=
       window (GPU_TOTAL_MEM s ++ flat_map total_mem_sample turns);
     slept := slept s |}.

(** The state in which the function returns: the lists of the turns
    that ran to their end, and on top of them the two samples, not
    trimmed, of a turn cut short in its GPU part. *)
Definition final (readings : list reading) (s : state) : state :=
  match cut_short readings with
  | None => recorded (completed readings) s
  | Some rd => append_cpu_mem int_div_int rd (recorded (completed readings) s)
  end.

End MonitorSpec.

End Metrics.

(** Readings for running the monitoring loop with an interval of one
    second: a turn of half a second, a turn of two seconds, and a turn
    whose GPU does not report its utilization. *)
Module MetricsSample.

Definition gpu : Metrics.gpu_stat :=
  {| Metrics.utilization := Some 50%Z; Metrics.memory_used := 1%Z;
     Metrics.memory_total := 8%Z |}.

Definition quick : Metrics.reading :=
  {| Metrics.stop_flag := false; Metrics.t0 := 10%float;
     Metrics.cpu_percent := 50%float; Metrics.memory_usage_used := 0%Z;
     Metrics.new_query := Ret [gpu]; Metrics.t1 := 10.5%float |}.

Definition slow : Metrics.reading :=
  {| Metrics.stop_flag := false; Metrics.t0 := 10%float;
     Metrics.cpu_percent := 100%float; Metrics.memory_usage_used := 0%Z;
     Metrics.new_query := Ret [gpu]; Metrics.t1 := 12%float |}.

Definition silent : Metrics.reading :=
  {| Metrics.stop_flag := false; Metrics.t0 := 10%float;
     Metrics.cpu_percent := 25%float; Metrics.memory_usage_used := 0%Z;
     Metrics.new_query :=
       Ret [{| Metrics.utilization := None; Metrics.memory_used := 1%Z;
               Metrics.memory_total := 8%Z |}];
     Metrics.t1 := 10.5%float |}.

Definition empty : Metrics.state :=
  {| Metrics.CPU_USAGE := []; Metrics.MEM_USAGE := [];
     Metrics.GPU_USAGE := []; Metrics.GPU_USED_MEM := [];
     Metrics.GPU_TOTAL_MEM := []; Metrics.slept := [] |}.

Definition int_div_int (a b : Z) : float :=
  PrimFloat.div (PrimFloat.of_uint63 (Uint63.of_Z a))
                (PrimFloat.of_uint63 (Uint63.of_Z b)).

Definition int_div_float (a : Z) (b : float) : float :=
  PrimFloat.div (PrimFloat.of_uint63 (Uint63.of_Z a)) b.

End MetricsSample.

(* ------------------------------------------------------------------ *)
(** ** [ModelStream.__iter__] *)

Module Iteration.

(** An exception object: an instance of [queue.Empty], or another one. *)
Inductive BaseException : Type :=
| queue_Empty
| Other (e : exn).

(** [isinstance(ex, queue.Empty)] *)
Definition is_queue_Empty (ex : BaseException) : bool :=
  match ex with queue_Empty => true | Other _ => false end.

Section Iter.
(** The [Model] objects that are put on the queue. *)
Variable Event : Type.

(** What is put on the queue [events]: [None], an exception, or a
    model. *)
Inductive item : Type :=
| ItemNone
| ItemExc (ex : BaseException)
| ItemEvent (m : Event).

(** The call [self._inner_run(self.model)], as [target] sees it: the
    models that it puts on [events], and whether it returns or raises. *)
Record inner_run : Type := {
  put_events : list Event;
  raised : option BaseException
}.

(** [target]: what the worker has put on [events] when it exits. *)
Definition target (run : inner_run) : list item :=
  map ItemEvent (put_events run)
  ++ [match raised run with
      | None => ItemNone
      | Some ex => ItemExc ex
      end].

(** What one turn of the consumer's loop reads: what
    [events.get(timeout=...)] comes to, an item or [queue.Empty] after
    the timeout, and what [thread.is_alive()] answers when the turn asks
    it. *)
Record turn : Type := {
  got : option item;
  is_alive : bool
}.

(** How the iteration ends: the loop is left by [break] and the thread
    joined, an exception leaves the generator, or the turns are used
    up. *)
Inductive ending : Type :=
| Finished
| Raised (ex : BaseException)
| Polling.

(** The loop of [__iter__], over the readings of its turns: the models
    yielded and the way it ends. [raise event] stands inside the [try]
    whose handler is [except queue.Empty]. *)
Fixpoint consume (turns : list turn) : list Event * ending :=
  match turns with
  | [] => ([], Polling)
  | t :: rest =>
      let except_queue_Empty :=
        if negb (is_alive t) then ([], Finished) else consume rest in
      match got t with
      | Some ItemNone => ([], Finished)
      | Some (ItemExc ex) =>
          if is_queue_Empty ex then except_queue_Empty
          else ([], Raised ex)
      | Some (ItemEvent m) =>
          let '(yielded, e) := consume rest in (m :: yielded, e)
      | None => except_queue_Empty
      end
  end.

(** The turns of a consumer that gets the items of a queue one by one
    while the worker is alive, and then times out with the worker
    gone. *)
Definition drained (queue : list item) : list turn :=
  map (fun i => {| got := Some i; is_alive := true |}) queue
  ++ [{| got := None; is_alive := false |}].

(** The items that the turns got, in order. *)
Definition gets (turns : list turn) : list item :=
  flat_map (fun t => match got t with Some i => [i] | None => [] end)
           turns.

End Iter.
End Iteration.

(* ================================================================== *)
(** * Lemmas on dictionaries *)

Lemma dget_dset_eq {V} (d : dict V) k v : dget (dset d k v) k = Some v.
Proof.
  unfold dget, dset.
  induction d as [|[k' v'] d IH]; simpl.
  - now rewrite String.eqb_refl.
  - destruct (String.eqb k k') eqn:E; simpl; rewrite E; auto.
Qed.

Lemma dget_dset_neq {V} (d : dict V) k k' v :
  k <> k' -> dget (dset d k v) k' = dget d k'.
Proof.
  unfold dget, dset. intros Hne.
  induction d as [|[k0 v0] d IH]; simpl.
  - destruct (String.eqb k' k) eqn:E; auto.
    apply String.eqb_eq in E. congruence.
  - destruct (String.eqb k k0) eqn:E; simpl.
    + apply String.eqb_eq in E. subst k0.
      destruct (String.eqb k' k) eqn:E'; auto.
      apply String.eqb_eq in E'. congruence.
    + destruct (String.eqb k' k0); auto.
Qed.

Lemma dset_dset {V} (d : dict V) k v v' :
  dset (dset d k v) k v' = dset d k v'.
Proof.
  unfold dset.
  induction d as [|[k0 v0] d IH]; simpl.
  - now rewrite String.eqb_refl.
  - destruct (String.eqb k k0) eqn:E; simpl; rewrite E; auto.
    now rewrite IH.
Qed.

Lemma dget_dset {V} (d : dict V) k k' v :
  dget (dset d k v) k' = if String.eqb k' k then Some v else dget d k'.
Proof.
  destruct (String.eqb k' k) eqn:E.
  - apply String.eqb_eq in E. subst. apply dget_dset_eq.
  - apply String.eqb_neq in E. apply dget_dset_neq. congruence.
Qed.

Lemma not_a_list_spec {A} (d : dict (capture A)) k :
  not_a_list d k =
  match dget d k with Some (Multi _) => false | _ => true end.
Proof.
  unfold not_a_list, dcontains, dget, PyDict.contains.
  destruct (PyDict.get String.eqb d k) as [[|]|]; reflexivity.
Qed.

(* ================================================================== *)
(** * The progress reducer *)

Lemma shape_capture_write {A B} (c : option (capture A))
  (c' : option (capture B)) m x y :
  option_map shape c = option_map shape c' ->
  shape (capture_write c m x) = shape (capture_write c' m y).
Proof.
  destruct m, c as [[|l]|], c' as [[|l']|]; simpl; try congruence.
  intros H. injection H as H. now rewrite !length_app, H.
Qed.

Lemma hp_write_in_sync km data lp s :
  in_sync (hp_capture_groups s) (hp_capture_group_log_probs s) ->
  in_sync (hp_capture_groups (hp_write km data lp s))
          (hp_capture_group_log_probs (hp_write km data lp s)).
Proof.
  intros H k. simpl. rewrite !dget_dset.
  destruct (String.eqb k (fst km)); [|apply H].
  simpl. f_equal. apply shape_capture_write, H.
Qed.

Lemma hp_step_in_sync s j :
  in_sync (hp_capture_groups s) (hp_capture_group_log_probs s) ->
  in_sync (hp_capture_groups (hp_step s j))
          (hp_capture_group_log_probs (hp_step s j)).
Proof.
  intros H. destruct j; simpl; auto.
  now apply hp_write_in_sync.
Qed.

(** On locals whose dictionaries agree, the loop body raises nothing and
    does what the capture rule says. *)
Lemma handle_event_step j s :
  in_sync (hp_capture_groups s) (hp_capture_group_log_probs s) ->
  handle_event j s = Ok tt (hp_step s j).
Proof.
  intros Hs. destruct j as [cname data lp| |]; try reflexivity.
  unfold handle_event, hp_step, event_key.
  destruct (startswith cname LIST_APPEND); [|reflexivity].
  generalize (str_from 14 cname) as k. intros k.
  pose proof (Hs k) as Hk.
  unfold hp_write, bind, modify, get_state, lift, list_append; simpl.
  rewrite not_a_list_spec.
  destruct (dget (hp_capture_groups s) k) as [[a|l]|] eqn:E;
    destruct (dget (hp_capture_group_log_probs s) k) as [[a'|l']|] eqn:E';
    simpl in Hk; try discriminate; simpl;
    repeat (rewrite ?dget_dset_eq, ?E, ?E', ?dset_dset; simpl);
    reflexivity.
Qed.

Lemma for_each_handle_event progress : forall s,
  in_sync (hp_capture_groups s) (hp_capture_group_log_probs s) ->
  for_each progress handle_event s = Ok tt (fold_left hp_step progress s).
Proof.
  induction progress as [|j r IH]; intros s Hs; simpl.
  - reflexivity.
  - unfold bind. rewrite handle_event_step by assumption.
    apply IH, hp_step_in_sync, Hs.
Qed.

Lemma in_sync_nil {A B} : in_sync (@nil (string * capture A))
                                  (@nil (string * capture B)).
Proof. intros k. reflexivity. Qed.

(** [_handle_progress] always returns, with the response of the folded
    locals. *)
Lemma handle_progress_eq {S} progress (s : S) :
  _handle_progress progress s =
  Ok (hp_response (fold_left hp_step progress hp_init)) s.
Proof.
  unfold _handle_progress, call, handle_progress_body, bind.
  rewrite for_each_handle_event by apply in_sync_nil.
  reflexivity.
Qed.

Lemma fold_hp_step_text progress : forall s,
  let s' := fold_left hp_step progress s in
  hp_new_bytes s' =
    hp_new_bytes s ++ List.concat (map (fun t => fst (fst t)) (text_fragments progress))
  /\ hp_new_token_count s' =
    (hp_new_token_count s
     + zsum (map (fun t => snd (fst t)) (text_fragments progress)))%Z
  /\ hp_new_bytes_prob s' =
    fold_left PrimFloat.add (map snd (text_fragments progress))
              (hp_new_bytes_prob s)
  /\ hp_num_text_entries s' =
    hp_num_text_entries s + List.length (text_fragments progress).
Proof.
  induction progress as [|j r IH]; intros s; simpl.
  - rewrite app_nil_r, Z.add_0_r, Nat.add_0_r. auto.
  - destruct (IH (hp_step s j)) as (Hb & Hc & Hp & Hn).
    rewrite Hb, Hc, Hp, Hn.
    destruct j as [cname data lp|data n lp g|tag]; simpl; auto.
    rewrite <- app_assoc, Z.add_assoc, Nat.add_succ_r. auto.
Qed.

Lemma fold_hp_step_captures k progress : forall s,
  let s' := fold_left hp_step progress s in
  dget (hp_capture_groups s') k =
    replay (values_of (writes k progress)) (dget (hp_capture_groups s) k)
  /\ dget (hp_capture_group_log_probs s') k =
    replay (log_probs_of (writes k progress))
           (dget (hp_capture_group_log_probs s) k).
Proof.
  induction progress as [|j r IH]; intros s; simpl; [auto|].
  destruct (IH (hp_step s j)) as (Hv & Hl). rewrite Hv, Hl. clear IH Hv Hl.
  destruct j as [cname data lp|data n lp g|tag]; simpl; auto.
  destruct (event_key cname) as [k' m]. simpl. rewrite !dget_dset.
  destruct (String.eqb k k') eqn:E; simpl; auto.
  apply String.eqb_eq in E. subst k'. auto.
Qed.

Lemma fold_hp_step_in_sync progress : forall s,
  in_sync (hp_capture_groups s) (hp_capture_group_log_probs s) ->
  in_sync (hp_capture_groups (fold_left hp_step progress s))
          (hp_capture_group_log_probs (fold_left hp_step progress s)).
Proof.
  induction progress as [|j r IH]; intros s Hs; simpl; auto.
  apply IH, hp_step_in_sync, Hs.
Qed.

(* ================================================================== *)
(** * Merging a step's captures into the byte parser *)

Lemma write2_in_sync {A} k m (x : A) lp c :
  in_sync (fst c) (snd c) ->
  in_sync (fst (write2 k m x lp c)) (snd (write2 k m x lp c)).
Proof.
  intros H k'. simpl. rewrite !dget_dset.
  destruct (String.eqb k' k); [|apply H].
  simpl. f_equal. apply shape_capture_write, H.
Qed.

Lemma write_all_in_sync {A} k (ws : list (write_mode * (A * float))) :
  forall c, in_sync (fst c) (snd c) ->
  in_sync (fst (write_all k ws c)) (snd (write_all k ws c)).
Proof.
  unfold write_all.
  induction ws as [|w ws IH]; intros c H; simpl; auto.
  apply IH, write2_in_sync, H.
Qed.

Lemma write_all_get {A} k (ws : list (write_mode * (A * float))) k' :
  forall c,
  dget (fst (write_all k ws c)) k' =
    (if String.eqb k' k then replay (values_of ws) (dget (fst c) k')
     else dget (fst c) k')
  /\ dget (snd (write_all k ws c)) k' =
    (if String.eqb k' k then replay (log_probs_of ws) (dget (snd c) k')
     else dget (snd c) k').
Proof.
  unfold write_all.
  induction ws as [|w ws IH]; intros c; simpl.
  - destruct (String.eqb k' k); auto.
  - destruct (IH (write2 k (fst w) (fst (snd w)) (snd (snd w)) c)) as (Hv & Hl).
    rewrite Hv, Hl. simpl. rewrite !dget_dset.
    destruct (String.eqb k' k) eqn:E; auto.
    apply String.eqb_eq in E. subst k'. auto.
Qed.

Section MergeCaptures.
Variable Interp : Type.
Implicit Types self : ByteParser Interp.

Lemma bp_caps_set_caps c self : bp_caps (set_caps c self) = c.
Proof. destruct c. reflexivity. Qed.

Lemma set_caps_set_caps c c' self :
  set_caps c' (set_caps c self) = set_caps c' self.
Proof. reflexivity. Qed.

Lemma set_caps_bp_caps self : set_caps (bp_caps self) self = self.
Proof. destruct self. reflexivity. Qed.

Lemma update_capture_item_eq response k i v lp self :
  in_sync (_variables self) (_variables_log_probs self) ->
  subscript2 (capture_group_log_probs response) k i = Ret lp ->
  update_capture_item response k (i, v) self =
  Ok tt (set_caps (write2 k AppendMode (try_decode v) lp (bp_caps self)) self).
Proof.
  intros Hs Hlp. pose proof (Hs k) as Hk.
  unfold update_capture_item, bind, modify, get_state, lift, list_append,
    the_list, set_caps, write2, bp_caps; simpl.
  rewrite not_a_list_spec.
  destruct (dget (_variables self) k) as [[a|l]|] eqn:E;
    destruct (dget (_variables_log_probs self) k) as [[a'|l']|] eqn:E';
    simpl in Hk; try discriminate; simpl;
    repeat (rewrite ?dget_dset_eq, ?E, ?E', ?dset_dset, ?Hlp; simpl);
    reflexivity.
Qed.

Lemma update_capture_list response k : forall v pre suf self,
  dget (capture_group_log_probs response) k = Some (Multi (pre ++ suf)) ->
  List.length suf = List.length v ->
  in_sync (_variables self) (_variables_log_probs self) ->
  for_each (combine (seq (List.length pre) (List.length v)) v)
           (update_capture_item response k) self =
  Ok tt (set_caps
           (write_all k
              (map (fun vp => (AppendMode, (try_decode (fst vp), snd vp)))
                   (combine v suf))
              (bp_caps self)) self).
Proof.
  induction v as [|x v IH]; intros pre suf self Hd Hlen Hs.
  - simpl. now rewrite set_caps_bp_caps.
  - destruct suf as [|p suf]; [discriminate|].
    cbn [List.length seq combine for_each map]. unfold bind at 1.
    rewrite (@update_capture_item_eq response k (List.length pre) x p self Hs).
    2:{ unfold subscript2. rewrite Hd.
        rewrite nth_error_app2, Nat.sub_diag by lia. reflexivity. }
    replace (S (List.length pre)) with (List.length (pre ++ [p]))
      by (rewrite length_app; simpl; lia).
    rewrite (IH (pre ++ [p]) suf).
    + now rewrite bp_caps_set_caps, set_caps_set_caps.
    + now rewrite <- app_assoc.
    + simpl in Hlen. lia.
    + pose proof (@write2_in_sync pytext k AppendMode (try_decode x) p
                    (bp_caps self) Hs) as H.
      exact H.
Qed.

End MergeCaptures.

Lemma dget_In_keys {V} (d : dict V) k :
  In k (PyDict.keys d) <-> dget d k <> None.
Proof.
  unfold dget, PyDict.keys.
  induction d as [|[k' v] d IH]; simpl.
  - split; [tauto|congruence].
  - destruct (String.eqb k k') eqn:E.
    + apply String.eqb_eq in E. subst. split; [congruence|auto].
    + apply String.eqb_neq in E. rewrite <- IH.
      split; [intros [H|H]; [congruence|auto]|auto].
Qed.

Lemma keys_dset {V} (d : dict V) k v :
  PyDict.keys (dset d k v) =
  if dcontains d k then PyDict.keys d else PyDict.keys d ++ [k].
Proof.
  unfold dset, dcontains, PyDict.contains, PyDict.keys.
  induction d as [|[k' v'] d IH]; simpl; auto.
  destruct (String.eqb k k') eqn:E; simpl; auto.
  rewrite IH. destruct (PyDict.get String.eqb d k); reflexivity.
Qed.

Lemma NoDup_keys_dset {V} (d : dict V) k v :
  NoDup (PyDict.keys d) -> NoDup (PyDict.keys (dset d k v)).
Proof.
  intros H. rewrite keys_dset.
  destruct (dcontains d k) eqn:E; auto.
  apply NoDup_app; auto.
  - repeat constructor. simpl. tauto.
  - intros x Hx [Hk|[]]. subst x.
    apply dget_In_keys in Hx. unfold dcontains, PyDict.contains in E.
    unfold dget in Hx. destruct (PyDict.get String.eqb d k); congruence.
Qed.

Lemma fold_hp_step_NoDup progress : forall s,
  NoDup (PyDict.keys (hp_capture_groups s)) ->
  NoDup (PyDict.keys (hp_capture_groups (fold_left hp_step progress s))).
Proof.
  induction progress as [|j r IH]; intros s Hs; simpl; auto.
  apply IH. destruct j; simpl; auto. now apply NoDup_keys_dset.
Qed.

Lemma entry_pairs_values response k :
  in_sync (capture_groups response) (capture_group_log_probs response) ->
  values_of (entry_pairs response k) =
    entry_writes (option_map (capture_map try_decode)
                             (dget (capture_groups response) k))
  /\ log_probs_of (entry_pairs response k) =
    entry_writes (dget (capture_group_log_probs response) k).
Proof.
  intros H. specialize (H k). unfold entry_pairs, values_of, log_probs_of.
  destruct (dget (capture_groups response) k) as [[v|vs]|];
    destruct (dget (capture_group_log_probs response) k) as [[p|ps]|];
    simpl in *; try discriminate; auto.
  injection H as H. rewrite !map_map. simpl. split.
  - rewrite <- (map_map fst (fun x => (AppendMode, try_decode x))).
    rewrite <- (map_map try_decode (fun x => (AppendMode, x))).
    f_equal. f_equal. clear -H. revert ps H.
    induction vs; destruct ps; simpl; intros; try discriminate; f_equal; auto.
  - rewrite <- (map_map snd (fun x => (AppendMode, x))).
    f_equal. clear -H. revert ps H.
    induction vs; destruct ps; simpl; intros; try discriminate; f_equal; auto.
Qed.

Lemma uc_keys_in_sync response keys : forall c,
  in_sync (fst c) (snd c) ->
  in_sync (fst (uc_keys response keys c)) (snd (uc_keys response keys c)).
Proof.
  unfold uc_keys.
  induction keys as [|k keys IH]; intros c H; simpl; auto.
  apply IH, write_all_in_sync, H.
Qed.

Lemma uc_keys_get response keys k' : forall c,
  NoDup keys ->
  dget (fst (uc_keys response keys c)) k' =
    (if existsb (String.eqb k') keys
     then replay (values_of (entry_pairs response k')) (dget (fst c) k')
     else dget (fst c) k')
  /\ dget (snd (uc_keys response keys c)) k' =
    (if existsb (String.eqb k') keys
     then replay (log_probs_of (entry_pairs response k')) (dget (snd c) k')
     else dget (snd c) k').
Proof.
  unfold uc_keys.
  induction keys as [|k keys IH]; intros c Hnd; simpl; auto.
  inversion Hnd as [|? ? Hnotin Hnd']; subst.
  destruct (IH (write_all k (entry_pairs response k) c) Hnd') as (Hv & Hl).
  rewrite Hv, Hl. clear Hv Hl IH.
  destruct (write_all_get k (entry_pairs response k) k' c) as (Wv & Wl).
  rewrite Wv, Wl.
  destruct (String.eqb k' k) eqn:E; simpl; auto.
  apply String.eqb_eq in E. subst k'.
  destruct (existsb (String.eqb k) keys) eqn:Ex; auto.
  apply existsb_exists in Ex. destruct Ex as (x & Hx & Hkx).
  apply String.eqb_eq in Hkx. subst x. contradiction.
Qed.

Lemma uc_keys_get_all response k' c :
  NoDup (PyDict.keys (capture_groups response)) ->
  dget (fst (uc_keys response (PyDict.keys (capture_groups response)) c)) k' =
    replay (values_of (entry_pairs response k')) (dget (fst c) k')
  /\ dget (snd (uc_keys response (PyDict.keys (capture_groups response)) c)) k' =
    replay (log_probs_of (entry_pairs response k')) (dget (snd c) k').
Proof.
  intros Hnd.
  destruct (uc_keys_get response k' c Hnd) as (Hv & Hl). rewrite Hv, Hl.
  destruct (existsb (String.eqb k') (PyDict.keys (capture_groups response)))
    eqn:Ex; auto.
  assert (dget (capture_groups response) k' = None) as Hn.
  { destruct (dget (capture_groups response) k') eqn:E; auto.
    assert (In k' (PyDict.keys (capture_groups response))) as Hin
      by (apply dget_In_keys; congruence).
    assert (existsb (String.eqb k') (PyDict.keys (capture_groups response))
            = true) as Ht
      by (apply existsb_exists; exists k'; split; auto using String.eqb_refl).
    congruence. }
  unfold entry_pairs. rewrite Hn. auto.
Qed.

Lemma replay_map {A B} (f : A -> B) (ws : list (write_mode * A)) : forall c,
  replay (map (fun w => (fst w, f (snd w))) ws) (option_map (capture_map f) c)
  = option_map (capture_map f) (replay ws c).
Proof.
  unfold replay.
  induction ws as [|[m x] ws IH]; intros c; simpl; auto.
  rewrite <- IH. f_equal.
  destruct m, c as [[a|l]|]; simpl; auto.
  now rewrite map_app.
Qed.

Section MergeSteps.
Variable Interp : Type.
Implicit Types self : ByteParser Interp.

Lemma update_capture_key_eq response k self :
  in_sync (capture_groups response) (capture_group_log_probs response) ->
  in_sync (_variables self) (_variables_log_probs self) ->
  dget (capture_groups response) k <> None ->
  update_capture_key response k self =
  Ok tt (set_caps (write_all k (entry_pairs response k) (bp_caps self)) self).
Proof.
  intros Hr Hs Hne. pose proof (Hr k) as Hrk.
  unfold update_capture_key, bind at 1, subscript at 1, entry_pairs.
  destruct (dget (capture_groups response) k) as [[v|vs]|] eqn:Ecg;
    [| |congruence];
    destruct (dget (capture_group_log_probs response) k)
      as [[p|ps]|] eqn:Elp; simpl in Hrk; try discriminate.
  - unfold lift, ret, bind, modify, subscript. rewrite Elp. reflexivity.
  - injection Hrk as Hlen. unfold lift, ret, enumerate.
    apply (@update_capture_list Interp response k vs [] ps self); auto.
Qed.

Lemma update_capture_keys response keys : forall self,
  in_sync (capture_groups response) (capture_group_log_probs response) ->
  in_sync (_variables self) (_variables_log_probs self) ->
  (forall k, In k keys -> dget (capture_groups response) k <> None) ->
  for_each keys (update_capture_key response) self =
  Ok tt (set_caps (uc_keys response keys (bp_caps self)) self).
Proof.
  induction keys as [|k keys IH]; intros self Hr Hs Hk.
  - simpl. now rewrite set_caps_bp_caps.
  - cbn [for_each]. unfold bind at 1.
    rewrite update_capture_key_eq; auto.
    2:{ apply Hk. left. reflexivity. }
    rewrite IH; auto.
    + rewrite bp_caps_set_caps, set_caps_set_caps. reflexivity.
    + pose proof (@write_all_in_sync pytext k (entry_pairs response k)
                    (bp_caps self) Hs) as H.
      destruct (write_all k (entry_pairs response k) (bp_caps self)).
      exact H.
    + intros k0 Hin. apply Hk. right. exact Hin.
Qed.

Lemma update_capture_eq response self :
  in_sync (capture_groups response) (capture_group_log_probs response) ->
  in_sync (_variables self) (_variables_log_probs self) ->
  _update_capture response self =
  Ok tt (set_caps
           (uc_keys response (PyDict.keys (capture_groups response))
                    (bp_caps self)) self).
Proof.
  intros Hr Hs. unfold _update_capture.
  apply update_capture_keys; auto.
  intros k Hin. now apply dget_In_keys.
Qed.

(** One step of a parse, as far as captures go. *)
Lemma merge_step progress self :
  in_sync (_variables self) (_variables_log_probs self) ->
  exists self',
    (response <- _handle_progress progress ;; _update_capture response) self
      = Ok tt self'
    /\ in_sync (_variables self') (_variables_log_probs self')
    /\ forall k,
         dget (_variables self') k =
           replay (entry_writes
                     (replay (map (fun w => (fst w, try_decode (fst (snd w))))
                                  (writes k progress)) None))
                  (dget (_variables self) k)
         /\ dget (_variables_log_probs self') k =
           replay (entry_writes
                     (replay (map (fun w => (fst w, snd (snd w)))
                                  (writes k progress)) None))
                  (dget (_variables_log_probs self) k).
Proof.
  intros Hs. unfold bind. rewrite handle_progress_eq.
  set (s := fold_left hp_step progress hp_init).
  assert (in_sync (hp_capture_groups s) (hp_capture_group_log_probs s)) as Hr
    by (apply fold_hp_step_in_sync, in_sync_nil).
  assert (NoDup (PyDict.keys (hp_capture_groups s))) as Hnd
    by (apply fold_hp_step_NoDup; constructor).
  rewrite update_capture_eq by assumption.
  eexists. split; [reflexivity|]. split.
  - pose proof (@uc_keys_in_sync (hp_response s)
      (PyDict.keys (capture_groups (hp_response s))) (bp_caps self) Hs) as H.
    destruct (uc_keys (hp_response s)
                (PyDict.keys (capture_groups (hp_response s))) (bp_caps self)).
    exact H.
  - intros k.
    destruct (@uc_keys_get_all (hp_response s) k (bp_caps self) Hnd)
      as (Hv & Hl).
    destruct (@entry_pairs_values (hp_response s) k Hr) as (Ev & El).
    destruct (fold_hp_step_captures k progress hp_init) as (Fv & Fl).
    fold s in Fv, Fl. simpl in Fv, Fl.
    destruct (uc_keys (hp_response s)
                (PyDict.keys (capture_groups (hp_response s))) (bp_caps self))
      as [vs' ls'] eqn:U.
    simpl in Hv, Hl |- *. rewrite Hv, Hl, Ev, El. simpl.
    rewrite Fv, Fl. split; [|reflexivity].
    f_equal. f_equal.
    rewrite <- (replay_map try_decode (values_of (writes k progress)) None).
    simpl. f_equal. unfold values_of. rewrite map_map. reflexivity.
Qed.

End MergeSteps.

Lemma merge_steps_from Interp steps : forall (self : ByteParser Interp),
  in_sync (_variables self) (_variables_log_probs self) ->
  exists self',
    merge_steps steps self = Ok tt self'
    /\ in_sync (_variables self') (_variables_log_probs self')
    /\ forall k,
         dget (_variables self') k =
           fold_left
             (fun cur progress =>
                replay (entry_writes
                          (replay (map (fun w => (fst w, try_decode (fst (snd w))))
                                       (writes k progress)) None)) cur)
             steps (dget (_variables self) k)
         /\ dget (_variables_log_probs self') k =
           fold_left
             (fun cur progress =>
                replay (entry_writes
                          (replay (map (fun w => (fst w, snd (snd w)))
                                       (writes k progress)) None)) cur)
             steps (dget (_variables_log_probs self) k).
Proof.
  unfold merge_steps.
  induction steps as [|progress steps IH]; intros self Hs.
  - exists self. simpl. auto.
  - destruct (merge_step progress self Hs) as (self1 & E1 & Hs1 & Hk1).
    destruct (IH self1 Hs1) as (self' & E & Hs' & Hk).
    exists self'. cbn [for_each]. unfold bind at 1. rewrite E1.
    split; [exact E|]. split; [exact Hs'|].
    intros k. destruct (Hk k) as (Hv & Hl). destruct (Hk1 k) as (Hv1 & Hl1).
    simpl. rewrite Hv, Hl, Hv1, Hl1. auto.
Qed.

Lemma replay_app {A} (ws1 ws2 : list (write_mode * A)) c :
  replay (ws1 ++ ws2) c = replay ws2 (replay ws1 c).
Proof. unfold replay. apply fold_left_app. Qed.

Lemma replay_appends_list {A} (xs : list A) : forall l,
  replay (appends xs) (Some (Multi l)) = Some (Multi (l ++ xs)).
Proof.
  unfold replay, appends.
  induction xs as [|x xs IH]; intros l; simpl.
  - now rewrite app_nil_r.
  - rewrite IH, <- app_assoc. reflexivity.
Qed.

Lemma replay_appends_none {A} (xs : list A) :
  replay (appends xs) None = list_entry xs.
Proof.
  destruct xs as [|x xs]; [reflexivity|].
  change (replay (appends (x :: xs)) None)
    with (replay (appends xs) (Some (Multi [x]))).
  now rewrite replay_appends_list.
Qed.

Lemma entry_writes_replay_appends {A} (xs : list A) :
  entry_writes (replay (appends xs) None) = appends xs.
Proof. rewrite replay_appends_none. destruct xs; reflexivity. Qed.

Lemma all_append_appends {A B} (pick : A -> B) (ws : list (write_mode * A)) :
  Forall (fun w => fst w = AppendMode) ws ->
  map (fun w => (fst w, pick (snd w))) ws = appends (map (fun w => pick (snd w)) ws).
Proof.
  induction 1 as [|[m x] ws Hm _ IH]; simpl; auto.
  simpl in Hm. subst m. now rewrite IH.
Qed.

Lemma fold_all_append {A} (pick : pybytes * float -> A) k steps : forall c,
  Forall (fun w => fst w = AppendMode) (all_writes k steps) ->
  fold_left
    (fun cur progress =>
       replay (entry_writes
                 (replay (map (fun w => (fst w, pick (snd w)))
                              (writes k progress)) None)) cur)
    steps c
  = replay (appends (map (fun w => pick (snd w)) (all_writes k steps))) c.
Proof.
  unfold all_writes.
  induction steps as [|p steps IH]; intros c H; simpl in *; [reflexivity|].
  apply Forall_app in H. destruct H as [Hp Hs].
  rewrite IH by assumption.
  rewrite map_app. unfold appends at 2. rewrite map_app.
  fold (appends (map (fun w => pick (snd w)) (writes k p))).
  fold (appends (map (fun w => pick (snd w))
                     (List.concat (map (writes k) steps)))).
  rewrite replay_app. f_equal.
  rewrite (all_append_appends pick Hp).
  now rewrite entry_writes_replay_appends.
Qed.

(** While every value for a name arrives flagged for appending, the name
    holds the list of all of them, in order, across the steps. *)
Lemma captured_all_append {A} (pick : pybytes * float -> A) k steps :
  Forall (fun w => fst w = AppendMode) (all_writes k steps) ->
  captured pick k steps
  = list_entry (map (fun w => pick (snd w)) (all_writes k steps)).
Proof.
  intros H. unfold captured. rewrite fold_all_append by assumption.
  apply replay_appends_none.
Qed.

Lemma last_cons {A} (l : list A) : forall a d, last (a :: l) d = last l a.
Proof.
  induction l as [|b l IH]; intros a d; [reflexivity|].
  change (last (a :: b :: l) d) with (last (b :: l) d).
  now rewrite !IH.
Qed.

(** While every value for a name arrives in scalar mode, the name holds
    the last of them. *)
Lemma replay_scalar_last {A} (ws : list (write_mode * A)) : forall c,
  Forall (fun w => fst w = ScalarMode) ws ->
  replay ws c
  = match ws with
    | [] => c
    | w :: r => Some (Scalar (last (map snd r) (snd w)))
    end.
Proof.
  unfold replay.
  induction ws as [|[m x] ws IH]; intros c H; [reflexivity|].
  inversion H as [|? ? Hm Hr]; subst. simpl in Hm. subst m.
  cbn [fold_left fst snd]. rewrite IH by assumption.
  destruct ws as [|[m' y] ws]; [reflexivity|].
  cbn [map snd]. now rewrite last_cons.
Qed.

Lemma all_scalar_map {A B} (pick : A -> B) (ws : list (write_mode * A)) :
  Forall (fun w => fst w = ScalarMode) ws ->
  Forall (fun w => fst w = ScalarMode)
         (map (fun w => (fst w, pick (snd w))) ws).
Proof. induction 1; simpl; constructor; auto. Qed.

Lemma fold_all_scalar {A} (pick : pybytes * float -> A) k steps : forall c,
  Forall (fun w => fst w = ScalarMode) (all_writes k steps) ->
  fold_left
    (fun cur progress =>
       replay (entry_writes
                 (replay (map (fun w => (fst w, pick (snd w)))
                              (writes k progress)) None)) cur)
    steps c
  = replay (map (fun w => (fst w, pick (snd w))) (all_writes k steps)) c.
Proof.
  unfold all_writes.
  induction steps as [|p steps IH]; intros c H; simpl in *; [reflexivity|].
  apply Forall_app in H. destruct H as [Hp Hs].
  rewrite IH by assumption. rewrite map_app, replay_app. f_equal.
  pose proof (all_scalar_map pick Hp) as Hp'.
  rewrite (replay_scalar_last None Hp'), (replay_scalar_last c Hp').
  destruct (map (fun w => (fst w, pick (snd w))) (writes k p)); reflexivity.
Qed.

(** While every value for a name arrives in scalar mode, the name holds
    the last of them, across the steps. *)
Lemma captured_all_scalar {A} (pick : pybytes * float -> A) k steps :
  Forall (fun w => fst w = ScalarMode) (all_writes k steps) ->
  captured pick k steps
  = match map (fun w => pick (snd w)) (all_writes k steps) with
    | [] => None
    | x :: r => Some (Scalar (last r x))
    end.
Proof.
  intros H. unfold captured. rewrite fold_all_scalar by assumption.
  rewrite (replay_scalar_last None (all_scalar_map pick H)).
  destruct (all_writes k steps) as [|[m x] ws]; [reflexivity|].
  simpl. now rewrite !map_map.
Qed.

(* ================================================================== *)
(** * Properties of the token parser *)

(** C1, as the design states it, fails: a value written in scalar mode
    after a list-append value for the same name replaces the list. On the
    log [__LIST_APPEND:x = "a"; x = "b"] the entry of [x] is the scalar
    ["b"], not the list [["a"; "b"]]. *)
Lemma first_write_does_not_fix_shape : ~ first_write_fixes_shape.
Proof.
  intros H.
  specialize (H [CaptureEvent "__LIST_APPEND:x" [x61] 0%float;
                 CaptureEvent "x" [x62] 0%float]
                "x"%string AppendMode [x61] [(ScalarMode, [x62])]
                (hp_response (fold_left hp_step
                   [CaptureEvent "__LIST_APPEND:x" [x61] 0%float;
                    CaptureEvent "x" [x62] 0%float] hp_init))
                (handle_progress_eq _ tt) eq_refl).
  vm_compute in H. discriminate H.
Qed.

(** C1, amended: every value is written by the capture rule
    [capture_write]. A list-append value is appended when the name holds a
    list and otherwise starts a one-element list in place of what was
    there; a scalar value replaces whatever the name holds. Within a step
    [_handle_progress] replays the step's values from nothing, and
    [_update_capture] replays the step's entry onto the variables of the
    byte parser; the merge never raises, and values and log-probabilities
    keep the same shape, so a name never holds a list and a scalar at
    once. While all the values of a name are list-append values the name
    holds the ordered list of all of them, and while all are scalar
    values it holds the last one. *)
Theorem capture_shape_follows_each_write :
  forall Interp (p : LLParser Interp) (steps : list (list progress_event)),
  exists self',
    merge_steps steps (ByteParser_init p) = Ok tt self'
    /\ in_sync (_variables self') (_variables_log_probs self')
    /\ forall k,
         (dget (_variables self') k
            = captured (fun w => try_decode (fst w)) k steps
          /\ dget (_variables_log_probs self') k = captured snd k steps)
         /\ (Forall (fun w => fst w = AppendMode) (all_writes k steps) ->
             dget (_variables self') k
               = list_entry (map (fun w => try_decode (fst (snd w)))
                                 (all_writes k steps))
             /\ dget (_variables_log_probs self') k
               = list_entry (map (fun w => snd (snd w)) (all_writes k steps)))
         /\ (Forall (fun w => fst w = ScalarMode) (all_writes k steps) ->
             dget (_variables self') k
               = match map (fun w => try_decode (fst (snd w)))
                           (all_writes k steps) with
                 | [] => None
                 | x :: r => Some (Scalar (last r x))
                 end).
Proof.
  intros Interp p steps.
  destruct (@merge_steps_from Interp steps (ByteParser_init p))
    as (self' & E & Hs & Hk).
  - apply in_sync_nil.
  - exists self'. split; [exact E|]. split; [exact Hs|].
    intros k. destruct (Hk k) as (Hv & Hl).
    assert (dget (_variables self') k
              = captured (fun w => try_decode (fst w)) k steps
            /\ dget (_variables_log_probs self') k = captured snd k steps)
      as [Cv Cl] by (unfold captured; rewrite Hv, Hl; auto).
    split; [auto|]. split.
    + intros Hall. rewrite Cv, Cl.
      split; now apply captured_all_append.
    + intros Hall. rewrite Cv. now apply captured_all_scalar.
Qed.

(** C1, amended, on two steps that append ["x"] and then ["y"]. *)
Lemma capture_shape_follows_each_write_witness :
  exists self',
    merge_steps
      [[CaptureEvent "__LIST_APPEND:item" [x78] (-1)%float];
       [CaptureEvent "__LIST_APPEND:item" [x79] (-2)%float]]
      (fresh_parser []) = Ok tt self'
    /\ dget (_variables self') "item" = Some (Multi [PStr [x78]; PStr [x79]])
    /\ dget (_variables_log_probs self') "item"
       = Some (Multi [(-1)%float; (-2)%float]).
Proof.
  destruct (@capture_shape_follows_each_write
              (list (option pybytes * StepReport))
              {| ll_interpreter := []; _state := _start [] |}
              [[CaptureEvent "__LIST_APPEND:item" [x78] (-1)%float];
               [CaptureEvent "__LIST_APPEND:item" [x79] (-2)%float]])
    as (self' & E & _ & H).
  exists self'. split; [exact E|].
  destruct (H "item"%string) as (_ & Happ & _).
  apply Happ. repeat constructor.
Defined.

(** The design's example: a repeated capture ["item"] fed over three steps
    with ["x"], ["y"], ["z"] reads back as the three values in order, with
    three log-probabilities. *)
Example item_over_three_steps :
  exists self',
    merge_steps
      [[CaptureEvent "__LIST_APPEND:item" [x78] (-1)%float];
       [CaptureEvent "__LIST_APPEND:item" [x79] (-2)%float];
       [CaptureEvent "__LIST_APPEND:item" [x7a] (-3)%float]]
      (fresh_parser []) = Ok tt self'
    /\ get_captures self'
       = ([("item"%string, Multi [PStr [x78]; PStr [x79]; PStr [x7a]])],
          [("item"%string, Multi [(-1)%float; (-2)%float; (-3)%float])]).
Proof. eexists. split; vm_compute; reflexivity. Qed.

(** C9: whatever the number of text fragments in a step, [new_bytes] is
    the concatenation of their bytes in report order, [new_token_count]
    the sum of their token counts, and [new_bytes_prob] the mean of
    their log-probabilities ([0.0] when there is none). *)
Theorem progress_reducer_text_summary :
  forall (S : Type) (s : S) (progress : list progress_event),
  exists r,
    _handle_progress progress s = Ok r s
    /\ new_bytes r
       = List.concat (map (fun t => fst (fst t)) (text_fragments progress))
    /\ new_token_count r
       = zsum (map (fun t => snd (fst t)) (text_fragments progress))
    /\ new_bytes_prob r = fmean (map snd (text_fragments progress)).
Proof.
  intros S s progress. eexists. split; [apply handle_progress_eq|].
  destruct (fold_hp_step_text progress hp_init) as (Hb & Hc & Hp & Hn).
  simpl in Hb, Hc, Hp, Hn. simpl.
  rewrite Hb, Hc, Hp, Hn. repeat split.
  unfold fmean, fsum.
  destruct (text_fragments progress) as [|t ts]; simpl; auto.
  now rewrite length_map.
Qed.

Lemma trim_trailing {A} (l : list A) (b : Z) :
  (0 <= b)%Z ->
  (if (b =? 0)%Z then l else slice_to l (- b))
  = firstn (List.length l - Z.to_nat b) l.
Proof.
  intros Hb. destruct (Z.eqb_spec b 0) as [->|Hne].
  - simpl. rewrite Nat.sub_0_r. symmetry. apply firstn_all.
  - unfold slice_to.
    destruct (Z.ltb_spec (- b) 0) as [_|H]; [|lia].
    f_equal. lia.
Qed.

Section TokenParserProperties.
Variable Interp : Type.
Variable mid_process :
  Interp -> Z -> list Z -> option pybytes * StepReport * Interp.
Implicit Types (self : LLParser Interp) (state : ParserState).

(** C3: when the interpreter returns no mask, the new token sequence is
    the prior one without its last [backtrack] tokens, followed by the
    reported [ff_tokens], and no [GenData] is returned. *)
Theorem advance_without_mask self state r i' :
  mid_process (ll_interpreter self) (backtrack state) (ff_tokens state)
    = (None, r, i') ->
  (0 <= rep_backtrack r)%Z ->
  exists response,
    _advance mid_process state self
    = Ok (None, response,
          {| tokens :=
               firstn (List.length (tokens state)
                       - Z.to_nat (rep_backtrack r)) (tokens state)
               ++ rep_ff_tokens r;
             ff_tokens := rep_ff_tokens r;
             backtrack := rep_backtrack r;
             done := rep_stop r |})
         (set_interpreter i' self).
Proof.
  intros Hm Hb. eexists.
  unfold _advance, bind, get_state. rewrite Hm.
  unfold modify, ret. rewrite handle_progress_eq.
  rewrite trim_trailing by assumption. reflexivity.
Qed.

(** C4: when the interpreter returns a mask, the report must carry
    [stop = false], [backtrack = 0] and no [ff_tokens]. With all three
    the step returns the [GenData] and leaves the tokens as they were;
    with any of them violated it raises [AssertionError], which is not
    the [ParserException] that a caller recovers from. *)
Theorem advance_with_mask self state m r i' :
  mid_process (ll_interpreter self) (backtrack state) (ff_tokens state)
    = (Some m, r, i') ->
  (rep_stop r = false /\ rep_backtrack r = 0%Z /\ rep_ff_tokens r = [] ->
   exists response,
     _advance mid_process state self
     = Ok (Some {| gen_tokens := tokens state; mask := m;
                   temperature := rep_temperature r |},
           response,
           {| tokens := tokens state; ff_tokens := [];
              backtrack := 0%Z; done := false |})
          (set_interpreter i' self))
  /\ (rep_stop r = true \/ rep_backtrack r <> 0%Z \/ rep_ff_tokens r <> [] ->
      exists e,
        _advance mid_process state self = Raise e (set_interpreter i' self)
        /\ e = AssertionError
        /\ is_assertion e = true /\ is_parser_exception e = false).
Proof.
  intros Hm. split.
  - intros (Hs & Hb & Hf). eexists.
    unfold _advance, bind, get_state. rewrite Hm.
    unfold modify, ret, py_assert. rewrite Hs, Hb, Hf. simpl.
    rewrite handle_progress_eq. reflexivity.
  - intros Hv. exists AssertionError. split; [|auto].
    unfold _advance, bind, get_state. rewrite Hm.
    unfold modify, ret, py_assert, raise.
    destruct (rep_stop r); simpl; [reflexivity|].
    destruct (Z.eqb_spec (rep_backtrack r) 0) as [E|E]; [|reflexivity].
    destruct (rep_ff_tokens r); [|reflexivity].
    destruct Hv as [H|[H|H]]; congruence.
Qed.

(** C5: [_consume_token] is legal only on a state that is not done and
    has neither a pending backtrack nor pending [ff_tokens]; on such a
    state it returns the prior tokens with [tok_id] appended and
    [ff_tokens = [tok_id]]; on any other state it raises
    [AssertionError]. *)
Theorem consume_token_contract self state tok_id :
  (done state = false /\ backtrack state = 0%Z /\ ff_tokens state = [] ->
   exists state',
     _consume_token tok_id state self = Ok state' self
     /\ tokens state' = tokens state ++ [tok_id]
     /\ ff_tokens state' = [tok_id]
     /\ backtrack state' = 0%Z /\ done state' = false)
  /\ (done state = true \/ backtrack state <> 0%Z \/ ff_tokens state <> [] ->
      _consume_token tok_id state self = Raise AssertionError self).
Proof.
  unfold _consume_token, bind, py_assert, ret, raise. split.
  - intros (Hd & Hb & Hf). rewrite Hd, Hb, Hf. simpl.
    eexists. split; [reflexivity|]. simpl. auto.
  - intros Hv. destruct (done state); simpl; [reflexivity|].
    destruct (Z.eqb_spec (backtrack state) 0) as [E|E]; [|reflexivity].
    destruct (ff_tokens state); [|reflexivity].
    destruct Hv as [H|[H|H]]; congruence.
Qed.

End TokenParserProperties.

(* ================================================================== *)
(** * Properties of the byte parser *)

Lemma preserves_run {S A} (P : S -> Prop) (c : M S A) s :
  preserves P c -> P s -> kept P (c s).
Proof. intros [H]. apply H. Qed.

Lemma preserves_ret {S A} (P : S -> Prop) (a : A) : preserves P (ret a).
Proof. constructor. intros s H. exact H. Qed.

Lemma preserves_raise {S A} (P : S -> Prop) e : preserves P (@raise S A e).
Proof. constructor. intros s H. exact H. Qed.

Lemma preserves_lift {S A} (P : S -> Prop) (r : result A) :
  preserves P (@lift S A r).
Proof. destruct r; [apply preserves_ret|apply preserves_raise]. Qed.

Lemma preserves_get_state {S} (P : S -> Prop) : preserves P get_state.
Proof. constructor. intros s H. exact H. Qed.

Lemma preserves_modify {S} (P : S -> Prop) (f : S -> S) :
  (forall s, P s -> P (f s)) -> preserves P (modify f).
Proof. intros Hf. constructor. intros s H. apply Hf, H. Qed.

Lemma preserves_bind {S A B} (P : S -> Prop) (c : M S A) (k : A -> M S B) :
  preserves P c -> (forall a, preserves P (k a)) -> preserves P (bind c k).
Proof.
  intros [Hc] Hk. constructor. intros s H. unfold bind. specialize (Hc s H).
  destruct (c s) as [a s'|e s'|]; auto. destruct (Hk a) as [Hk']. apply Hk', Hc.
Qed.

Lemma preserves_for_each {S A} (P : S -> Prop) (l : list A)
  (body : A -> M S unit) :
  (forall x, preserves P (body x)) -> preserves P (for_each l body).
Proof.
  intros Hb. induction l as [|x l IH]; simpl.
  - apply preserves_ret.
  - apply preserves_bind; auto.
Qed.

Ltac preserve :=
  repeat match goal with
    | |- preserves _ (ret _) => apply preserves_ret
    | |- preserves _ (raise _) => apply preserves_raise
    | |- preserves _ (lift _) => apply preserves_lift
    | |- preserves _ get_state => apply preserves_get_state
    | |- preserves _ (for_each _ _) => apply preserves_for_each; intros
    | |- preserves _ (bind _ _) => apply preserves_bind; [|intros]
    | |- preserves _ (modify _) =>
        apply preserves_modify; intros ? ?; assumption
    | |- preserves _ (match ?x with _ => _ end) => destruct x
    end.

Section CursorInvariant.
Variable Interp : Type.
Variable mid_process :
  Interp -> Z -> list Z -> option pybytes * StepReport * Interp.
Implicit Types self : ByteParser Interp.

Lemma preserves_on_ll_parser {A} (c : M (LLParser Interp) A) :
  preserves (@cursor_in_buffer Interp) (on_ll_parser c).
Proof.
  constructor. intros self H. unfold on_ll_parser.
  destruct (c (ll_parser self)); simpl; try exact H; exact I.
Qed.

Lemma preserves_update_capture response :
  preserves (@cursor_in_buffer Interp) (_update_capture response).
Proof.
  unfold _update_capture, update_capture_key, update_capture_item.
  preserve.
Qed.

Lemma preserves_advance_loop fuel :
  preserves (@cursor_in_buffer Interp) (advance_loop mid_process fuel).
Proof.
  induction fuel as [|fuel IH]; constructor; intros self H;
    cbn [advance_loop];
    destruct (gen_data self), (parser_done (ll_parser self));
    try exact H; try exact I.
  apply preserves_run; [|exact H].
  apply preserves_bind; [apply preserves_on_ll_parser|].
  intros [g response]. preserve; auto using preserves_update_capture.
  apply preserves_modify. intros self' H'.
  unfold cursor_in_buffer in *. simpl. rewrite length_app. lia.
Qed.

(** [consume_bytes] keeps the cursor within the buffer. *)
Lemma preserves_consume_bytes fuel : forall bts,
  preserves (@cursor_in_buffer Interp) (consume_bytes mid_process fuel bts).
Proof.
  induction fuel as [|fuel IH]; intros bts; simpl.
  - constructor. intros self H. exact I.
  - apply preserves_bind; [apply preserves_advance_loop|]. intros _.
    destruct bts as [|b rest]; [apply preserves_ret|].
    constructor. intros self H. unfold bind at 1, get_state at 1.
    destruct (Nat.ltb_spec (pos self) (List.length (bytes self))) as [Hlt|Hge].
    + unfold bind at 1, lift, index.
      destruct (nth_error (bytes self) (pos self)); [|exact H].
      unfold ret. destruct (negb (byte_eqb b b0)); [exact H|].
      unfold bind at 1, modify. apply preserves_run; [apply IH|].
      unfold cursor_in_buffer. simpl. lia.
    + unfold bind at 1.
      destruct (gen_data self) as [g|]; [|exact H]. unfold ret.
      destruct (negb (int_in (Z_of_byte b) (valid_next_tokens g))).
      * unfold bind, lift.
        destruct (bytes_of_tokens (valid_next_tokens g)); exact H.
      * apply preserves_run; [|exact H].
        preserve; auto using preserves_on_ll_parser.
Qed.
Lemma preserves_matched fuel :
  preserves (@cursor_in_buffer Interp) (matched mid_process fuel).
Proof.
  unfold matched.
  apply preserves_bind; [apply preserves_get_state|]. intros self.
  destruct (pos self <? List.length (bytes self))%nat; [apply preserves_ret|].
  apply preserves_bind.
  - destruct (negb (parser_done (ll_parser self)));
      [apply preserves_consume_bytes|apply preserves_ret].
  - intros _. preserve.
Qed.

(** A parser as [__init__] leaves it has its cursor within the buffer. *)
Lemma cursor_in_buffer_init (p : LLParser Interp) :
  cursor_in_buffer (ByteParser_init p).
Proof. unfold cursor_in_buffer. simpl. apply le_n. Qed.

End CursorInvariant.

Lemma bytes_of_tokens_ok (ts : list Z) :
  Forall (fun t => 0 <= t < 256)%Z ts ->
  exists bs, bytes_of_tokens ts = Ret (map (fun b => PyBytes [b]) bs)
             /\ map Z_of_byte bs = ts.
Proof.
  induction 1 as [|t ts Ht _ IH]; simpl.
  - exists []. auto.
  - destruct IH as (bs & E & Hbs). unfold byte_of_Z.
    destruct (Z.ltb_spec t 0) as [|_]; [lia|].
    destruct (Byte.of_N (Z.to_N t)) as [b|] eqn:Eb.
    + exists (b :: bs). rewrite E. split; [reflexivity|].
      simpl. rewrite Hbs. f_equal. unfold Z_of_byte.
      apply Byte.to_of_N in Eb. rewrite Eb. lia.
    + apply Byte.of_N_None_iff in Eb. lia.
Qed.

Lemma where_nonzero_bounds m : forall i t,
  In t (where_nonzero i m) -> (i <= t < i + Z.of_nat (List.length m))%Z.
Proof.
  induction m as [|b m IH]; intros i t; simpl; [tauto|].
  destruct (byte_eqb b x00); simpl; intros H.
  - apply IH in H. lia.
  - destruct H as [<-|H]; [lia|]. apply IH in H. lia.
Qed.

Section ByteParserProperties.
Variable Interp : Type.
Variable mid_process :
  Interp -> Z -> list Z -> option pybytes * StepReport * Interp.
Implicit Types self : ByteParser Interp.

(** The error of the first failure site: the next byte differs from the
    committed byte under the cursor. *)
Lemma consume_bytes_buffer_mismatch fuel b rest self s1 c :
  advance_loop mid_process fuel self = Ok tt s1 ->
  pos s1 < List.length (bytes s1) ->
  nth_error (bytes s1) (pos s1) = Some c ->
  b <> c ->
  consume_bytes mid_process (S fuel) (b :: rest) self
  = Raise (ParserException (Z_of_byte b) [PyInt (Z_of_byte c)] (bytes s1)) s1.
Proof.
  intros Hl Hlt Hc Hne. cbn [consume_bytes]. unfold bind at 1. rewrite Hl.
  unfold bind at 1, get_state at 1.
  destruct (Nat.ltb_spec (pos s1) (List.length (bytes s1))); [|lia].
  unfold bind, lift, index. rewrite Hc. unfold ret, byte_eqb.
  destruct (Byte.eqb b c) eqn:E; [|reflexivity].
  apply Byte.byte_dec_bl in E. contradiction.
Qed.

(** The error of the second failure site: the cursor is at the frontier
    and the pending mask does not allow the next byte. Every legal token
    is taken to be a byte token; with a legal token of 256 or more,
    [bytes([t])] raises [ValueError] before the error is built. *)
Lemma consume_bytes_frontier_mismatch fuel b rest self s1 g :
  advance_loop mid_process fuel self = Ok tt s1 ->
  List.length (bytes s1) <= pos s1 ->
  gen_data s1 = Some g ->
  int_in (Z_of_byte b) (valid_next_tokens g) = false ->
  Forall (fun t => t < 256)%Z (valid_next_tokens g) ->
  exists bs,
    map Z_of_byte bs = valid_next_tokens g
    /\ consume_bytes mid_process (S fuel) (b :: rest) self
       = Raise (ParserException (Z_of_byte b)
                  (map (fun x => PyBytes [x]) bs) (bytes s1)) s1.
Proof.
  intros Hl Hge Hg Hin Hm.
  destruct (@bytes_of_tokens_ok (valid_next_tokens g)) as (bs & E & Hbs).
  { apply Forall_forall. intros t Ht.
    pose proof (proj1 (Forall_forall _ _) Hm t Ht) as Hlt. simpl in Hlt.
    apply where_nonzero_bounds in Ht. lia. }
  exists bs. split; [exact Hbs|].
  cbn [consume_bytes]. unfold bind at 1. rewrite Hl.
  unfold bind at 1, get_state at 1.
  destruct (Nat.ltb_spec (pos s1) (List.length (bytes s1))); [lia|].
  unfold bind at 1. rewrite Hg. unfold ret. rewrite Hin. simpl.
  unfold bind, lift. rewrite E. reflexivity.
Qed.

(** What [matched] does, by the state it is called in: it answers [True]
    only if the cursor had caught up with the committed buffer when it
    was called and the token parser is done when it answers. With the
    cursor caught up and the parser not done it makes one call
    [consume_bytes(b"")] and answers with the parser's [done] after it;
    with the parser done it answers at once. *)
Theorem matched_contract fuel self :
  cursor_in_buffer self ->
  (forall self',
     matched mid_process fuel self = Ok true self' ->
     pos self = List.length (bytes self)
     /\ parser_done (ll_parser self') = true)
  /\ (pos self = List.length (bytes self) ->
      parser_done (ll_parser self) = false ->
      matched mid_process fuel self
      = (consume_bytes mid_process fuel [] ;;;
         self' <- get_state ;;
         ret (parser_done (ll_parser self'))) self)
  /\ (pos self = List.length (bytes self) ->
      parser_done (ll_parser self) = true ->
      matched mid_process fuel self = Ok true self).
Proof.
  intros Hc. unfold cursor_in_buffer in Hc.
  assert (matched mid_process fuel self
          = if (pos self <? List.length (bytes self))%nat
            then Ok false self
            else ((if negb (parser_done (ll_parser self))
                   then consume_bytes mid_process fuel []
                   else ret tt) ;;;
                  self' <- get_state ;;
                  ret (parser_done (ll_parser self'))) self) as E.
  { unfold matched, bind at 1, get_state at 1.
    destruct (pos self <? List.length (bytes self))%nat; reflexivity. }
  rewrite E. clear E.
  destruct (Nat.ltb_spec (pos self) (List.length (bytes self))) as [Hlt|Hge].
  - split; [|split]; try (intros; lia).
    intros self' H. discriminate H.
  - assert (pos self = List.length (bytes self)) as Heq by lia.
    split; [|split].
    + intros self' H. split; [exact Heq|].
      unfold bind in H.
      destruct (negb (parser_done (ll_parser self))).
      * destruct (consume_bytes mid_process fuel [] self) as [[] s|e s|];
          try discriminate.
        unfold get_state, ret in H. inversion H. subst. auto.
      * unfold ret, get_state in H. inversion H. subst. auto.
    + intros _ Hd. rewrite Hd. reflexivity.
    + intros _ Hd. rewrite Hd. unfold bind, ret, get_state. simpl.
      rewrite Hd. reflexivity.
Qed.

End ByteParserProperties.

(* ------------------------------------------------------------------ *)
(** ** The properties at concrete inputs *)

(** C3 on a step that retracts two of three tokens and forces one. *)
Lemma advance_without_mask_witness :
  exists response,
    _advance (@scripted) (_start [1; 2; 3]%Z)
             (parser_123 [(None, report 2 [7%Z] false [])])
    = Ok (None, response,
          {| tokens := [1; 7]%Z; ff_tokens := [7%Z]; backtrack := 2%Z;
             done := false |})
         (parser_123 []).
Proof.
  apply (@advance_without_mask _ (@scripted)
           (parser_123 [(None, report 2 [7%Z] false [])])
           (_start [1; 2; 3]%Z) (report 2 [7%Z] false []) []).
  - reflexivity.
  - simpl. lia.
Defined.

(** C4 on a step that returns a mask with a clean report, and on one that
    returns a mask together with a backtrack count. *)
Lemma advance_with_mask_witness :
  (exists response,
     _advance (@scripted) (_start [1; 2; 3]%Z)
              (parser_123 [(Some [x01], report 0 [] false [])])
     = Ok (Some {| gen_tokens := [1; 2; 3]%Z; mask := [x01];
                   temperature := 0%float |},
           response,
           {| tokens := [1; 2; 3]%Z; ff_tokens := []; backtrack := 0%Z;
              done := false |})
          (parser_123 []))
  /\ (exists e,
        _advance (@scripted) (_start [1; 2; 3]%Z)
                 (parser_123 [(Some [x01], report 1 [] false [])])
        = Raise e (parser_123 [])
        /\ e = AssertionError
        /\ is_assertion e = true /\ is_parser_exception e = false).
Proof.
  split.
  - apply (proj1 (@advance_with_mask _ (@scripted)
             (parser_123 [(Some [x01], report 0 [] false [])])
             (_start [1; 2; 3]%Z) [x01] (report 0 [] false []) [] eq_refl)).
    simpl. auto.
  - apply (proj2 (@advance_with_mask _ (@scripted)
             (parser_123 [(Some [x01], report 1 [] false [])])
             (_start [1; 2; 3]%Z) [x01] (report 1 [] false []) [] eq_refl)).
    right. left. simpl. discriminate.
Defined.

(** C5 on a state that waits for a token, and on one that is done. *)
Lemma consume_token_contract_witness :
  (exists state',
     _consume_token 9%Z (_start [1; 2; 3]%Z) (parser_123 [])
     = Ok state' (parser_123 [])
     /\ tokens state' = [1; 2; 3; 9]%Z /\ ff_tokens state' = [9%Z]
     /\ backtrack state' = 0%Z /\ done state' = false)
  /\ _consume_token 9%Z
       {| tokens := [1%Z]; ff_tokens := []; backtrack := 0%Z; done := true |}
       (parser_123 [])
     = Raise AssertionError (parser_123 []).
Proof.
  split.
  - apply (proj1 (@consume_token_contract _ (parser_123 [])
                    (_start [1; 2; 3]%Z) 9%Z)).
    simpl. auto.
  - apply (proj2 (@consume_token_contract _ (parser_123 [])
             {| tokens := [1%Z]; ff_tokens := []; backtrack := 0%Z;
                done := true |} 9%Z)).
    left. reflexivity.
Defined.

(** The flush of [matched] on a parser that has not been fed anything. *)
Lemma matched_contract_witness :
  cursor_in_buffer (fresh_parser forced_ab)
  /\ matched (@scripted) 5 (fresh_parser forced_ab)
     = (consume_bytes (@scripted) 5 [] ;;;
        self' <- get_state ;;
        ret (parser_done (ll_parser self'))) (fresh_parser forced_ab).
Proof.
  assert (cursor_in_buffer (fresh_parser forced_ab)) as H
    by (unfold cursor_in_buffer; simpl; apply le_n).
  split; [exact H|].
  apply (proj1 (proj2 (@matched_contract _ (@scripted) 5
                         (fresh_parser forced_ab) H))); reflexivity.
Defined.

(** The flush of [matched] can commit bytes: on a parser that has not
    been fed anything it answers [True] with the cursor at 0 and the
    buffer holding ["ab"]. *)
Remark matched_flush_commits_bytes :
  exists self',
    matched (@scripted) 5 (fresh_parser forced_ab) = Ok true self'
    /\ pos self' = 0 /\ bytes self' = [x61; x62].
Proof. eexists. split; [vm_compute; reflexivity|]. split; reflexivity. Qed.

(** C2 fails on the code. On a parser for the grammar ["ab"] that has
    not been fed anything, the cursor has caught up with the empty
    buffer and the token parser is not done, so [matched] flushes; the
    flush commits the forced bytes ["ab"] and finishes the token parser,
    and [matched] answers [True] although the cursor, still at 0, is now
    behind the buffer of length 2: the guard on the cursor is not looked
    at again after the flush. Neither when [matched] is called nor when
    it answers [True] does the cursor equal the buffer length with the
    parser done. Asked again at once, with nothing consumed in between,
    [matched] answers [False]. *)
Theorem matched_true_with_unconsumed_bytes :
  exists self',
    pos (fresh_parser forced_ab)
    = List.length (bytes (fresh_parser forced_ab))
    /\ parser_done (ll_parser (fresh_parser forced_ab)) = false
    /\ matched (@scripted) 5 (fresh_parser forced_ab) = Ok true self'
    /\ pos self' = 0
    /\ bytes self' = [x61; x62]
    /\ pos self' <> List.length (bytes self')
    /\ parser_done (ll_parser self') = true
    /\ matched (@scripted) 5 self' = Ok false self'.
Proof.
  eexists. split; [reflexivity|]. split; [reflexivity|].
  split; [vm_compute; reflexivity|].
  split; [reflexivity|]. split; [reflexivity|].
  split; [discriminate|]. split; [reflexivity|].
  vm_compute. reflexivity.
Qed.

(** The design's example, first call: after ["a"] the grammar of ["ab"]
    has not matched; after ["ab"] it has. *)
Example consume_a_then_b :
  exists s1 s2,
    consume_bytes (@scripted) 5 [x61] (fresh_parser forced_ab) = Ok tt s1
    /\ (exists s1', matched (@scripted) 5 s1 = Ok false s1')
    /\ consume_bytes (@scripted) 5 [x62] s1 = Ok tt s2
    /\ (exists s2', matched (@scripted) 5 s2 = Ok true s2').
Proof.
  eexists. eexists. split; [vm_compute; reflexivity|].
  split; [eexists; vm_compute; reflexivity|].
  split; [vm_compute; reflexivity|].
  eexists; vm_compute; reflexivity.
Qed.

(** C6 fails on the code. With ["ab"] committed and ["a"] consumed, the
    byte ["c"] raises a [ParserException] whose [consumed_bytes] is the
    whole committed buffer ["ab"], not the consumed prefix ["a"]. *)
Theorem byte_mismatch_reports_whole_buffer :
  exists self',
    consume_bytes (@scripted) 5 [x61; x63] (fresh_parser forced_ab)
    = Raise (ParserException 99 [PyInt 98] [x61; x62]) self'
    /\ pos self' = 1
    /\ firstn (pos self') (bytes self') = [x61]
    /\ bytes self' = [x61; x62].
Proof. eexists. split; [vm_compute; reflexivity|]. repeat split. Qed.

(** At the frontier with the parser done there is no pending mask, and
    one more byte fails the assertion on [gen_data] instead of raising a
    byte-mismatch error: ["abc"] against the grammar of ["ab"]. *)
Remark trailing_byte_after_done_asserts :
  exists self',
    consume_bytes (@scripted) 5 [x61; x62; x63] (fresh_parser forced_ab)
    = Raise AssertionError self'
    /\ pos self' = 2 /\ bytes self' = [x61; x62].
Proof. eexists. split; [vm_compute; reflexivity|]. split; reflexivity. Qed.

(** C10: the two failure sites of [consume_bytes] fill [allowed_bytes]
    with values of different types: the buffer site with the expected
    byte as an [int], the frontier site with one [bytes] object of
    length one for each legal token. So the byte ["c"] against the
    committed ["ab"] and against a mask that allows ["a"] and ["b"] gives
    two errors whose allowed bytes are [[97]] and [[b"a", b"b"]]. *)
Theorem allowed_bytes_types_differ :
  (forall Interp mid_process fuel b rest (self s1 : ByteParser Interp) c,
     advance_loop mid_process fuel self = Ok tt s1 ->
     pos s1 < List.length (bytes s1) ->
     nth_error (bytes s1) (pos s1) = Some c ->
     b <> c ->
     exists cur al consumed,
       consume_bytes mid_process (S fuel) (b :: rest) self
       = Raise (ParserException cur al consumed) s1
       /\ al = [PyInt (Z_of_byte c)] /\ forallb is_int al = true)
  /\ (forall Interp mid_process fuel b rest (self s1 : ByteParser Interp) g,
       advance_loop mid_process fuel self = Ok tt s1 ->
       List.length (bytes s1) <= pos s1 ->
       gen_data s1 = Some g ->
       int_in (Z_of_byte b) (valid_next_tokens g) = false ->
       Forall (fun t => t < 256)%Z (valid_next_tokens g) ->
       exists cur al consumed bs,
         consume_bytes mid_process (S fuel) (b :: rest) self
         = Raise (ParserException cur al consumed) s1
         /\ map Z_of_byte bs = valid_next_tokens g
         /\ al = map (fun x => PyBytes [x]) bs
         /\ forallb is_bytes al = true)
  /\ (exists s1 s2,
       consume_bytes (@scripted) 5 [x63] (fresh_parser forced_ab)
       = Raise (ParserException 99 [PyInt 97] [x61; x62]) s1
       /\ consume_bytes (@scripted) 5 [x63] (fresh_parser choice_ab)
          = Raise (ParserException 99 [PyBytes [x61]; PyBytes [x62]] []) s2).
Proof.
  split; [|split].
  - intros Interp mid_process fuel b rest self s1 c Hl Hlt Hc Hne.
    exists (Z_of_byte b), [PyInt (Z_of_byte c)], (bytes s1).
    split; [|auto]. now apply consume_bytes_buffer_mismatch.
  - intros Interp mid_process fuel b rest self s1 g Hl Hge Hg Hin Hm.
    destruct (@consume_bytes_frontier_mismatch Interp mid_process fuel b rest
                self s1 g Hl Hge Hg Hin Hm) as (bs & Hbs & E).
    exists (Z_of_byte b), (map (fun x => PyBytes [x]) bs), (bytes s1), bs.
    repeat split; auto.
    clear. induction bs; simpl; auto.
  - eexists. eexists. split; vm_compute; reflexivity.
Qed.

(** C10, its two parts at the byte ["c"]: against the committed ["ab"],
    and against a mask that allows ["a"] and ["b"]. *)
Lemma allowed_bytes_types_differ_witness :
  (exists s1 cur al consumed,
     consume_bytes (@scripted) 5 [x63] (fresh_parser forced_ab)
     = Raise (ParserException cur al consumed) s1
     /\ al = [PyInt 97] /\ forallb is_int al = true)
  /\ (exists s2 cur al consumed bs,
        consume_bytes (@scripted) 5 [x63] (fresh_parser choice_ab)
        = Raise (ParserException cur al consumed) s2
        /\ map Z_of_byte bs = [97; 98]%Z
        /\ al = map (fun x => PyBytes [x]) bs
        /\ forallb is_bytes al = true).
Proof.
  split.
  - exists (set_bytes [x61; x62]
              (set_ll_parser
                 {| ll_interpreter := [];
                    _state := {| tokens := [97; 98]%Z; ff_tokens := [];
                                 backtrack := 0%Z; done := true |} |}
                 (fresh_parser forced_ab))).
    apply (proj1 allowed_bytes_types_differ _ (@scripted) 4 x63 []
             (fresh_parser forced_ab) _ x61).
    + vm_compute. reflexivity.
    + simpl. auto.
    + reflexivity.
    + discriminate.
  - exists (set_gen_data
              (Some {| gen_tokens := []; mask := mask_of [97; 98]%Z 256;
                       temperature := 0%float |})
              (set_ll_parser
                 {| ll_interpreter := [];
                    _state := {| tokens := []; ff_tokens := [];
                                 backtrack := 0%Z; done := false |} |}
                 (fresh_parser choice_ab))).
    apply (proj1 (proj2 allowed_bytes_types_differ) _ (@scripted) 4 x63 []
             (fresh_parser choice_ab) _
             {| gen_tokens := []; mask := mask_of [97; 98]%Z 256;
                temperature := 0%float |}).
    + vm_compute. reflexivity.
    + simpl. apply le_n.
    + reflexivity.
    + vm_compute. reflexivity.
    + vm_compute. repeat constructor.
Defined.

(* ================================================================== *)
(** * Properties of the generation-state tree *)

Module TreeProperties.
Import Tree.

Lemma nth_error_snoc {A} (l : list A) x :
  nth_error (l ++ [x]) (List.length l) = Some x.
Proof. rewrite nth_error_app2, Nat.sub_diag by lia. reflexivity. Qed.

Lemma store_set_snoc {A} (l : list A) x y :
  store_set (l ++ [x]) (List.length l) y = l ++ [y].
Proof.
  unfold store_set.
  rewrite firstn_app, firstn_all, Nat.sub_diag, skipn_app, skipn_all,
    Nat.sub_diag.
  simpl. now rewrite app_nil_r.
Qed.

Lemma capture_map_map {A B C} (f : A -> B) (g : B -> C) (c : capture A) :
  capture_map g (capture_map f c) = capture_map (fun x => g (f x)) c.
Proof. destruct c; simpl; auto. now rewrite map_map. Qed.

Lemma capture_map_id {A} (c : capture A) : capture_map (fun x => x) c = c.
Proof. destruct c; simpl; auto. now rewrite map_id. Qed.

Section Frame.
Variables ASTNode FunctionT Content : Type.
Variable str_of_state : State Content -> string.
Variable apply_chunk : State Content -> MessageChunk -> State Content.
Variable client_run : State Content -> ASTNode -> list MessageChunk.
Implicit Types (w : World ASTNode FunctionT Content) (self : ref).
Implicit Types o : Model Content.

Lemma extends_refl w : extends w w.
Proof. split; auto. exists []. now rewrite app_nil_r. Qed.

Lemma extends_trans w1 w2 w3 :
  extends w1 w2 -> extends w2 w3 -> extends w1 w3.
Proof.
  intros [[a1 H1] D1] [[a2 H2] D2]. split; [|congruence].
  exists (a1 ++ a2). now rewrite H2, H1, app_assoc.
Qed.

(** Nothing that can be seen of a node of [w] differs in a world that
    extends [w]. *)
Lemma extends_observe w w' q :
  extends w w' -> q < List.length (models w) ->
  observe w' q = observe w q.
Proof.
  intros [[added H] D] Hq. unfold observe.
  rewrite H, D, nth_error_app1 by assumption. reflexivity.
Qed.

(** [copy] allocates one object, which shares the state's value and the
    [_active_blocks] reference of the original, and touches no other. *)
Lemma copy_spec self w o :
  nth_error (models w) self = Some o ->
  exists w' o',
    copy self w = Ok (List.length (models w)) w'
    /\ models w' = models w ++ [o']
    /\ dicts w' = dicts w
    /\ active_blocks w' = active_blocks w
    /\ _state o' = _state o
    /\ _active_blocks o' = _active_blocks o
    /\ token_count o' = token_count o
    /\ _parent_id o' = Some (_id o)
    /\ _id o' = _id_counter w.
Proof.
  intros Ho.
  unfold copy, bind, deref, _gen_id, new_model, _update_trace_node, assign,
    bind, deref, modify, get_state, ret.
  rewrite Ho. simpl. rewrite nth_error_snoc. simpl.
  rewrite store_set_snoc, nth_error_snoc. simpl.
  destruct (echo o); eexists; eexists; (split; [reflexivity|]); simpl;
    repeat split; reflexivity.
Qed.

Lemma copy_extends self w o :
  nth_error (models w) self = Some o ->
  exists w', copy self w = Ok (List.length (models w)) w' /\ extends w w'.
Proof.
  intros Ho. destruct (copy_spec self w Ho) as (w' & o' & E & Hm & Hd & _).
  exists w'. split; [exact E|]. split; [exists [o']; exact Hm|exact Hd].
Qed.

(** The part of C7 that holds: [set] returns a new node on which [key]
    reads as the value set, and every node of the world before, the
    original among them, is seen as before. *)
Lemma set_returns_new_node self key v w o :
  nth_error (models w) self = Some o ->
  exists w',
    set self key v w = Ok (List.length (models w)) w'
    /\ __getitem__ (List.length (models w)) key w' = Ok v w'
    /\ extends w w'
    /\ (forall q, q < List.length (models w) -> observe w' q = observe w q).
Proof.
  intros Ho. destruct (copy_spec self w Ho)
    as (w1 & o1 & E & Hm & Hd & _ & Hs & _).
  unfold set, bind. rewrite E.
  unfold assign, bind, deref, modify, ret. rewrite Hm, nth_error_snoc.
  rewrite Hm, store_set_snoc.
  eexists. split; [reflexivity|].
  assert (extends w (set_models (models w ++
            [with_state
               (set_captures
                  (dset (captures (_state o1)) key (capture_map fresh_var v))
                  (_state o1)) o1]) w1)) as Hext.
  { split; simpl; [eexists; reflexivity|exact Hd]. }
  split; [|split; [exact Hext|]].
  - unfold __getitem__, bind, deref. simpl. rewrite nth_error_snoc. simpl.
    rewrite dget_dset_eq, capture_map_map. simpl.
    now rewrite capture_map_id.
  - intros q Hq. now apply extends_observe.
Qed.

Lemma one_more_extends w w' : one_more w w' -> extends w w'.
Proof. intros [[o H] D]. split; [exists [o]; exact H|exact D]. Qed.

Lemma one_more_length w w' :
  one_more w w' -> List.length (models w) < List.length (models w').
Proof. intros [[o H] D]. rewrite H, length_app. simpl. lia. Qed.

Lemma extends_length w w' :
  extends w w' -> List.length (models w) <= List.length (models w').
Proof. intros [[a H] D]. rewrite H, length_app. lia. Qed.

Lemma preserves_deref P self :
  preserves P (@deref ASTNode FunctionT Content self).
Proof.
  constructor. intros w H. unfold deref.
  destruct (nth_error (models w) self); exact H.
Qed.

Lemma preserves_deref_dict P d :
  preserves P (@deref_dict ASTNode FunctionT Content d).
Proof.
  constructor. intros w H. unfold deref_dict.
  destruct (nth_error (dicts w) d); exact H.
Qed.

(** An assignment to an attribute of the newest object keeps the rest. *)
Lemma preserves_assign_newest w (f : Model Content -> Model Content) :
  preserves (one_more w) (assign (List.length (models w)) f).
Proof.
  constructor. intros w1 [[o H] D]. unfold assign, bind, deref, modify.
  rewrite H, nth_error_snoc, H, store_set_snoc.
  split; simpl; [eexists; reflexivity|exact D].
Qed.

Lemma preserves_update_trace_node w i pid attr :
  preserves (one_more w)
    (@_update_trace_node ASTNode FunctionT Content
       (List.length (models w)) i pid attr).
Proof.
  unfold _update_trace_node.
  apply preserves_bind; [apply preserves_modify; intros ? H; exact H|].
  intros _. apply preserves_bind; [apply preserves_assign_newest|].
  intros _. apply preserves_bind; [apply preserves_deref|].
  intros o. destruct (echo o); [|apply preserves_ret].
  apply preserves_modify. intros ? H. exact H.
Qed.

Lemma returns_ret {S A} (P : S -> Prop) (Q : A -> Prop) a :
  Q a -> returns P Q (ret a).
Proof. intros H. constructor. intros s Hs. split; assumption. Qed.

Lemma returns_raise {S A} (P : S -> Prop) (Q : A -> Prop) e :
  returns P Q (raise e).
Proof. constructor. intros s Hs. exact Hs. Qed.

Lemma returns_bind {S A B} (P : S -> Prop) (Q : B -> Prop)
  (c : M S A) (k : A -> M S B) :
  preserves P c -> (forall a, returns P Q (k a)) -> returns P Q (bind c k).
Proof.
  intros [Hc] Hk. constructor. intros s Hs. unfold bind.
  specialize (Hc s Hs). destruct (c s) as [a s'|e s'|]; simpl in Hc; auto.
  destruct (Hk a) as [Hk']. apply Hk', Hc.
Qed.

(** A call that copies [self] and then works on the copy alone. *)
Lemma copy_then self w
  (rest : ref -> M (World ASTNode FunctionT Content) ref) :
  self < List.length (models w) ->
  returns (one_more w) (eq (List.length (models w)))
          (rest (List.length (models w))) ->
  node_result w ((self' <- copy self ;; rest self') w).
Proof.
  intros Hself [Hrest].
  destruct (nth_error (models w) self) as [o|] eqn:Ho;
    [|apply nth_error_None in Ho; lia].
  destruct (copy_spec self w Ho) as (w1 & o1 & E & Hm & Hd & _).
  unfold bind at 1. rewrite E.
  assert (one_more w w1) as H1 by (split; [exists o1; exact Hm|exact Hd]).
  specialize (Hrest w1 H1).
  destruct (rest (List.length (models w)) w1) as [r w2|e w2|]; simpl.
  - destruct Hrest as [H2 <-]. split; [now apply one_more_extends|].
    now apply one_more_length.
  - now apply one_more_extends.
  - exact I.
Qed.

Lemma set_frame key v :
  @node_op ASTNode FunctionT Content (fun self => set self key v).
Proof.
  intros self w Hself. unfold set.
  apply copy_then; [exact Hself|].
  apply returns_bind; [apply preserves_assign_newest|]. intros _.
  now apply returns_ret.
Qed.

Lemma remove_frame key :
  @node_op ASTNode FunctionT Content (fun self => remove self key).
Proof.
  intros self w Hself. unfold remove.
  apply copy_then; [exact Hself|].
  apply returns_bind; [apply preserves_deref|]. intros o.
  destruct (dpop (captures (_state o)) key) as [[x d]|].
  - apply returns_bind; [apply preserves_assign_newest|]. intros _.
    now apply returns_ret.
  - apply returns_raise.
Qed.

Lemma apply_chunk_frame chunk :
  @node_op ASTNode FunctionT Content
    (fun self => _apply_chunk apply_chunk self chunk).
Proof.
  intros self w Hself. unfold _apply_chunk.
  apply copy_then; [exact Hself|].
  apply returns_bind; [apply preserves_assign_newest|]. intros _.
  apply returns_bind.
  { destruct (is_TextOutput chunk);
      [apply preserves_assign_newest|apply preserves_ret]. }
  intros _. apply returns_bind.
  { destruct (is_supported chunk); [|apply preserves_raise].
    apply preserves_bind; [apply preserves_deref|]. intros o.
    apply preserves_update_trace_node. }
  intros _. apply returns_bind.
  { unfold _send_to_event_queue. apply preserves_modify. intros ? H. exact H. }
  intros _. now apply returns_ret.
Qed.

Lemma node_op_for_acc {A} (l : list A)
  (body : A -> ref -> M (World ASTNode FunctionT Content) ref) :
  (forall x, node_op (body x)) -> node_op (for_acc l body).
Proof.
  intros Hb. induction l as [|x l IH]; intros self w Hself; simpl.
  - split; [apply extends_refl|exact Hself].
  - unfold bind. pose proof (Hb x self w Hself) as H1.
    destruct (body x self w) as [r w1|e w1|]; simpl in H1; auto.
    destruct H1 as [Hext Hr]. pose proof (IH r w1 Hr) as H2.
    destruct (for_acc l body r w1) as [r' w2|e w2|]; simpl in *; auto.
    + destruct H2. split; eauto using extends_trans.
    + eauto using extends_trans.
Qed.

Lemma apply_node_frame node :
  @node_op ASTNode FunctionT Content
    (fun self => _apply_node apply_chunk client_run self node).
Proof.
  intros self w Hself. unfold _apply_node, bind, deref.
  destruct (nth_error (models w) self) as [o|] eqn:Ho;
    [|apply nth_error_None in Ho; lia].
  apply (@node_op_for_acc _ (client_run (_state o) node)
           (fun chunk self => _apply_chunk apply_chunk self chunk));
    [|exact Hself].
  intros chunk. apply apply_chunk_frame.
Qed.

(** The part of C7 that holds: [set], [remove], the application of a
    chunk and the run of a node leave every node of the world before
    them as it was, whether they return or raise. *)
Lemma node_ops_keep_earlier_nodes (f : ref -> M _ ref) self w q :
  node_op f ->
  self < List.length (models w) -> q < List.length (models w) ->
  match f self w with
  | Ok _ w' | Raise _ w' =>
      @observe ASTNode FunctionT Content w' q = observe w q
  | OutOfFuel => True
  end.
Proof.
  intros Hf Hself Hq. pose proof (Hf self w Hself) as H.
  destruct (f self w) as [r w'|e w'|]; simpl in H; auto.
  - destruct H. now apply extends_observe.
  - now apply extends_observe.
Qed.

End Frame.

(** C7 fails on the code. [copy] gives the new node the dictionary object
    of the old one as its [_active_blocks], and [_apply_blocks] writes
    into it: reconciling the blocks of a node [m0] while ["cap"] is active
    returns a new node and leaves [m0] with ["cap"] among its active
    blocks. The caller sees it: [m0 + "yo"] holds no capture ["cap"] when
    it is computed at once, and holds one when [m0 + "hi"] has been
    computed inside the block before. *)
Theorem apply_blocks_mutates_earlier_node :
  exists m0 w0 o,
    Literal.init Literal.initial_state false (empty_world _ _ _) = Ok m0 w0
    /\ Literal.observe w0 m0 = Some (o, Some [])
    /\ (exists m1 w1,
          Literal.apply_blocks m0 (set_active_blocks [Literal.cap_block] w0)
          = Ok m1 w1
          /\ m1 <> m0
          /\ Literal.observe w1 m0 = Some (o, Some [(Literal.cap_block, 0)]))
    /\ (exists m2 w2,
          Literal.add m0 (FStr _ _ "yo") w0 = Ok m2 w2
          /\ Literal.contains m2 "cap" w2 = Ok false w2)
    /\ (exists m1 w1 m2 w2,
          Literal.add m0 (FStr _ _ "hi")
                      (set_active_blocks [Literal.cap_block] w0) = Ok m1 w1
          /\ Literal.add m0 (FStr _ _ "yo") (set_active_blocks [] w1)
             = Ok m2 w2
          /\ Literal.contains m2 "cap" w2 = Ok true w2).
Proof.
  eexists. eexists. eexists.
  split; [vm_compute; reflexivity|].
  split; [vm_compute; reflexivity|].
  split; [|split].
  - eexists. eexists. split; [vm_compute; reflexivity|].
    split; [discriminate|]. vm_compute. reflexivity.
  - eexists. eexists. split; vm_compute; reflexivity.
  - eexists. eexists. eexists. eexists.
    split; [vm_compute; reflexivity|].
    split; vm_compute; reflexivity.
Qed.

End TreeProperties.

(* ================================================================== *)
(** * Further properties of the token parser *)

Lemma byte_eqb_false_iff (a b : byte) : byte_eqb a b = false <-> a <> b.
Proof.
  unfold byte_eqb. split.
  - apply Byte.eqb_false.
  - intros H. destruct (Byte.eqb a b) eqn:E; auto.
    apply Byte.byte_dec_bl in E. contradiction.
Qed.

Lemma where_nonzero_In m : forall i t,
  In t (where_nonzero i m) <->
  exists n b, nth_error m n = Some b /\ b <> x00 /\ t = (i + Z.of_nat n)%Z.
Proof.
  induction m as [|c m IH]; intros i t; simpl.
  - split; [tauto|]. intros (n & b & H & _). destruct n; discriminate.
  - destruct (byte_eqb c x00) eqn:E.
    + rewrite IH. split.
      * intros (n & b & Hn & Hb & Ht). exists (S n), b. simpl.
        repeat split; auto. lia.
      * intros (n & b & Hn & Hb & Ht). destruct n as [|n]; simpl in Hn.
        -- injection Hn as <-. apply Byte.byte_dec_bl in E. contradiction.
        -- exists n, b. repeat split; auto. lia.
    + apply byte_eqb_false_iff in E. simpl. rewrite IH. split.
      * intros [<-|(n & b & Hn & Hb & Ht)].
        -- exists 0, c. simpl. repeat split; auto. lia.
        -- exists (S n), b. simpl. repeat split; auto. lia.
      * intros (n & b & Hn & Hb & Ht). destruct n as [|n]; simpl in Hn.
        -- left. lia.
        -- right. exists n, b. repeat split; auto. lia.
Qed.

Lemma where_nonzero_sorted m : forall i,
  StronglySorted Z.lt (where_nonzero i m).
Proof.
  induction m as [|c m IH]; intros i; simpl; [constructor|].
  destruct (byte_eqb c x00); [apply IH|].
  constructor; [apply IH|].
  apply Forall_forall. intros t Ht. apply where_nonzero_bounds in Ht. lia.
Qed.

Lemma int_in_In b l : int_in b l = true <-> In b l.
Proof.
  unfold int_in. rewrite existsb_exists. split.
  - intros (x & Hx & E). apply Z.eqb_eq in E. now subst.
  - intros H. exists b. split; [exact H|apply Z.eqb_refl].
Qed.

(** X1: [valid_next_tokens] lists exactly the indices at which the mask
    is not zero, in increasing order; so a byte is among the legal next
    tokens exactly when the mask is not zero at the byte's value. *)
Theorem valid_next_tokens_are_the_nonzero_indices (g : GenData) :
  (forall t, In t (valid_next_tokens g) <->
             exists n b, t = Z.of_nat n
                         /\ nth_error (mask g) n = Some b /\ b <> x00)
  /\ StronglySorted Z.lt (valid_next_tokens g)
  /\ (forall b, int_in (Z_of_byte b) (valid_next_tokens g) = true <->
                exists m, nth_error (mask g) (N.to_nat (Byte.to_N b)) = Some m
                          /\ m <> x00).
Proof.
  unfold valid_next_tokens. split; [|split].
  - intros t. rewrite where_nonzero_In. split.
    + intros (n & b & Hn & Hb & Ht). exists n, b. repeat split; auto.
    + intros (n & b & Ht & Hn & Hb). exists n, b. repeat split; auto.
  - apply where_nonzero_sorted.
  - intros b. rewrite int_in_In, where_nonzero_In. unfold Z_of_byte. split.
    + intros (n & m & Hn & Hm & Ht). exists m. split; [|exact Hm].
      replace (N.to_nat (Byte.to_N b)) with n by lia. exact Hn.
    + intros (m & Hn & Hm). exists (N.to_nat (Byte.to_N b)), m.
      repeat split; auto. lia.
Qed.

Lemma bytes_startswith_app (p s : pybytes) : bytes_startswith (p ++ s) p = true.
Proof.
  induction p as [|c p IH]; simpl; [reflexivity|].
  rewrite IH. unfold byte_eqb.
  now rewrite (Byte.byte_dec_lb (eq_refl c)).
Qed.

(** X2: with [ensure_bos_token] and a tokenizer that has a BOS token, the
    prompt that is encoded starts with the BOS token: a prompt that does
    not start with it is encoded as the BOS token followed by the
    prompt, and a prompt that starts with it already is encoded as it
    is, so the token is never doubled; without the flag or without a BOS
    token the prompt is encoded unchanged. The parser starts not done,
    with no pending backtrack or fast-forward tokens. *)
Theorem start_ensures_one_bos Interp (bos_token : option pybytes)
  (encode : pybytes -> list Z)
  (process_prompt : Interp -> list Z -> list Z * Interp)
  (interp : Interp) (prompt : pybytes) (ensure : bool) :
  match bos_token with
  | Some bos =>
      bytes_startswith (start_prompt bos_token prompt true) bos = true
      /\ (bytes_startswith prompt bos = true ->
          start_prompt bos_token prompt ensure = prompt)
      /\ (bytes_startswith prompt bos = false ->
          start_prompt bos_token prompt true = bos ++ prompt)
  | None => start_prompt bos_token prompt ensure = prompt
  end
  /\ start_prompt bos_token prompt false = prompt
  /\ start_prompt bos_token (start_prompt bos_token prompt ensure) ensure
     = start_prompt bos_token prompt ensure
  /\ (let p := LLParser_init bos_token encode process_prompt interp prompt
                             ensure in
      tokens (_state p)
        = fst (process_prompt interp
                 (encode (start_prompt bos_token prompt ensure)))
      /\ ff_tokens (_state p) = [] /\ backtrack (_state p) = 0%Z
      /\ done (_state p) = false).
Proof.
  unfold start_prompt, LLParser_init. split; [|split; [|split]].
  - destruct bos_token as [bos|]; [|reflexivity]. simpl. split; [|split].
    + destruct (bytes_startswith prompt bos) eqn:E; simpl; auto.
      apply bytes_startswith_app.
    + intros ->. now rewrite andb_false_r.
    + intros ->. reflexivity.
  - destruct bos_token; reflexivity.
  - destruct bos_token as [bos|]; [|reflexivity].
    destruct ensure; simpl; [|reflexivity].
    destruct (bytes_startswith prompt bos) eqn:E; simpl.
    + now rewrite E.
    + now rewrite bytes_startswith_app.
  - destruct (process_prompt interp _) as [tokens i']. simpl. auto.
Qed.

(** X2 for a prompt that starts with the BOS token already, and for one
    that does not. *)
Lemma start_ensures_one_bos_witness :
  start_prompt (Some [x3c; x73; x3e]) [x3c; x73; x3e; x61] true
  = [x3c; x73; x3e; x61]
  /\ start_prompt (Some [x3c; x73; x3e]) [x61] true
     = [x3c; x73; x3e; x61].
Proof.
  split.
  - pose proof (@start_ensures_one_bos unit (Some [x3c; x73; x3e])
                  (fun _ => []) (fun i t => (t, i)) tt
                  [x3c; x73; x3e; x61] true) as [(_ & H & _) _].
    apply H. reflexivity.
  - pose proof (@start_ensures_one_bos unit (Some [x3c; x73; x3e])
                  (fun _ => []) (fun i t => (t, i)) tt
                  [x61] true) as [(_ & _ & H) _].
    apply H. reflexivity.
Defined.

Section TokenProtocol.
Variable Interp : Type.
Variable mid_process :
  Interp -> Z -> list Z -> option pybytes * StepReport * Interp.
Implicit Types (self : LLParser Interp).

(** X3: when [advance] returns a [GenData], the parser waits for a token:
    the tokens are those before the step and those of the [GenData],
    nothing is pending, and [consume_token] accepts any token, appending
    it to the tokens and keeping it as the one fast-forward token of the
    next step. *)
Theorem advance_with_gen_data_waits_for_token self g response self' :
  advance mid_process self = Ok (Some g, response) self' ->
  tokens (_state self') = tokens (_state self)
  /\ gen_tokens g = tokens (_state self)
  /\ ff_tokens (_state self') = []
  /\ backtrack (_state self') = 0%Z
  /\ done (_state self') = false
  /\ forall tok_id,
       consume_token tok_id self'
       = Ok tt (set_state {| tokens := tokens (_state self) ++ [tok_id];
                             ff_tokens := [tok_id];
                             backtrack := 0%Z;
                             done := false |} self').
Proof.
  unfold advance, _advance, bind, get_state.
  destruct (mid_process (ll_interpreter self) (backtrack (_state self))
              (ff_tokens (_state self))) as [[m r] i'].
  unfold modify, ret, py_assert. destruct m as [m|].
  - destruct (rep_stop r) eqn:Hs; simpl; [discriminate|].
    destruct (Z.eqb_spec (rep_backtrack r) 0) as [Hb|Hb]; [|discriminate].
    destruct (rep_ff_tokens r) as [|x ff] eqn:Hf; [|discriminate].
    simpl. rewrite handle_progress_eq. intros H. inversion H; subst.
    simpl. repeat split; auto.
    intros tok_id. unfold consume_token, _consume_token, bind, get_state,
      py_assert, modify, ret. simpl. rewrite Hb. reflexivity.
  - simpl. rewrite handle_progress_eq. discriminate.
Qed.

(** X4: a token can be consumed only once per step. After a successful
    [consume_token] the interpreter is as it was and the token is pending,
    so a second [consume_token] fails the assertion and leaves the parser
    unchanged; and what the next [advance] does depends on the
    interpreter only through its answer to [mid_process(0, [tok_id])]. *)
Theorem consume_token_once_per_step self tok_id self' :
  consume_token tok_id self = Ok tt self' ->
  ll_interpreter self' = ll_interpreter self
  /\ (forall tok_id', consume_token tok_id' self' = Raise AssertionError self')
  /\ forall mid_process',
       mid_process' (ll_interpreter self) 0%Z [tok_id]
         = mid_process (ll_interpreter self) 0%Z [tok_id] ->
       advance mid_process' self' = advance mid_process self'.
Proof.
  unfold consume_token, _consume_token, bind, get_state, py_assert, modify,
    ret, raise.
  destruct (done (_state self)); simpl; [discriminate|].
  destruct (backtrack (_state self) =? 0)%Z; simpl; [|discriminate].
  destruct (List.length (ff_tokens (_state self)) =? 0); simpl;
    [|discriminate].
  intros H. inversion H; subst. simpl. split; [reflexivity|]. split.
  - intros tok_id'. reflexivity.
  - intros mid_process' E.
    unfold advance, _advance, bind, get_state. simpl. now rewrite E.
Qed.

End TokenProtocol.

(** X3 on a step that returns a mask. *)
Lemma advance_with_gen_data_waits_for_token_witness :
  consume_token 9%Z (parser_123 [])
  = Ok tt (set_state {| tokens := [1; 2; 3; 9]%Z; ff_tokens := [9%Z];
                        backtrack := 0%Z; done := false |} (parser_123 [])).
Proof.
  assert (advance (@scripted) (parser_123 [(Some [x01], report 0 [] false [])])
          = Ok (Some {| gen_tokens := [1; 2; 3]%Z; mask := [x01];
                        temperature := 0%float |},
                hp_response hp_init) (parser_123 [])) as E
    by (vm_compute; reflexivity).
  exact (proj2 (proj2 (proj2 (proj2 (proj2
           (advance_with_gen_data_waits_for_token (@scripted) _ E))))) 9%Z).
Defined.

(** X4 on the token 9 after three tokens. *)
Lemma consume_token_once_per_step_witness :
  consume_token 7%Z
    (set_state {| tokens := [1; 2; 3; 9]%Z; ff_tokens := [9%Z];
                  backtrack := 0%Z; done := false |} (parser_123 []))
  = Raise AssertionError
      (set_state {| tokens := [1; 2; 3; 9]%Z; ff_tokens := [9%Z];
                    backtrack := 0%Z; done := false |} (parser_123 [])).
Proof.
  apply (proj1 (proj2 (@consume_token_once_per_step _ (@scripted)
                         (parser_123 []) 9%Z _ eq_refl)) 7%Z).
Defined.

Lemma fold_hp_step_is_generated progress : forall s,
  hp_is_generated (fold_left hp_step progress s)
  = hp_is_generated s || existsb marks_generated progress.
Proof.
  induction progress as [|j r IH]; intros s; simpl.
  - now rewrite orb_false_r.
  - rewrite IH. destruct j; simpl.
    + now rewrite orb_true_r.
    + now rewrite orb_assoc.
    + reflexivity.
Qed.

Lemma fold_hp_step_filter_known progress : forall s,
  fold_left hp_step (filter is_known_event progress) s
  = fold_left hp_step progress s.
Proof.
  induction progress as [|j r IH]; intros s; simpl; [reflexivity|].
  destruct j; simpl; apply IH.
Qed.

(** X5: a step counts as generated exactly when its progress log holds a
    capture entry or a text entry flagged as generated; entries whose tag
    is neither ["capture"] nor ["text"] change nothing in the response. *)
Theorem progress_reducer_is_generated :
  forall (S : Type) (s : S) (progress : list progress_event),
  (exists r,
     _handle_progress progress s = Ok r s
     /\ is_generated r = existsb marks_generated progress)
  /\ _handle_progress (filter is_known_event progress) s
     = _handle_progress progress s.
Proof.
  intros S s progress. split.
  - eexists. split; [apply handle_progress_eq|].
    simpl. now rewrite fold_hp_step_is_generated.
  - rewrite !handle_progress_eq. now rewrite fold_hp_step_filter_known.
Qed.

Lemma dcontains_keys {V} (d : dict V) k :
  dcontains d k = existsb (String.eqb k) (PyDict.keys d).
Proof.
  unfold dcontains, PyDict.contains, PyDict.keys.
  induction d as [|[k' v] d IH]; simpl; [reflexivity|].
  destruct (String.eqb k k'); simpl; auto.
Qed.

Lemma keys_dset_same {A B} (d : dict A) (e : dict B) k v w :
  PyDict.keys d = PyDict.keys e ->
  PyDict.keys (dset d k v) = PyDict.keys (dset e k w).
Proof.
  intros H. rewrite !keys_dset, !dcontains_keys, H. reflexivity.
Qed.

Lemma fold_hp_step_keys progress : forall s,
  PyDict.keys (hp_capture_groups s)
    = PyDict.keys (hp_capture_group_log_probs s) ->
  PyDict.keys (hp_capture_groups (fold_left hp_step progress s))
  = PyDict.keys (hp_capture_group_log_probs (fold_left hp_step progress s)).
Proof.
  induction progress as [|j r IH]; intros s Hs; simpl; auto.
  apply IH. destruct j; simpl; auto. now apply keys_dset_same.
Qed.

Lemma replay_some {A} (ws : list (write_mode * A)) : forall c,
  replay ws (Some c) <> None.
Proof.
  unfold replay. induction ws as [|w ws IH]; intros c; simpl;
    [discriminate|apply IH].
Qed.

Lemma replay_none_iff {A} (ws : list (write_mode * A)) :
  replay ws None = None <-> ws = [].
Proof.
  split; [|intros ->; reflexivity].
  destruct ws as [|w ws]; [reflexivity|]. intros H. exfalso.
  apply (replay_some ws (capture_write None (fst w) (snd w))). exact H.
Qed.

(** X6: the two dictionaries of a response are parallel: they hold the
    same names in the same order, each once, a list against a list of the
    same length and a scalar against a scalar; and the names they hold
    are exactly those that a capture entry of the step writes. *)
Theorem progress_reducer_parallel_captures :
  forall (S : Type) (s : S) (progress : list progress_event),
  exists r,
    _handle_progress progress s = Ok r s
    /\ PyDict.keys (capture_groups r)
       = PyDict.keys (capture_group_log_probs r)
    /\ NoDup (PyDict.keys (capture_groups r))
    /\ in_sync (capture_groups r) (capture_group_log_probs r)
    /\ forall k, In k (PyDict.keys (capture_groups r))
                 <-> writes k progress <> [].
Proof.
  intros S s progress. eexists. split; [apply handle_progress_eq|].
  simpl. split; [|split; [|split]].
  - now apply fold_hp_step_keys.
  - apply fold_hp_step_NoDup. constructor.
  - apply fold_hp_step_in_sync, in_sync_nil.
  - intros k. rewrite dget_In_keys.
    destruct (fold_hp_step_captures k progress hp_init) as (Hv & _).
    simpl in Hv. rewrite Hv. rewrite replay_none_iff.
    unfold values_of. split; intros H E; apply H.
    + now rewrite E.
    + now destruct (writes k progress).
Qed.

(* ================================================================== *)
(** * Further properties of the byte parser *)

Lemma raises_only_run {S A} (E : exn -> Prop) (c : M S A) s e s' :
  raises_only E c -> c s = Raise e s' -> E e.
Proof. intros [H] Hc. specialize (H s). now rewrite Hc in H. Qed.

Lemma raises_only_ret {S A} (E : exn -> Prop) (a : A) :
  raises_only E (@ret S A a).
Proof. constructor. intros s. exact I. Qed.

Lemma raises_only_raise {S A} (E : exn -> Prop) e :
  E e -> raises_only E (@raise S A e).
Proof. intros H. constructor. intros s. exact H. Qed.

Lemma raises_only_get_state {S} (E : exn -> Prop) :
  raises_only E (@get_state S).
Proof. constructor. intros s. exact I. Qed.

Lemma raises_only_modify {S} (E : exn -> Prop) (f : S -> S) :
  raises_only E (modify f).
Proof. constructor. intros s. exact I. Qed.

Lemma raises_only_lift {S A} (E : exn -> Prop) (r : result A) :
  (forall e, r = Exc e -> E e) -> raises_only E (@lift S A r).
Proof.
  intros H. destruct r; [apply raises_only_ret|].
  apply raises_only_raise. now apply H.
Qed.

Lemma raises_only_bind {S A B} (E : exn -> Prop) (c : M S A)
  (k : A -> M S B) :
  raises_only E c -> (forall a, raises_only E (k a)) ->
  raises_only E (bind c k).
Proof.
  intros [Hc] Hk. constructor. intros s. unfold bind. specialize (Hc s).
  destruct (c s) as [a s'|e s'|]; auto.
  destruct (Hk a) as [Hk']. apply Hk'.
Qed.

Lemma raises_only_for_each {S A} (E : exn -> Prop) (l : list A)
  (body : A -> M S unit) :
  (forall x, raises_only E (body x)) -> raises_only E (for_each l body).
Proof.
  intros Hb. induction l as [|x l IH]; simpl.
  - apply raises_only_ret.
  - apply raises_only_bind; auto.
Qed.

Lemma raises_only_py_assert {S} b :
  raises_only not_parser_exception (@py_assert S b).
Proof.
  destruct b; [apply raises_only_ret|now apply raises_only_raise].
Qed.

Ltac no_parser_exception :=
  repeat match goal with
    | |- raises_only _ (ret _) => apply raises_only_ret
    | |- raises_only _ (raise _) => apply raises_only_raise; reflexivity
    | |- raises_only _ get_state => apply raises_only_get_state
    | |- raises_only _ (modify _) => apply raises_only_modify
    | |- raises_only _ (py_assert _) => apply raises_only_py_assert
    | |- raises_only _ (for_each _ _) => apply raises_only_for_each; intros
    | |- raises_only _ (bind _ _) => apply raises_only_bind; [|intros]
    | |- raises_only _ (match ?x with _ => _ end) => destruct x
    end.

Lemma list_append_exn {A} (d : dict (capture A)) k x e :
  list_append d k x = Exc e -> not_parser_exception e.
Proof.
  unfold list_append. destruct (dget d k) as [[|]|]; intros H;
    inversion H; reflexivity.
Qed.

Lemma the_list_exn {A} (d : dict (capture A)) k e :
  the_list d k = Exc e -> not_parser_exception e.
Proof.
  unfold the_list. destruct (dget d k) as [[|]|]; intros H;
    inversion H; reflexivity.
Qed.

Lemma subscript_exn {V} (d : dict V) k e :
  subscript d k = Exc e -> not_parser_exception e.
Proof.
  unfold subscript. destruct (dget d k); intros H; inversion H; reflexivity.
Qed.

Lemma subscript2_exn {A} (d : dict (capture A)) k i e :
  subscript2 d k i = Exc e -> not_parser_exception e.
Proof.
  unfold subscript2. destruct (dget d k) as [[|l]|];
    [| destruct (nth_error l i) |]; intros H; inversion H; reflexivity.
Qed.

Section ByteParserFrames.
Variable Interp : Type.
Variable mid_process :
  Interp -> Z -> list Z -> option pybytes * StepReport * Interp.
Implicit Types self : ByteParser Interp.

Lemma handle_progress_raises_nothing {S} progress :
  raises_only not_parser_exception (@_handle_progress S progress).
Proof.
  constructor. intros s. now rewrite handle_progress_eq.
Qed.

Lemma advance_no_parser_exception :
  raises_only not_parser_exception (advance mid_process).
Proof.
  unfold advance, _advance.
  apply raises_only_bind; [apply raises_only_get_state|]. intros self.
  apply raises_only_bind.
  - apply raises_only_bind; [apply raises_only_get_state|]. intros self0.
    destruct (mid_process (ll_interpreter self0) (backtrack (_state self))
                (ff_tokens (_state self))) as [[m r] i'].
    apply raises_only_bind; [apply raises_only_modify|]. intros _.
    apply raises_only_bind.
    + destruct m; no_parser_exception.
    + intros [tokens g].
      apply raises_only_bind; [apply handle_progress_raises_nothing|].
      intros response. apply raises_only_ret.
  - intros [[g response] st]. no_parser_exception.
Qed.

Lemma on_ll_parser_raises_only {A} E (c : M (LLParser Interp) A) :
  raises_only E c -> raises_only E (on_ll_parser c).
Proof.
  intros [H]. constructor. intros self. unfold on_ll_parser.
  specialize (H (ll_parser self)). destruct (c (ll_parser self)); auto.
Qed.

Lemma update_capture_no_parser_exception response :
  raises_only not_parser_exception
    (@_update_capture Interp response).
Proof.
  unfold _update_capture, update_capture_key.
  apply raises_only_for_each. intros k.
  apply raises_only_bind;
    [apply raises_only_lift; intros e; apply subscript_exn|].
  intros [v|v].
  - apply raises_only_bind; [apply raises_only_modify|]. intros _.
    apply raises_only_bind;
      [apply raises_only_lift; intros e; apply subscript_exn|].
    intros lp. apply raises_only_modify.
  - apply raises_only_for_each. intros [i x]. unfold update_capture_item.
    apply raises_only_bind; [apply raises_only_get_state|]. intros self.
    apply raises_only_bind.
    { destruct (not_a_list (_variables self) k); no_parser_exception. }
    intros _. apply raises_only_bind; [apply raises_only_get_state|].
    intros self0. apply raises_only_bind;
      [apply raises_only_lift; intros e; apply list_append_exn|].
    intros d. apply raises_only_bind; [apply raises_only_modify|].
    intros _. apply raises_only_bind; [apply raises_only_get_state|].
    intros self1. apply raises_only_bind;
      [apply raises_only_lift; intros e; apply the_list_exn|].
    intros l. apply raises_only_bind;
      [apply raises_only_lift; intros e; apply subscript2_exn|].
    intros y. apply raises_only_modify.
Qed.

(** The loop of [consume_bytes] raises no byte-mismatch error. *)
Lemma advance_loop_no_parser_exception fuel :
  raises_only not_parser_exception (advance_loop mid_process fuel).
Proof.
  induction fuel as [|fuel IH]; constructor; intros self;
    cbn [advance_loop];
    destruct (gen_data self), (parser_done (ll_parser self)); try exact I.
  assert (raises_only not_parser_exception
    (r <- on_ll_parser (advance mid_process) ;;
     let '(g, response) := r in
     modify (set_gen_data g) ;;;
     _update_capture response ;;;
     modify (fun self => set_bytes (bytes self ++ new_bytes response) self) ;;;
     advance_loop mid_process fuel)) as [H].
  { apply raises_only_bind.
    - apply on_ll_parser_raises_only, advance_no_parser_exception.
    - intros [g response].
      apply raises_only_bind; [apply raises_only_modify|]. intros _.
      apply raises_only_bind;
        [apply update_capture_no_parser_exception|]. intros _.
      apply raises_only_bind; [apply raises_only_modify|]. intros _.
      exact IH. }
  apply H.
Qed.

Lemma preserves_update_capture_on_cursor Q response :
  preserves (@on_cursor Interp Q) (_update_capture response).
Proof.
  unfold _update_capture, update_capture_key, update_capture_item.
  preserve.
Qed.

Lemma preserves_on_ll_parser_on_cursor {A} Q (c : M (LLParser Interp) A) :
  preserves (@on_cursor Interp Q) (on_ll_parser c).
Proof.
  constructor. intros self H. unfold on_ll_parser.
  destruct (c (ll_parser self)); simpl; try exact H; exact I.
Qed.

Lemma preserves_advance_loop_on_cursor (Q : nat -> pybytes -> Prop) fuel :
  (forall p b x, Q p b -> Q p (b ++ x)) ->
  preserves (@on_cursor Interp Q) (advance_loop mid_process fuel).
Proof.
  intros Happ.
  induction fuel as [|fuel IH]; constructor; intros self H;
    cbn [advance_loop];
    destruct (gen_data self), (parser_done (ll_parser self));
    try exact H; try exact I.
  apply preserves_run; [|exact H].
  apply preserves_bind; [apply preserves_on_ll_parser_on_cursor|].
  intros [g response].
  preserve; auto using preserves_update_capture_on_cursor.
  apply preserves_modify. intros self' H'.
  unfold on_cursor in *. simpl. now apply Happ.
Qed.

Lemma preserves_consume_bytes_on_cursor (Q : nat -> pybytes -> Prop) fuel :
  (forall p b x, Q p b -> Q p (b ++ x)) ->
  (forall p b, Q p b -> p < List.length b -> Q (p + 1) b) ->
  forall bts,
    preserves (@on_cursor Interp Q) (consume_bytes mid_process fuel bts).
Proof.
  intros Happ Hstep.
  induction fuel as [|fuel IH]; intros bts; simpl.
  - constructor. intros self H. exact I.
  - apply preserves_bind;
      [now apply preserves_advance_loop_on_cursor|]. intros _.
    destruct bts as [|b rest]; [apply preserves_ret|].
    constructor. intros self H. unfold bind at 1, get_state at 1.
    destruct (Nat.ltb_spec (pos self) (List.length (bytes self))) as [Hlt|Hge].
    + unfold bind at 1, lift, index.
      destruct (nth_error (bytes self) (pos self)); [|exact H].
      unfold ret. destruct (negb (byte_eqb b b0)); [exact H|].
      unfold bind at 1, modify. apply preserves_run; [apply IH|].
      unfold on_cursor in *. simpl. now apply Hstep.
    + unfold bind at 1.
      destruct (gen_data self) as [g|]; [|exact H]. unfold ret.
      destruct (negb (int_in (Z_of_byte b) (valid_next_tokens g))).
      * unfold bind, lift.
        destruct (bytes_of_tokens (valid_next_tokens g)); exact H.
      * apply preserves_run; [|exact H].
        preserve; auto using preserves_on_ll_parser_on_cursor.
Qed.

Lemma preserves_matched_on_cursor (Q : nat -> pybytes -> Prop) fuel :
  (forall p b x, Q p b -> Q p (b ++ x)) ->
  (forall p b, Q p b -> p < List.length b -> Q (p + 1) b) ->
  preserves (@on_cursor Interp Q) (matched mid_process fuel).
Proof.
  intros Happ Hstep. unfold matched.
  apply preserves_bind; [apply preserves_get_state|]. intros self.
  destruct (pos self <? List.length (bytes self))%nat; [apply preserves_ret|].
  apply preserves_bind.
  - destruct (negb (parser_done (ll_parser self)));
      [now apply preserves_consume_bytes_on_cursor|apply preserves_ret].
  - intros _. preserve.
Qed.

(** X7: the committed buffer is never rewritten and the cursor never
    moves back or past it. Whether [consume_bytes] or [matched] returns
    or raises, the buffer afterwards is the buffer before with bytes
    appended, and the cursor is between its old position and the end of
    the buffer. *)
Theorem buffer_only_grows fuel bts self :
  cursor_in_buffer self ->
  kept (fun self' =>
          pos self <= pos self' <= List.length (bytes self')
          /\ exists extra, bytes self' = bytes self ++ extra)
       (consume_bytes mid_process fuel bts self)
  /\ kept (fun self' =>
          pos self <= pos self' <= List.length (bytes self')
          /\ exists extra, bytes self' = bytes self ++ extra)
       (matched mid_process fuel self).
Proof.
  intros Hc.
  set (Q := fun (p : nat) (b : pybytes) =>
              pos self <= p <= List.length b
              /\ exists extra, b = bytes self ++ extra).
  assert (forall p b x, Q p b -> Q p (b ++ x)) as Happ.
  { intros p b x [Hp [ex ->]]. split.
    - rewrite length_app. lia.
    - exists (ex ++ x). now rewrite app_assoc. }
  assert (forall p b, Q p b -> p < List.length b -> Q (p + 1) b) as Hstep.
  { intros p b [Hp Hex] Hlt. split; [lia|exact Hex]. }
  assert (on_cursor Q self) as H0.
  { unfold on_cursor, Q. unfold cursor_in_buffer in Hc. split; [lia|].
    exists []. now rewrite app_nil_r. }
  split.
  - apply (@preserves_run _ _ (on_cursor Q)); [|exact H0].
    now apply preserves_consume_bytes_on_cursor.
  - apply (@preserves_run _ _ (on_cursor Q)); [|exact H0].
    now apply preserves_matched_on_cursor.
Qed.

End ByteParserFrames.

Lemma firstn_succ_nth {A} (l : list A) : forall n c,
  nth_error l n = Some c -> firstn (n + 1) l = firstn n l ++ [c].
Proof.
  induction l as [|x l IH]; intros n c H.
  - destruct n; discriminate.
  - destruct n as [|n]; simpl in *.
    + now inversion H.
    + f_equal. now apply IH.
Qed.

Lemma mismatch_report_other {Interp} (self : ByteParser Interp) bts e self' :
  not_parser_exception e -> mismatch_report self bts e self'.
Proof. destruct e; simpl; auto. discriminate. Qed.

Lemma bytes_of_tokens_exn ts e :
  bytes_of_tokens ts = Exc e -> not_parser_exception e.
Proof.
  induction ts as [|t ts IH]; simpl; [discriminate|].
  destruct (byte_of_Z t); [|intros H; inversion H; reflexivity].
  destruct (bytes_of_tokens ts); [discriminate|].
  intros H. inversion H; subst. now apply IH.
Qed.

Lemma bytes_of_tokens_In ts : forall l b,
  bytes_of_tokens ts = Ret l -> In (PyBytes [b]) l -> In (Z_of_byte b) ts.
Proof.
  induction ts as [|t ts IH]; simpl; intros l b H Hin.
  - inversion H; subst. destruct Hin.
  - unfold byte_of_Z in H. destruct (t <? 0)%Z eqn:Et; [discriminate|].
    destruct (Byte.of_N (Z.to_N t)) as [c|] eqn:Ec; [|discriminate].
    destruct (bytes_of_tokens ts) as [l'|]; [|discriminate].
    inversion H; subst. destruct Hin as [Hin|Hin].
    + left. inversion Hin; subst. apply Byte.to_of_N in Ec.
      unfold Z_of_byte. rewrite Ec. apply Z.ltb_ge in Et. lia.
    + right. eapply IH; eauto.
Qed.

Lemma bytes_of_tokens_no_int ts : forall l n,
  bytes_of_tokens ts = Ret l -> ~ In (PyInt n) l.
Proof.
  induction ts as [|t ts IH]; simpl; intros l n H Hin.
  - inversion H; subst. destruct Hin.
  - destruct (byte_of_Z t); [|discriminate].
    destruct (bytes_of_tokens ts) as [l'|]; [|discriminate].
    inversion H; subst. destruct Hin as [Hin|Hin]; [discriminate|].
    eapply IH; eauto.
Qed.

Section ConsumeBytes.
Variable Interp : Type.
Variable mid_process :
  Interp -> Z -> list Z -> option pybytes * StepReport * Interp.
Implicit Types self : ByteParser Interp.

Lemma advance_loop_ready fuel : forall self s1,
  advance_loop mid_process fuel self = Ok tt s1 -> ready s1.
Proof.
  induction fuel as [|fuel IH]; intros self s1; cbn [advance_loop];
    destruct (gen_data self) eqn:Eg;
    destruct (parser_done (ll_parser self)) eqn:Ed;
    try (intros H; inversion H; subst; unfold ready; congruence).
  unfold bind.
  destruct (on_ll_parser (advance mid_process) self)
    as [[g response] s2|e s2|]; try discriminate.
  unfold modify.
  destruct (_update_capture response (set_gen_data g s2))
    as [[] s3|e s3|]; try discriminate.
  apply IH.
Qed.

Lemma advance_loop_frame fuel self s1 :
  advance_loop mid_process fuel self = Ok tt s1 ->
  pos s1 = pos self
  /\ (exists extra, bytes s1 = bytes self ++ extra)
  /\ ready s1.
Proof.
  intros H.
  set (Q := fun (p : nat) (b : pybytes) =>
              p = pos self /\ exists extra, b = bytes self ++ extra).
  assert (preserves (@on_cursor Interp Q) (advance_loop mid_process fuel))
    as [P].
  { apply preserves_advance_loop_on_cursor.
    intros p b x [Hp [ex ->]]. split; [exact Hp|].
    exists (ex ++ x). now rewrite app_assoc. }
  specialize (P self). rewrite H in P. simpl in P.
  destruct P as [Hp Hb].
  { split; [reflexivity|]. exists []. now rewrite app_nil_r. }
  split; [exact Hp|]. split; [exact Hb|].
  eapply advance_loop_ready; eauto.
Qed.

Lemma consumed_upto_nil self s1 :
  cursor_in_buffer self ->
  pos s1 = pos self -> (exists extra, bytes s1 = bytes self ++ extra) ->
  consumed_upto self s1 [].
Proof.
  unfold cursor_in_buffer, consumed_upto. intros Hc Hp [ex Hb].
  rewrite Hp, Hb, app_nil_r, Nat.add_0_r. split; [reflexivity|].
  rewrite firstn_app.
  replace (pos self - List.length (bytes self)) with 0 by lia.
  simpl. now rewrite app_nil_r.
Qed.

Lemma consumed_upto_refl self : consumed_upto self self [].
Proof. unfold consumed_upto. now rewrite Nat.add_0_r, app_nil_r. Qed.

Lemma consumed_upto_trans self s1 s2 pre1 pre2 :
  consumed_upto self s1 pre1 -> consumed_upto s1 s2 pre2 ->
  consumed_upto self s2 (pre1 ++ pre2).
Proof.
  unfold consumed_upto. intros [P1 F1] [P2 F2].
  rewrite length_app. split; [lia|]. rewrite F2, F1. now rewrite app_assoc.
Qed.

Lemma mismatch_report_shift self s1 pre bts e s' :
  consumed_upto self s1 pre ->
  mismatch_report s1 bts e s' ->
  mismatch_report self (pre ++ bts) e s'.
Proof.
  intros Hc. destruct e; simpl; auto.
  intros (pre' & b & rest & -> & Hcur & Hup & Hcons & Hi & Hb).
  exists (pre ++ pre'), b, rest. rewrite app_assoc.
  split; [reflexivity|]. split; [exact Hcur|].
  split; [eapply consumed_upto_trans; eauto|].
  split; [exact Hcons|]. split; assumption.
Qed.

Lemma consume_outcome_shift self s1 pre bts out :
  consumed_upto self s1 pre ->
  consume_outcome s1 bts out ->
  consume_outcome self (pre ++ bts) out.
Proof.
  intros Hc. destruct out as [[] s'|e s'|]; simpl; auto.
  - intros [Hup Hr]. split; [|exact Hr]. eapply consumed_upto_trans; eauto.
  - now apply mismatch_report_shift.
Qed.

Lemma consume_token_no_parser_exception tok_id :
  raises_only not_parser_exception (@consume_token Interp tok_id).
Proof.
  unfold consume_token, _consume_token. no_parser_exception.
Qed.

(** What [consume_bytes] comes to, whatever the interpreter answers. *)
Lemma consume_bytes_outcome fuel : forall bts self,
  cursor_in_buffer self ->
  consume_outcome self bts (consume_bytes mid_process fuel bts self).
Proof.
  induction fuel as [|fuel IH]; intros bts self Hc; [exact I|].
  cbn [consume_bytes]. unfold bind at 1.
  destruct (advance_loop mid_process fuel self) as [[] s1|e s1|] eqn:El;
    [| |exact I].
  2:{ simpl. apply mismatch_report_other.
      eapply raises_only_run;
        [apply advance_loop_no_parser_exception|exact El]. }
  destruct (@advance_loop_frame fuel self s1 El) as (Hp & Hb & Hr).
  pose proof (@consumed_upto_nil self s1 Hc Hp Hb) as H0.
  assert (cursor_in_buffer s1) as Hc1.
  { unfold cursor_in_buffer in *. destruct Hb as [ex Hb].
    rewrite Hp, Hb, length_app. lia. }
  destruct bts as [|b rest].
  { simpl. split; assumption. }
  change (b :: rest) with ([] ++ b :: rest).
  apply consume_outcome_shift with (s1 := s1); [exact H0|]. clear H0.
  unfold bind at 1, get_state at 1.
  destruct (Nat.ltb_spec (pos s1) (List.length (bytes s1))) as [Hlt|Hge].
  - unfold bind at 1, lift, index.
    destruct (nth_error (bytes s1) (pos s1)) as [c|] eqn:Ec.
    2:{ apply nth_error_None in Ec. lia. }
    unfold ret. destruct (byte_eqb b c) eqn:Ebc; cbn [negb].
    + apply Byte.byte_dec_bl in Ebc. subst c.
      unfold bind at 1, modify.
      change (b :: rest) with ([b] ++ rest).
      apply consume_outcome_shift with (s1 := set_pos (pos s1 + 1) s1).
      * unfold consumed_upto. simpl. split; [reflexivity|].
        now apply firstn_succ_nth.
      * apply IH. unfold cursor_in_buffer. simpl. lia.
    + simpl. exists [], b, rest.
      split; [reflexivity|]. split; [reflexivity|].
      split; [apply consumed_upto_refl|]. split; [reflexivity|]. split.
      * intros [H|[]]. inversion H as [H1].
        unfold Z_of_byte in H1. apply byte_eqb_false_iff in Ebc.
        apply Ebc. apply (f_equal Z.to_N) in H1. rewrite !N2Z.id in H1.
        apply (f_equal Byte.of_N) in H1. rewrite !Byte.of_to_N in H1.
        now inversion H1.
      * intros [H|[]]. discriminate.
  - unfold bind at 1.
    destruct (gen_data s1) as [g|]; [|exact I]. unfold ret.
    destruct (int_in (Z_of_byte b) (valid_next_tokens g)) eqn:Ein;
      cbn [negb].
    + unfold bind at 1.
      destruct (on_ll_parser (consume_token (Z_of_byte b)) s1)
        as [[] s2|e s2|] eqn:Et; [| |exact I].
      * unfold bind at 1, modify.
        change (b :: rest) with ([] ++ b :: rest).
        apply consume_outcome_shift with (s1 := set_gen_data None s2).
        -- unfold on_ll_parser in Et.
           destruct (consume_token (Z_of_byte b) (ll_parser s1));
             inversion Et; subst.
           unfold consumed_upto. simpl.
           now rewrite Nat.add_0_r, app_nil_r.
        -- apply IH. unfold on_ll_parser in Et.
           destruct (consume_token (Z_of_byte b) (ll_parser s1));
             inversion Et; subst. exact Hc1.
      * simpl. apply mismatch_report_other.
        eapply raises_only_run; [|exact Et].
        apply on_ll_parser_raises_only, consume_token_no_parser_exception.
    + unfold bind, lift.
      destruct (bytes_of_tokens (valid_next_tokens g)) as [vnb|e] eqn:Ev.
      * simpl. exists [], b, rest.
        split; [reflexivity|]. split; [reflexivity|].
        split; [apply consumed_upto_refl|]. split; [reflexivity|]. split.
        -- eapply bytes_of_tokens_no_int; eauto.
        -- intros Hin. eapply bytes_of_tokens_In in Hin; eauto.
           apply int_in_In in Hin. congruence.
      * simpl. apply mismatch_report_other.
        eapply bytes_of_tokens_exn; eauto.
Qed.

End ConsumeBytes.

Section ConsumeBytesProperties.
Variable Interp : Type.
Variable mid_process :
  Interp -> Z -> list Z -> option pybytes * StepReport * Interp.
Implicit Types self : ByteParser Interp.

(** X8: when [consume_bytes(bts)] returns, the cursor has advanced by
    exactly [len(bts)] and the committed buffer holds [bts] at the old
    cursor: the bytes up to the new cursor are the bytes up to the old one
    followed by [bts]. The parser is then not in the middle of a step: a
    mask is pending or the token parser is done. *)
Theorem consume_bytes_commits_its_input fuel bts self self' :
  cursor_in_buffer self ->
  consume_bytes mid_process fuel bts self = Ok tt self' ->
  pos self' = pos self + List.length bts
  /\ firstn (pos self') (bytes self') = firstn (pos self) (bytes self) ++ bts
  /\ (gen_data self' = None -> parser_done (ll_parser self') = true).
Proof.
  intros Hc H. pose proof (consume_bytes_outcome mid_process fuel bts Hc) as O.
  rewrite H in O. destruct O as [[Hp Hf] Hr]. auto.
Qed.

(** X9: a byte-mismatch error of [consume_bytes(bts)] is raised at the
    first byte of [bts] that cannot be consumed: [current_byte] is that
    byte, every byte of [bts] before it has been consumed, the cursor
    stands right after them, [consumed_bytes] is the whole committed
    buffer, and the byte is not among [allowed_bytes], neither as an
    [int] nor as a one-byte [bytes]. The empty input raises no such
    error. *)
Theorem byte_mismatch_is_at_first_bad_byte fuel bts self cur al cons self' :
  cursor_in_buffer self ->
  consume_bytes mid_process fuel bts self
    = Raise (ParserException cur al cons) self' ->
  exists pre b rest,
    bts = pre ++ b :: rest
    /\ cur = Z_of_byte b
    /\ pos self' = pos self + List.length pre
    /\ firstn (pos self') (bytes self') = firstn (pos self) (bytes self) ++ pre
    /\ cons = bytes self'
    /\ ~ In (PyInt cur) al /\ ~ In (PyBytes [b]) al.
Proof.
  intros Hc H. pose proof (consume_bytes_outcome mid_process fuel bts Hc) as O.
  rewrite H in O. simpl in O.
  destruct O as (pre & b & rest & Hb & Hcur & [Hp Hf] & Hcons & Hi & Hy).
  exists pre, b, rest. auto 10.
Qed.

(** X10: after [consume_bytes] has returned, [matched()] reads the state
    and changes nothing: it answers whether the cursor is at the end of
    the committed buffer and the token parser is done, without calling
    the interpreter. *)
Theorem matched_after_consume_bytes fuel bts self self' fuel' :
  cursor_in_buffer self ->
  consume_bytes mid_process fuel bts self = Ok tt self' ->
  matched mid_process (S fuel') self'
  = Ok ((pos self' =? List.length (bytes self'))%nat
        && parser_done (ll_parser self')) self'.
Proof.
  intros Hc H.
  pose proof (consume_bytes_outcome mid_process fuel bts Hc) as O.
  rewrite H in O. destruct O as [_ Hr].
  pose proof (@preserves_run _ _ _ _ self
                (@preserves_consume_bytes _ mid_process fuel bts) Hc) as Hle.
  rewrite H in Hle. unfold kept, cursor_in_buffer in Hle.
  unfold matched, bind at 1, get_state at 1.
  destruct (Nat.ltb_spec (pos self') (List.length (bytes self'))) as [Hlt|Hge].
  - unfold ret. destruct (Nat.eqb_spec (pos self') (List.length (bytes self')));
      [lia|reflexivity].
  - assert (pos self' = List.length (bytes self')) as Heq by lia.
    rewrite Heq, Nat.eqb_refl. simpl andb.
    destruct (parser_done (ll_parser self')) eqn:Hd; simpl negb; cbv iota.
    + unfold bind, ret, get_state. now rewrite Hd.
    + unfold bind at 1. cbn [consume_bytes]. unfold bind at 1.
      destruct (gen_data self') as [g|] eqn:Hg.
      2:{ unfold ready in Hr. rewrite Hr in Hd by assumption. discriminate. }
      assert (advance_loop mid_process fuel' self' = Ok tt self') as El.
      { destruct fuel'; cbn [advance_loop]; now rewrite Hg. }
      rewrite El. unfold ret, bind, get_state. now rewrite Hd.
Qed.

End ConsumeBytesProperties.

(** X11: once the token parser is done, [consume_bytes] does not call the
    interpreter any more: its outcome is the same for every interpreter,
    and it leaves the token parser, the buffer and the captures as they
    are, only moving the cursor. *)
Theorem done_parser_is_not_advanced Interp
  (mid_process mid_process' :
     Interp -> Z -> list Z -> option pybytes * StepReport * Interp)
  fuel : forall bts (self : ByteParser Interp),
  parser_done (ll_parser self) = true ->
  consume_bytes mid_process fuel bts self
    = consume_bytes mid_process' fuel bts self
  /\ kept (fun self' =>
             ll_parser self' = ll_parser self
             /\ bytes self' = bytes self
             /\ get_captures self' = get_captures self)
          (consume_bytes mid_process fuel bts self).
Proof.
  induction fuel as [|fuel IH]; intros bts self Hd; [split; [reflexivity|exact I]|].
  assert (forall mp, advance_loop mp fuel self = Ok tt self) as El.
  { intros mp. destruct fuel; cbn [advance_loop]; rewrite Hd;
      destruct (gen_data self); reflexivity. }
  cbn [consume_bytes].
  unfold bind, get_state, lift, ret, raise, modify.
  rewrite (El mid_process), (El mid_process').
  destruct bts as [|b rest]; [split; [reflexivity|simpl; auto]|].
  destruct (pos self <? List.length (bytes self))%nat.
  - destruct (index (bytes self) (pos self)) as [c|e];
      [|split; [reflexivity|simpl; auto]].
    destruct (negb (byte_eqb b c));
      [split; [reflexivity|simpl; auto]|].
    destruct (IH rest (set_pos (pos self + 1) self) Hd) as [E K].
    split; [exact E|exact K].
  - destruct (gen_data self) as [g|]; [|split; [reflexivity|simpl; auto]].
    destruct (negb (int_in (Z_of_byte b) (valid_next_tokens g))).
    + destruct (bytes_of_tokens (valid_next_tokens g));
        split; try reflexivity; simpl; auto.
    + assert (on_ll_parser (consume_token (Z_of_byte b)) self
              = Raise AssertionError (set_ll_parser (ll_parser self) self))
        as Et.
      { unfold on_ll_parser, consume_token, _consume_token, bind, get_state,
          py_assert, raise. unfold parser_done in Hd. now rewrite Hd. }
      rewrite Et. split; [reflexivity|simpl; auto].
Qed.

(** X7 on the parser of ["ab"] fed ["ac"], whose second byte is refused. *)
Lemma buffer_only_grows_witness :
  cursor_in_buffer (fresh_parser forced_ab)
  /\ kept (fun self' =>
             pos (fresh_parser forced_ab) <= pos self'
               <= List.length (bytes self')
             /\ exists extra,
                 bytes self' = bytes (fresh_parser forced_ab) ++ extra)
          (consume_bytes (@scripted) 5 [x61; x63] (fresh_parser forced_ab)).
Proof.
  assert (cursor_in_buffer (fresh_parser forced_ab)) as H
    by (unfold cursor_in_buffer; simpl; apply le_n).
  split; [exact H|].
  exact (proj1 (@buffer_only_grows _ (@scripted) 5 [x61; x63]
                  (fresh_parser forced_ab) H)).
Defined.

(** X8 on the parser of ["ab"] fed ["a"]. *)
Lemma consume_bytes_commits_its_input_witness :
  exists self',
    consume_bytes (@scripted) 5 [x61] (fresh_parser forced_ab) = Ok tt self'
    /\ pos self' = pos (fresh_parser forced_ab) + 1
    /\ firstn (pos self') (bytes self')
       = firstn (pos (fresh_parser forced_ab))
                (bytes (fresh_parser forced_ab)) ++ [x61]
    /\ (gen_data self' = None -> parser_done (ll_parser self') = true).
Proof.
  assert (cursor_in_buffer (fresh_parser forced_ab)) as H
    by (unfold cursor_in_buffer; simpl; apply le_n).
  eexists. split; [vm_compute; reflexivity|].
  apply (@consume_bytes_commits_its_input _ (@scripted) 5 [x61]
           (fresh_parser forced_ab) _ H).
  vm_compute; reflexivity.
Defined.

(** X9 on the parser of ["ab"] fed ["ac"]. *)
Lemma byte_mismatch_is_at_first_bad_byte_witness :
  exists self',
    consume_bytes (@scripted) 5 [x61; x63] (fresh_parser forced_ab)
    = Raise (ParserException 99 [PyInt 98] [x61; x62]) self'
    /\ exists pre b rest,
         [x61; x63] = pre ++ b :: rest
         /\ 99%Z = Z_of_byte b
         /\ pos self' = pos (fresh_parser forced_ab) + List.length pre
         /\ firstn (pos self') (bytes self')
            = firstn (pos (fresh_parser forced_ab))
                     (bytes (fresh_parser forced_ab)) ++ pre
         /\ [x61; x62] = bytes self'
         /\ ~ In (PyInt 99) [PyInt 98] /\ ~ In (PyBytes [b]) [PyInt 98].
Proof.
  assert (cursor_in_buffer (fresh_parser forced_ab)) as H
    by (unfold cursor_in_buffer; simpl; apply le_n).
  eexists. split; [vm_compute; reflexivity|].
  apply (@byte_mismatch_is_at_first_bad_byte _ (@scripted) 5 [x61; x63]
           (fresh_parser forced_ab) 99%Z [PyInt 98] [x61; x62] _ H).
  vm_compute; reflexivity.
Defined.

(** X10 on the parser of ["ab"] fed ["ab"]. *)
Lemma matched_after_consume_bytes_witness :
  exists self',
    consume_bytes (@scripted) 5 [x61; x62] (fresh_parser forced_ab)
    = Ok tt self'
    /\ matched (@scripted) 1 self'
       = Ok ((pos self' =? List.length (bytes self'))%nat
             && parser_done (ll_parser self')) self'.
Proof.
  assert (cursor_in_buffer (fresh_parser forced_ab)) as H
    by (unfold cursor_in_buffer; simpl; apply le_n).
  eexists. split; [vm_compute; reflexivity|].
  apply (@matched_after_consume_bytes _ (@scripted) 5 [x61; x62]
           (fresh_parser forced_ab) _ 0 H).
  vm_compute; reflexivity.
Defined.

(** X11 on a parser whose token parser is done, with the scripted
    interpreter and with one that always offers a mask. *)
Lemma done_parser_is_not_advanced_witness :
  parser_done (ll_parser finished_parser) = true
  /\ consume_bytes (@scripted) 5 [x61] finished_parser
     = consume_bytes (fun i _ _ => (Some [x01], report 0 [] false [], i))
                     5 [x61] finished_parser.
Proof.
  assert (parser_done (ll_parser finished_parser) = true) as H
    by reflexivity.
  split; [exact H|].
  exact (proj1 (@done_parser_is_not_advanced _ (@scripted)
                  (fun i _ _ => (Some [x01], report 0 [] false [], i))
                  5 [x61] finished_parser H)).
Defined.

(* ================================================================== *)
(** * Further properties of the generation-state tree *)

Lemma dpop_None {V} (d : dict V) k : dpop d k = None <-> dget d k = None.
Proof.
  unfold dpop, dget. induction d as [|[k' v] d IH]; simpl; [tauto|].
  destruct (String.eqb k k'); [split; discriminate|].
  destruct (PyDict.pop String.eqb d k) as [[x r]|].
  - split; [discriminate|]. intros H. apply IH in H. discriminate.
  - split; [intros _; now apply IH|reflexivity].
Qed.

Lemma dpop_Some {V} (d : dict V) k : forall x d',
  dpop d k = Some (x, d') ->
  dget d k = Some x
  /\ (forall k', k' <> k -> dget d' k' = dget d k')
  /\ (NoDup (PyDict.keys d) -> dget d' k = None).
Proof.
  unfold dpop, dget. induction d as [|[k0 v] d IH]; simpl; [discriminate|].
  intros x d'. destruct (String.eqb k k0) eqn:E.
  - intros H. inversion H; subst. apply String.eqb_eq in E. subst k0.
    split; [reflexivity|]. split.
    + intros k' Hk. apply String.eqb_neq in Hk. now rewrite Hk.
    + intros Hn. inversion Hn as [|? ? Hin _]; subst.
      destruct (PyDict.get String.eqb d' k) eqn:G; [|reflexivity].
      exfalso. apply Hin. apply dget_In_keys. unfold dget. congruence.
  - destruct (PyDict.pop String.eqb d k) as [[y r]|] eqn:P; [|discriminate].
    intros H. inversion H; subst. destruct (IH _ _ eq_refl) as (G & Ho & Hn).
    split; [exact G|]. split.
    + intros k' Hk. simpl. destruct (String.eqb k' k0); [reflexivity|].
      now apply Ho.
    + intros Hd. simpl. rewrite E. apply Hn. now inversion Hd.
Qed.

Module ModelProperties.
Import Tree TreeProperties TreeSpec.

Section Operations.
Variables ASTNode FunctionT Content : Type.
Variable str_of_state : State Content -> string.
Variable apply_chunk : State Content -> MessageChunk -> State Content.
Variable client_run : State Content -> ASTNode -> list MessageChunk.
Implicit Types (w : World ASTNode FunctionT Content) (self : ref).
Implicit Types o : Model Content.

Lemma copy_eq self w o :
  nth_error (models w) self = Some o ->
  copy self w = Ok (List.length (models w)) (copy_world self o w).
Proof.
  intros Ho.
  unfold copy, bind, deref, _gen_id, new_model, _update_trace_node, assign,
    bind, deref, modify, get_state, ret.
  rewrite Ho. simpl. rewrite nth_error_snoc. simpl.
  rewrite store_set_snoc, nth_error_snoc. simpl.
  unfold copy_world, copy_node. destruct (echo o); reflexivity.
Qed.

Lemma assign_newest_eq w o (f : Model Content -> Model Content) l :
  models w = l ++ [o] ->
  assign (List.length l) f w = Ok tt (set_models (l ++ [f o]) w).
Proof.
  intros H. unfold assign, bind, deref, modify.
  now rewrite H, nth_error_snoc, H, store_set_snoc.
Qed.

(** X12: [set] returns a new node that differs from the original in the
    one variable: [key] holds the value with no log-probability (a list
    of values holds [None] for each), every other variable and the
    content of the state are as in the original, and so are the token
    count, the echo flag and the active blocks; the new node records the
    original as its parent and takes the next identifier. *)
Theorem set_overrides_one_variable self key v w o :
  nth_error (models w) self = Some o ->
  exists w' o',
    set self key v w = Ok (List.length (models w)) w'
    /\ nth_error (models w') (List.length (models w)) = Some o'
    /\ __getitem__ (List.length (models w)) key w' = Ok v w'
    /\ (forall D (default : D),
          log_prob_of (List.length (models w)) key default w'
          = Ok (inl (capture_map (fun _ => None) v)) w')
    /\ (forall k, k <> key ->
          dget (captures (_state o')) k = dget (captures (_state o)) k)
    /\ content (_state o') = content (_state o)
    /\ token_count o' = token_count o
    /\ echo o' = echo o
    /\ _active_blocks o' = _active_blocks o
    /\ _parent o' = Some self
    /\ _parent_id o' = Some (_id o)
    /\ _id o' = _id_counter w.
Proof.
  intros Ho. unfold set, bind. rewrite (copy_eq _ _ Ho).
  rewrite (@assign_newest_eq (copy_world self o w) (copy_node self o w) _
             (models w) eq_refl).
  unfold ret. eexists. eexists. split; [reflexivity|].
  simpl. split; [apply nth_error_snoc|].
  split; [|split].
  - unfold __getitem__, bind, deref. simpl. rewrite nth_error_snoc. simpl.
    rewrite dget_dset_eq, capture_map_map. simpl.
    now rewrite capture_map_id.
  - intros D default. unfold log_prob_of, bind, deref. simpl.
    rewrite nth_error_snoc. simpl.
    now rewrite dget_dset_eq, capture_map_map.
  - simpl. split; [|repeat split; reflexivity].
    intros k Hk. now apply dget_dset_neq.
Qed.

(** X13: [remove] makes its copy before it looks for the variable. When
    the variable is missing, [KeyError] is raised after the copy has been
    allocated and announced to the trace handler; otherwise the new node
    no longer contains the variable, and every other variable and the
    content of the state are as in the original. *)
Theorem remove_deletes_one_variable self key w o :
  nth_error (models w) self = Some o ->
  NoDup (PyDict.keys (captures (_state o))) ->
  match dget (captures (_state o)) key with
  | None => remove self key w = Raise KeyError (copy_world self o w)
  | Some _ =>
      exists w' o',
        remove self key w = Ok (List.length (models w)) w'
        /\ nth_error (models w') (List.length (models w)) = Some o'
        /\ one_more w w'
        /\ __contains__ (List.length (models w)) key w' = Ok false w'
        /\ __getitem__ (List.length (models w)) key w' = Raise KeyError w'
        /\ (forall k, k <> key ->
              dget (captures (_state o')) k = dget (captures (_state o)) k)
        /\ content (_state o') = content (_state o)
        /\ token_count o' = token_count o
  end.
Proof.
  intros Ho Hn.
  assert (remove self key w
          = match dpop (captures (_state o)) key with
            | Some (_, d) =>
                Ok (List.length (models w))
                   (set_models
                      (models w
                       ++ [with_state (set_captures d (_state o))
                                      (copy_node self o w)])
                      (copy_world self o w))
            | None => Raise KeyError (copy_world self o w)
            end) as E.
  { unfold remove, bind at 1. rewrite (copy_eq _ _ Ho).
    unfold bind at 1, deref. simpl. rewrite nth_error_snoc. simpl.
    destruct (dpop (captures (_state o)) key) as [[x d]|]; [|reflexivity].
    unfold bind.
    now rewrite (@assign_newest_eq (copy_world self o w)
                   (copy_node self o w) _ (models w) eq_refl). }
  rewrite E. clear E.
  destruct (dpop (captures (_state o)) key) as [[x d]|] eqn:P.
  - destruct (dpop_Some _ _ P) as (G & Hother & Hgone). rewrite G.
    eexists. eexists. split; [reflexivity|].
    simpl. split; [apply nth_error_snoc|].
    split; [split; simpl; [eexists; reflexivity|reflexivity]|].
    split; [|split].
    + unfold __contains__, bind, deref, ret. simpl. rewrite nth_error_snoc.
      simpl. unfold dcontains, PyDict.contains. fold (dget d key).
      now rewrite (Hgone Hn).
    + unfold __getitem__, bind, deref. simpl. rewrite nth_error_snoc.
      simpl. now rewrite (Hgone Hn).
    + simpl. split; [exact Hother|]. split; reflexivity.
  - apply dpop_None in P. rewrite P. reflexivity.
Qed.

(** X14: the four readers of a variable agree. On a node that contains
    [key], [__getitem__] and [get] return its value and [log_prob] its
    log-probabilities, of the same shape as the value; on a node that
    does not, [__getitem__] raises [KeyError] and [get] and [log_prob]
    return the default. None of them changes anything. *)
Theorem readers_agree self key D (default : D) w o :
  nth_error (models w) self = Some o ->
  exists b,
    __contains__ self key w = Ok b w
    /\ if b then
         exists v lp,
           __getitem__ self key w = Ok v w
           /\ get self key default w = Ok (inl v) w
           /\ log_prob_of self key default w = Ok (inl lp) w
           /\ shape lp = shape v
       else
         __getitem__ self key w = Raise KeyError w
         /\ get self key default w = Ok (inr default) w
         /\ log_prob_of self key default w = Ok (inr default) w.
Proof.
  intros Ho.
  unfold __contains__, get, except_KeyError, __getitem__, log_prob_of, bind,
    deref, ret, raise. rewrite Ho.
  unfold dcontains, PyDict.contains. fold (dget (captures (_state o)) key).
  destruct (dget (captures (_state o)) key) as [c|].
  - exists true. split; [reflexivity|]. eexists. eexists.
    repeat split. destruct c; simpl; [reflexivity|].
    now rewrite !length_map.
  - exists false. repeat split.
Qed.

Ltac run_newest :=
  repeat first
    [ progress cbn [models set_models set_trace_handler set_renderer
                    set_event_queues set_dicts set_id_counter copy_world]
    | rewrite nth_error_snoc
    | rewrite store_set_snoc ].

Lemma apply_chunk_ok self chunk w o :
  nth_error (models w) self = Some o ->
  is_supported chunk = true ->
  exists w' o',
    _apply_chunk apply_chunk self chunk w = Ok (List.length (models w)) w'
    /\ models w' = models w ++ [o']
    /\ dicts w' = dicts w
    /\ active_blocks w' = active_blocks w
    /\ _state o' = apply_chunk (_state o) chunk
    /\ token_count o' = (token_count o + chunk_tokens chunk)%Z
    /\ echo o' = echo o
    /\ _active_blocks o' = _active_blocks o
    /\ _parent o' = Some self
    /\ _parent_id o' = Some (_id o)
    /\ _id o' = _id_counter w
    /\ event_queues w'
       = map (fun q => q ++ [List.length (models w)]) (event_queues w)
    /\ trace_handler w' = trace_handler w ++ chunk_messages o w chunk
    /\ renderer w' = (if echo o
                      then renderer w ++ chunk_messages o w chunk
                      else renderer w)
    /\ _id_counter w' = _id_counter w + 1.
Proof.
  intros Ho Hs. unfold _apply_chunk, bind at 1. rewrite (copy_eq _ _ Ho).
  unfold bind at 1.
  rewrite (@assign_newest_eq (copy_world self o w) (copy_node self o w) _
             (models w) eq_refl).
  unfold bind at 1, chunk_tokens.
  destruct o as [e st ab tc pa pid i tn].
  destruct (is_TextOutput chunk) as [n|].
  - erewrite (@assign_newest_eq _ _ _ (models w));
      [|simpl; reflexivity].
    rewrite Hs. unfold bind, deref, _update_trace_node, assign, bind, deref,
      modify, _send_to_event_queue, modify, ret.
    run_newest. cbn. rewrite ?Nat.eqb_refl. cbn.
    destruct e; eexists; eexists; (split; [reflexivity|]); cbn;
      rewrite <- ?app_assoc; repeat split; reflexivity.
  - unfold ret at 1.
    rewrite Hs. unfold bind, deref, _update_trace_node, assign, bind, deref,
      modify, _send_to_event_queue, modify, ret.
    run_newest. cbn. rewrite ?Nat.eqb_refl. cbn.
    destruct e; eexists; eexists; (split; [reflexivity|]); cbn;
      rewrite <- ?app_assoc, ?Z.add_0_r; repeat split; reflexivity.
Qed.

(** X15: applying a chunk of a supported kind returns one new node: its
    state is the original's with the chunk applied, its token count grows
    by the chunk's [token_count] for a [TextOutput] and not at all
    otherwise, every event queue receives the new node once, and the
    trace handler hears of the node twice, first without and then with
    the chunk (the renderer too when the node echoes). A chunk of another
    kind raises [NotImplementedError] after the copy has been made and
    announced, and before anything is put on an event queue. *)
Theorem apply_chunk_publishes_one_node self chunk w o :
  nth_error (models w) self = Some o ->
  if is_supported chunk then
    exists w' o',
      _apply_chunk apply_chunk self chunk w = Ok (List.length (models w)) w'
      /\ models w' = models w ++ [o']
      /\ _state o' = apply_chunk (_state o) chunk
      /\ token_count o' = (token_count o + chunk_tokens chunk)%Z
      /\ event_queues w'
         = map (fun q => q ++ [List.length (models w)]) (event_queues w)
      /\ trace_handler w' = trace_handler w ++ chunk_messages o w chunk
      /\ renderer w' = (if echo o
                        then renderer w ++ chunk_messages o w chunk
                        else renderer w)
  else
    exists w',
      _apply_chunk apply_chunk self chunk w = Raise NotImplementedError w'
      /\ one_more w w'
      /\ event_queues w' = event_queues w
      /\ trace_handler w'
         = trace_handler w ++ [(_id_counter w, Some (_id o), None)].
Proof.
  intros Ho. destruct (is_supported chunk) eqn:Hs.
  - destruct (apply_chunk_ok self chunk w Ho Hs)
      as (w' & o' & E & Hm & _ & _ & Hst & Htc & _ & _ & _ & _ & _ & Hq
          & Ht & Hr & _).
    exists w', o'. auto 10.
  - unfold _apply_chunk, bind at 1. rewrite (copy_eq _ _ Ho).
    unfold bind at 1.
    rewrite (@assign_newest_eq (copy_world self o w) (copy_node self o w) _
               (models w) eq_refl).
    unfold bind at 1.
    destruct (is_TextOutput chunk) as [n|].
    + erewrite (@assign_newest_eq _ _ _ (models w));
      [|simpl; reflexivity].
      rewrite Hs. unfold bind, raise. eexists. split; [reflexivity|].
      simpl. repeat split. eexists. reflexivity.
    + unfold ret at 1. rewrite Hs. unfold bind, raise. eexists.
      split; [reflexivity|]. simpl. repeat split. eexists. reflexivity.
Qed.

Lemma for_acc_chunks (chunks : list MessageChunk) : forall self w o,
  nth_error (models w) self = Some o ->
  Forall (fun c => is_supported c = true) chunks ->
  exists r w' o',
    for_acc chunks (fun chunk self => _apply_chunk apply_chunk self chunk)
            self w = Ok r w'
    /\ nth_error (models w') r = Some o'
    /\ (exists added, models w' = models w ++ added)
    /\ dicts w' = dicts w
    /\ _state o' = fold_left apply_chunk chunks (_state o)
    /\ token_count o'
       = (token_count o + zsum (map chunk_tokens chunks))%Z
    /\ echo o' = echo o
    /\ _active_blocks o' = _active_blocks o
    /\ List.length (models w')
       = List.length (models w) + List.length chunks
    /\ _id_counter w' = _id_counter w + List.length chunks
    /\ event_queues w'
       = map (fun q => q ++ seq (List.length (models w))
                                 (List.length chunks))
             (event_queues w)
    /\ r = match chunks with
           | [] => self
           | _ :: _ => List.length (models w') - 1
           end.
Proof.
  induction chunks as [|c chunks IH]; intros self w o Ho Hs.
  - exists self, w, o. simpl. split; [reflexivity|]. split; [exact Ho|].
    split; [exists []; now rewrite app_nil_r|].
    rewrite Z.add_0_r, !Nat.add_0_r.
    repeat (split; [reflexivity|]). split; [|reflexivity].
    rewrite <- (map_id (event_queues w)) at 1. apply map_ext.
    intros q. now rewrite app_nil_r.
  - inversion Hs as [|? ? Hc Hrest]; subst.
    destruct (apply_chunk_ok self c w Ho Hc)
      as (w1 & o1 & E1 & Hm1 & Hd1 & _ & Hst1 & Htc1 & He1 & Hb1 & _ & _
          & _ & Hq1 & _ & _ & Hid1).
    assert (nth_error (models w1) (List.length (models w)) = Some o1) as Ho1
      by (rewrite Hm1; apply nth_error_snoc).
    destruct (IH _ w1 o1 Ho1 Hrest)
      as (r & w2 & o2 & E2 & Hr2 & [added Hm2] & Hd2 & Hst2 & Htc2 & He2
          & Hb2 & Hl2 & Hid2 & Hq2 & Hlast).
    exists r, w2, o2. simpl. unfold bind. rewrite E1.
    split; [exact E2|]. split; [exact Hr2|].
    split; [exists (o1 :: added); rewrite Hm2, Hm1, <- app_assoc;
            reflexivity|].
    split; [congruence|].
    split; [now rewrite Hst2, Hst1|].
    split; [rewrite Htc2, Htc1; lia|].
    split; [congruence|]. split; [congruence|].
    assert (List.length (models w1) = S (List.length (models w))) as Hl1
      by (rewrite Hm1, length_app; simpl; lia).
    split; [lia|]. split; [lia|]. split.
    + rewrite Hq2, Hq1, map_map, Hl1. apply map_ext. intros q.
      now rewrite <- app_assoc.
    + destruct chunks; simpl in Hl2; lia.
Qed.

(** X16: running a node whose chunks are all of a supported kind applies
    the chunks in the order the client yields them, each to a copy of the
    node before: the result holds the state after all of them, its token
    count is the original's plus the token counts of the chunks, and
    every chunk allocates one node, takes one identifier and puts its
    node once on every event queue, in order. A client that yields
    nothing leaves the node and the world as they are. *)
Theorem apply_node_accumulates self node w o :
  nth_error (models w) self = Some o ->
  Forall (fun c => is_supported c = true) (client_run (_state o) node) ->
  exists r w' o',
    _apply_node apply_chunk client_run self node w = Ok r w'
    /\ nth_error (models w') r = Some o'
    /\ _state o' = fold_left apply_chunk (client_run (_state o) node)
                             (_state o)
    /\ token_count o'
       = (token_count o
          + zsum (map chunk_tokens (client_run (_state o) node)))%Z
    /\ List.length (models w')
       = List.length (models w)
         + List.length (client_run (_state o) node)
    /\ _id_counter w'
       = _id_counter w + List.length (client_run (_state o) node)
    /\ event_queues w'
       = map (fun q => q ++ seq (List.length (models w))
                         (List.length (client_run (_state o) node)))
             (event_queues w)
    /\ (client_run (_state o) node = [] -> r = self /\ w' = w).
Proof.
  intros Ho Hs.
  destruct (for_acc_chunks self w Ho Hs)
    as (r & w' & o' & E & Hr & _ & _ & Hst & Htc & _ & _ & Hl & Hid & Hq
        & _).
  exists r, w', o'. unfold _apply_node, bind, deref. rewrite Ho.
  split; [exact E|]. repeat (split; [assumption|]).
  intros Hn. rewrite Hn in E. simpl in E. unfold ret in E.
  inversion E. auto.
Qed.

End Operations.
End ModelProperties.

(* ------------------------------------------------------------------ *)
(** ** Invariants of the tree operations *)

Lemma hoare_run {S A} (P : S -> Prop) (c : M S A) Q E s :
  hoare P c Q E -> P s ->
  match c s with
  | Ok a s' => Q a s'
  | Raise _ s' => E s'
  | OutOfFuel => True
  end.
Proof. intros [H]. apply H. Qed.

Lemma hoare_ret {S A} (P : S -> Prop) (Q : A -> S -> Prop) E a :
  (forall s, P s -> Q a s) -> hoare P (ret a) Q E.
Proof. intros H. constructor. exact H. Qed.

Lemma hoare_raise {S A} (P : S -> Prop) (Q : A -> S -> Prop) (E : S -> Prop)
  e :
  (forall s, P s -> E s) -> hoare P (raise e) Q E.
Proof. intros H. constructor. exact H. Qed.

Lemma hoare_modify {S} (P : S -> Prop) (Q : unit -> S -> Prop) E f :
  (forall s, P s -> Q tt (f s)) -> hoare P (modify f) Q E.
Proof. intros H. constructor. exact H. Qed.

Lemma hoare_get_state {S} (P : S -> Prop) (E : S -> Prop) :
  hoare P get_state (fun _ => P) E.
Proof. constructor. intros s H. exact H. Qed.

Lemma hoare_bind {S A B} (P : S -> Prop) (c : M S A) (k : A -> M S B)
  (Q : A -> S -> Prop) (R : B -> S -> Prop) (E : S -> Prop) :
  hoare P c Q E -> (forall a, hoare (Q a) (k a) R E) ->
  hoare P (bind c k) R E.
Proof.
  intros [Hc] Hk. constructor. intros s Hs. unfold bind.
  specialize (Hc s Hs). destruct (c s) as [a s'|e s'|]; auto.
  destruct (Hk a) as [Hk']. now apply Hk'.
Qed.

Lemma hoare_conseq {S A} (P P' : S -> Prop) (c : M S A)
  (Q Q' : A -> S -> Prop) (E : S -> Prop) :
  hoare P' c Q' E -> (forall s, P s -> P' s) ->
  (forall a s, Q' a s -> Q a s) -> hoare P c Q E.
Proof.
  intros [H] HP HQ. constructor. intros s Hs. specialize (H s (HP s Hs)).
  destruct (c s); auto.
Qed.

Lemma nth_error_store_set {A} (l : list A) r x q :
  r < List.length l ->
  nth_error (Tree.store_set l r x) q
  = if Nat.eqb q r then Some x else nth_error l q.
Proof.
  intros Hr. unfold Tree.store_set.
  assert (List.length (firstn r l) = r) as Hf
    by (rewrite length_firstn; lia).
  destruct (skipn r l) as [|y t] eqn:Hsk.
  { apply (f_equal (@List.length A)) in Hsk. rewrite length_skipn in Hsk.
    simpl in Hsk. lia. }
  rewrite <- (firstn_skipn r l) at 2. rewrite Hsk.
  destruct (Nat.eqb_spec q r) as [->|Hne].
  - rewrite nth_error_app2 by lia. rewrite Hf, Nat.sub_diag. reflexivity.
  - destruct (Nat.lt_ge_cases q r) as [Hlt|Hge].
    + rewrite !nth_error_app1 by lia. reflexivity.
    + rewrite !nth_error_app2 by lia. rewrite Hf.
      destruct (q - r) as [|n] eqn:En; [lia|]. reflexivity.
Qed.

Lemma length_store_set {A} (l : list A) r x :
  r < List.length l -> List.length (Tree.store_set l r x) = List.length l.
Proof.
  intros Hr. unfold Tree.store_set.
  destruct (skipn r l) as [|y t] eqn:Hsk.
  { apply (f_equal (@List.length A)) in Hsk. rewrite length_skipn in Hsk.
    simpl in Hsk. lia. }
  rewrite <- (firstn_skipn r l) at 2. rewrite Hsk, !length_app. reflexivity.
Qed.

Module TreeInvariants.
Import Tree TreeProperties TreeSpec ModelProperties.

Section Invariants.
Variables ASTNode FunctionT Content : Type.
Variable str_of_state : State Content -> string.
Variable apply_chunk : State Content -> MessageChunk -> State Content.
Variable client_run : State Content -> ASTNode -> list MessageChunk.
Variable _parse_tags : string -> grammar ASTNode FunctionT.
Variable call_function :
  FunctionT -> ref -> M (World ASTNode FunctionT Content) ref.
Implicit Types (w : World ASTNode FunctionT Content) (self r : ref).
Implicit Types o : Model Content.

(** A property [J r] of the world and the node [r] at hand, and what is
    left of it when an operation raises. *)
Variable J : ref -> World ASTNode FunctionT Content -> Prop.
Variable E : World ASTNode FunctionT Content -> Prop.
Hypothesis J_E : forall r w, J r w -> E w.
Hypothesis J_copy : forall r w o,
  J r w -> nth_error (models w) r = Some o ->
  J (List.length (models w)) (copy_world r o w).
Hypothesis J_assign : forall r w o f,
  J r w -> nth_error (models w) r = Some o -> keeps_identity f ->
  J r (set_models (store_set (models w) r (f o)) w).
Hypothesis J_dicts : forall r w d, J r w -> J r (set_dicts d w).
Hypothesis J_queues : forall r w q, J r w -> J r (set_event_queues q w).
Hypothesis J_trace : forall r w t, J r w -> J r (set_trace_handler t w).
Hypothesis J_render : forall r w o t,
  J r w -> nth_error (models w) r = Some o -> echo o = true ->
  J r (set_renderer t w).
Hypothesis J_call : forall f r, hoare (J r) (call_function f r) J E.

Lemma inv_deref r x :
  hoare (J r) (deref x) (fun _ => J r) E.
Proof.
  constructor. intros w H. unfold deref.
  destruct (nth_error (models w) x); [exact H|now apply J_E with r].
Qed.

Lemma inv_deref_dict r d :
  hoare (J r) (deref_dict d) (fun _ => J r) E.
Proof.
  constructor. intros w H. unfold deref_dict.
  destruct (nth_error (dicts w) d); [exact H|now apply J_E with r].
Qed.

Lemma inv_assign r f :
  keeps_identity f -> hoare (J r) (assign r f) (fun _ => J r) E.
Proof.
  intros Hf. constructor. intros w H. unfold assign, bind, deref, modify.
  destruct (nth_error (models w) r) as [o|] eqn:Ho.
  - now apply J_assign.
  - now apply J_E with r.
Qed.

Lemma inv_assign_dict r d f :
  hoare (J r) (assign_dict d f) (fun _ => J r) E.
Proof.
  constructor. intros w H. unfold assign_dict, bind, deref_dict, modify.
  destruct (nth_error (dicts w) d) as [o|].
  - now apply J_dicts.
  - now apply J_E with r.
Qed.

Lemma keeps_identity_trace_nodes (g : Model Content -> list nat) :
  keeps_identity (fun o => with_trace_nodes (g o) o).
Proof. intros o. repeat split. Qed.

Lemma keeps_identity_state (g : Model Content -> State Content) :
  keeps_identity (fun o => with_state (g o) o).
Proof. intros o. repeat split. Qed.

Lemma keeps_identity_token_count (g : Model Content -> Z) :
  keeps_identity (fun o => with_token_count (g o) o).
Proof. intros o. repeat split. Qed.

Lemma inv_update_trace_node r i p a :
  hoare (J r) (_update_trace_node r i p a) (fun _ => J r) E.
Proof.
  constructor. intros w H.
  unfold _update_trace_node, bind, modify, assign, bind, deref, modify, ret.
  cbn [models set_trace_handler].
  destruct (nth_error (models w) r) as [o|] eqn:Ho.
  2:{ apply J_E with r. now apply J_trace. }
  assert (r < List.length (models w)) as Hr
    by (apply nth_error_Some; congruence).
  cbn [models set_models].
  rewrite nth_error_store_set, Nat.eqb_refl by exact Hr.
  assert (J r (set_models
                 (store_set (models w) r
                    (with_trace_nodes (set_add i (_trace_nodes o)) o))
                 (set_trace_handler (trace_handler w ++ [(i, p, a)]) w)))
    as H1.
  { apply (@J_assign r (set_trace_handler (trace_handler w ++ [(i, p, a)]) w)
             o (fun o => with_trace_nodes (set_add i (_trace_nodes o)) o)).
    - now apply J_trace.
    - exact Ho.
    - apply keeps_identity_trace_nodes. }
  change (echo (with_trace_nodes (set_add i (_trace_nodes o)) o))
    with (echo o).
  destruct (echo o) eqn:He; [|exact H1].
  apply (@J_render r _ (with_trace_nodes (set_add i (_trace_nodes o)) o));
    [exact H1| |exact He].
  cbn [models set_models]. now rewrite nth_error_store_set, Nat.eqb_refl.
Qed.

Lemma inv_copy r : hoare (J r) (copy r) J E.
Proof.
  constructor. intros w H.
  destruct (nth_error (models w) r) as [o|] eqn:Ho.
  - rewrite (copy_eq _ _ Ho). now apply J_copy.
  - unfold copy, bind, deref. rewrite Ho. now apply J_E with r.
Qed.

Lemma inv_set r key v : hoare (J r) (set r key v) J E.
Proof.
  unfold set. eapply hoare_bind; [apply inv_copy|]. intros r'.
  eapply hoare_bind; [apply inv_assign, keeps_identity_state|]. intros ?; cbv beta.
  apply hoare_ret. auto.
Qed.

Lemma inv_remove r key : hoare (J r) (remove r key) J E.
Proof.
  unfold remove. eapply hoare_bind; [apply inv_copy|]. intros r'.
  eapply hoare_bind; [apply inv_deref|]. intros o.
  destruct (dpop (captures (_state o)) key) as [[x d]|].
  - eapply hoare_bind; [apply inv_assign, keeps_identity_state|]. intros ?; cbv beta.
    apply hoare_ret. auto.
  - apply hoare_raise. intros w. apply J_E.
Qed.

Lemma inv_apply_chunk r chunk :
  hoare (J r) (_apply_chunk apply_chunk r chunk) J E.
Proof.
  unfold _apply_chunk. eapply hoare_bind; [apply inv_copy|]. intros r'.
  eapply hoare_bind; [apply inv_assign, keeps_identity_state|]. intros ?; cbv beta.
  eapply hoare_bind.
  { destruct (is_TextOutput chunk).
    - apply inv_assign, keeps_identity_token_count.
    - apply hoare_ret. intros w H. exact H. }
  intros ?; cbv beta. eapply hoare_bind.
  { destruct (is_supported chunk).
    - eapply hoare_bind; [apply inv_deref|]. intros o.
      apply inv_update_trace_node.
    - apply hoare_raise with (Q := fun _ => J r'). intros w. apply J_E. }
  intros ?; cbv beta. eapply hoare_bind.
  { unfold _send_to_event_queue. apply hoare_modify
      with (Q := fun _ => J r'). intros w. apply J_queues. }
  intros ?; cbv beta. apply hoare_ret. auto.
Qed.

Lemma inv_for_acc {A} (l : list A)
  (body : A -> ref -> M (World ASTNode FunctionT Content) ref) :
  (forall x r, hoare (J r) (body x r) J E) ->
  forall r, hoare (J r) (for_acc l body r) J E.
Proof.
  intros Hb. induction l as [|x l IH]; intros r; simpl.
  - apply hoare_ret. auto.
  - eapply hoare_bind; [apply Hb|]. exact IH.
Qed.

Lemma inv_apply_node r node :
  hoare (J r) (_apply_node apply_chunk client_run r node) J E.
Proof.
  unfold _apply_node. eapply hoare_bind; [apply inv_deref|]. intros o.
  apply inv_for_acc. intros chunk r'. apply inv_apply_chunk.
Qed.

Lemma inv_apply_block_fragment r f :
  hoare (J r)
        (apply_block_fragment apply_chunk client_run _parse_tags r f) J E.
Proof.
  unfold apply_block_fragment.
  destruct (match f with FStr _ _ s => _parse_tags s | FGrammar g => g end).
  - apply hoare_raise. intros w. apply J_E.
  - apply inv_apply_node.
Qed.

Lemma inv_str r x :
  hoare (J r) (__str__ str_of_state x) (fun _ => J r) E.
Proof.
  unfold __str__. eapply hoare_bind; [apply inv_deref|]. intros o.
  apply hoare_ret. auto.
Qed.

Lemma inv_capture_block r (block : Block ASTNode FunctionT) start_index :
  hoare (J r)
    match block_name block with
    | Some name =>
        s <- __str__ str_of_state r ;;
        set r name (Scalar (str_from start_index s))
    | None => ret r
    end J E.
Proof.
  destruct (block_name block).
  - eapply hoare_bind; [apply inv_str|]. intros txt. apply inv_set.
  - apply hoare_ret. auto.
Qed.

Lemma inv_apply_blocks r :
  hoare (J r)
        (_apply_blocks str_of_state apply_chunk client_run _parse_tags r)
        J E.
Proof.
  unfold _apply_blocks. eapply hoare_bind; [apply inv_copy|]. intros r1.
  eapply hoare_bind; [apply hoare_get_state|]. intros w0.
  eapply hoare_bind; [apply inv_deref|]. intros o.
  eapply hoare_bind; [apply inv_deref_dict|]. intros d.
  eapply hoare_bind.
  - apply inv_for_acc. intros [block start_index] r2.
    eapply hoare_bind; [|intros r3; apply inv_capture_block].
    destruct (negb (block_in block (active_blocks w0)));
      [|apply hoare_ret; auto].
    eapply hoare_bind; [apply inv_deref|]. intros o2.
    eapply hoare_bind; [apply inv_deref_dict|]. intros d2.
    eapply hoare_bind.
    { destruct (PyDict.pop _ d2 block) as [[x d']|].
      - apply inv_assign_dict.
      - apply hoare_raise with (Q := fun _ => J r2). intros w. apply J_E. }
    intros ?; cbv beta. destruct (closer block).
    + apply inv_apply_block_fragment.
    + apply hoare_ret. auto.
  - intros r2. apply inv_for_acc. intros block r3.
    eapply hoare_bind; [apply inv_deref|]. intros o3.
    eapply hoare_bind; [apply inv_deref_dict|]. intros d3.
    destruct (negb (PyDict.contains _ d3 block));
      [|apply hoare_ret; auto].
    eapply hoare_bind.
    { unfold __len__. eapply hoare_bind; [apply inv_str|]. intros s.
      apply hoare_ret with (Q := fun _ => J r3). auto. }
    intros n. eapply hoare_bind; [apply inv_assign_dict|]. intros ?; cbv beta.
    destruct (opener block).
    + apply inv_apply_block_fragment.
    + apply hoare_ret. auto.
Qed.

Lemma inv_update_open_block_captures r :
  hoare (J r) (_update_open_block_captures str_of_state r) J E.
Proof.
  unfold _update_open_block_captures.
  eapply hoare_bind; [apply inv_copy|]. intros r1.
  eapply hoare_bind; [apply inv_deref|]. intros o.
  eapply hoare_bind; [apply inv_deref_dict|]. intros d.
  apply inv_for_acc. intros [block start_index] r2.
  apply inv_capture_block.
Qed.

Lemma inv_add r other :
  hoare (J r)
        (__add__ str_of_state apply_chunk client_run _parse_tags
                 call_function r other) J E.
Proof.
  unfold __add__. eapply hoare_bind; [apply inv_apply_blocks|]. intros r1.
  assert (hoare (J r1)
            match
              match other with
              | FStr _ _ s => _parse_tags s
              | FGrammar g => g
              end
            with
            | GFunction _ f => call_function f r1
            | GNode _ n =>
                self <- _apply_node apply_chunk client_run r1 n ;;
                _update_open_block_captures str_of_state self
            end J E) as H.
  { destruct (match other with
              | FStr _ _ s => _parse_tags s
              | FGrammar g => g
              end).
    - apply J_call.
    - eapply hoare_bind; [apply inv_apply_node|]. intros r2.
      apply inv_update_open_block_captures. }
  destruct other as [[|c s]|g]; [apply hoare_ret; auto|exact H|exact H].
Qed.

End Invariants.
End TreeInvariants.

Module TreeInstances.
Import Tree TreeProperties TreeSpec ModelProperties TreeInvariants.

Section Quiet.
Variables ASTNode FunctionT Content : Type.
Variable str_of_state : State Content -> string.
Variable apply_chunk : State Content -> MessageChunk -> State Content.
Variable client_run : State Content -> ASTNode -> list MessageChunk.
Variable _parse_tags : string -> grammar ASTNode FunctionT.
Variable call_function :
  FunctionT -> ref -> M (World ASTNode FunctionT Content) ref.
Implicit Types (w : World ASTNode FunctionT Content) (self r : ref).
Implicit Types o : Model Content.
Variable R : list TraceMessage.

Lemma quiet_E r w : quiet_at R r w -> renderer w = R.
Proof. now intros [H _]. Qed.

Lemma quiet_copy r w o :
  quiet_at R r w -> nth_error (models w) r = Some o ->
  quiet_at R (List.length (models w)) (copy_world r o w).
Proof.
  intros [HR (o' & Ho' & He)] Ho. rewrite Ho in Ho'. inversion Ho'; subst o'.
  split.
  - simpl. now rewrite He.
  - exists (copy_node r o w). split; [apply nth_error_snoc|exact He].
Qed.

Lemma quiet_assign r w o (f : Model Content -> Model Content) :
  quiet_at R r w -> nth_error (models w) r = Some o -> keeps_identity f ->
  quiet_at R r (set_models (store_set (models w) r (f o)) w).
Proof.
  intros [HR (o' & Ho' & He)] Ho Hf. rewrite Ho in Ho'.
  inversion Ho'; subst o'. split; [exact HR|].
  exists (f o). split.
  - simpl. rewrite nth_error_store_set, Nat.eqb_refl; [reflexivity|].
    apply nth_error_Some. congruence.
  - destruct (Hf o) as [H _]. congruence.
Qed.

Lemma quiet_render r w o (t : list TraceMessage) :
  quiet_at R r w -> nth_error (models w) r = Some o -> echo o = true ->
  quiet_at R r (set_renderer t w).
Proof.
  intros [HR (o' & Ho' & He)] Ho Ht. rewrite Ho in Ho'.
  inversion Ho'; subst o'. congruence.
Qed.

Ltac quiet_side :=
  first [ exact quiet_E | exact quiet_copy | exact quiet_assign
        | exact quiet_render | assumption
        | intros ? ? ? H; exact H ].

Lemma quiet_add r other :
  (forall f r, hoare (quiet_at R r) (call_function f r) (quiet_at R)
                     (fun w => renderer w = R)) ->
  hoare (quiet_at R r)
        (__add__ str_of_state apply_chunk client_run _parse_tags
                 call_function r other)
        (quiet_at R) (fun w => renderer w = R).
Proof.
  intros Hcall. apply inv_add; quiet_side.
Qed.

Lemma quiet_set r key v :
  hoare (quiet_at R r) (@set ASTNode FunctionT Content r key v)
        (quiet_at R) (fun w => renderer w = R).
Proof.
  apply inv_set; quiet_side.
Qed.

Lemma quiet_remove r key :
  hoare (quiet_at R r) (@remove ASTNode FunctionT Content r key)
        (quiet_at R) (fun w => renderer w = R).
Proof.
  apply inv_remove; quiet_side.
Qed.

End Quiet.
End TreeInstances.

Lemma NoDup_snoc {A} (l : list A) x :
  NoDup l -> ~ In x l -> NoDup (l ++ [x]).
Proof.
  induction l as [|y l IH]; simpl; intros Hn Hx.
  - constructor; [tauto|constructor].
  - inversion Hn; subst. constructor.
    + rewrite in_app_iff. simpl. intuition congruence.
    + apply IH; tauto.
Qed.

Lemma map_store_set_same {A B} (g : A -> B) (l : list A) r o x :
  nth_error l r = Some o -> g x = g o ->
  map g (Tree.store_set l r x) = map g l.
Proof.
  intros Ho Hg. unfold Tree.store_set.
  rewrite <- (firstn_skipn r l) at 3.
  assert (exists t, skipn r l = o :: t) as [t Ht].
  { clear Hg. revert l Ho. induction r as [|r IH]; intros [|y l]; simpl;
      try discriminate.
    - intros H. inversion H. eauto.
    - apply IH. }
  rewrite Ht, !map_app. simpl. now rewrite Hg.
Qed.

Module TreeIds.
Import Tree TreeProperties TreeSpec ModelProperties TreeInvariants.

Section Ids.
Variables ASTNode FunctionT Content : Type.
Variable str_of_state : State Content -> string.
Variable apply_chunk : State Content -> MessageChunk -> State Content.
Variable client_run : State Content -> ASTNode -> list MessageChunk.
Variable _parse_tags : string -> grammar ASTNode FunctionT.
Variable call_function :
  FunctionT -> ref -> M (World ASTNode FunctionT Content) ref.
Implicit Types (w : World ASTNode FunctionT Content) (self r : ref).
Implicit Types o : Model Content.

Lemma ids_ok_new_node w w' n :
  ids_ok w ->
  models w' = models w ++ [n] ->
  _id_counter w' = _id_counter w + 1 ->
  _id n = _id_counter w ->
  match _parent n with
  | None => _parent_id n = None
  | Some p => exists po, nth_error (models w) p = Some po
                         /\ _parent_id n = Some (_id po)
  end ->
  ids_ok w'.
Proof.
  intros (Hlt & Hnd & Hlk) Hm Hc Hid Hp. unfold ids_ok.
  rewrite Hm, Hc. split; [|split].
  - apply Forall_app. split.
    + eapply Forall_impl; [|exact Hlt]. simpl. intros. lia.
    + constructor; [lia|constructor].
  - rewrite map_app. simpl. apply NoDup_snoc; [exact Hnd|].
    intros Hin. apply in_map_iff in Hin. destruct Hin as (x & Hx & Hin).
    rewrite Forall_forall in Hlt. specialize (Hlt x Hin). lia.
  - intros q oq Hq.
    destruct (Nat.lt_ge_cases q (List.length (models w))) as [Hlt'|Hge].
    + rewrite nth_error_app1 in Hq by exact Hlt'.
      specialize (Hlk q oq Hq). destruct (_parent oq) as [p|]; [|exact Hlk].
      destruct Hlk as (Hpq & po & Hpo & Hpid). split; [exact Hpq|].
      exists po. split; [|exact Hpid].
      rewrite nth_error_app1 by lia. exact Hpo.
    + rewrite nth_error_app2 in Hq by exact Hge.
      destruct (q - List.length (models w)) as [|k] eqn:Ek.
      * simpl in Hq. inversion Hq; subst oq.
        destruct (_parent n) as [p|]; [|exact Hp].
        destruct Hp as (po & Hpo & Hpid).
        assert (p < List.length (models w)) as Hpl
          by (apply nth_error_Some; congruence).
        split; [lia|]. exists po. split; [|exact Hpid].
        rewrite nth_error_app1 by exact Hpl. exact Hpo.
      * simpl in Hq. destruct k; discriminate.
Qed.

Lemma ids_ok_copy r w o :
  ids_ok w -> nth_error (models w) r = Some o ->
  ids_ok (copy_world r o w).
Proof.
  intros H Ho.
  apply (@ids_ok_new_node w (copy_world r o w) (copy_node r o w) H);
    try reflexivity.
  simpl. exists o. auto.
Qed.

Lemma ids_ok_assign r w o (f : Model Content -> Model Content) :
  ids_ok w -> nth_error (models w) r = Some o -> keeps_identity f ->
  ids_ok (set_models (store_set (models w) r (f o)) w).
Proof.
  intros (Hlt & Hnd & Hlk) Ho Hf. destruct (Hf o) as (_ & Hid & Hpa & Hpi & _).
  assert (r < List.length (models w)) as Hr
    by (apply nth_error_Some; congruence).
  assert (map (@_id Content) (store_set (models w) r (f o))
          = map (@_id Content) (models w)) as Hmap
    by (now apply map_store_set_same with o).
  unfold ids_ok. cbn [models _id_counter set_models]. split; [|split].
  - rewrite <- (Forall_map (@_id Content) (fun i => i < _id_counter w)).
    rewrite Hmap. rewrite Forall_map. exact Hlt.
  - now rewrite Hmap.
  - intros q oq. rewrite nth_error_store_set by exact Hr.
    assert (forall p po, nth_error (models w) p = Some po ->
              exists po', (if Nat.eqb p r then Some (f o)
                           else nth_error (models w) p) = Some po'
                          /\ _id po' = _id po) as Hpar.
    { intros p po Hpo. destruct (Nat.eqb_spec p r) as [->|_].
      - exists (f o). split; [reflexivity|]. congruence.
      - exists po. auto. }
    destruct (Nat.eqb_spec q r) as [->|Hne]; intros Hq.
    + inversion Hq; subst oq. rewrite Hpa. specialize (Hlk r o Ho).
      destruct (_parent o) as [p|]; [|congruence].
      destruct Hlk as (Hpq & po & Hpo & Hpid). split; [exact Hpq|].
      destruct (Hpar p po Hpo) as (po' & Hpo' & Hid').
      exists po'. rewrite nth_error_store_set by exact Hr.
      split; [exact Hpo'|]. congruence.
    + specialize (Hlk q oq Hq). destruct (_parent oq) as [p|]; [|exact Hlk].
      destruct Hlk as (Hpq & po & Hpo & Hpid). split; [exact Hpq|].
      destruct (Hpar p po Hpo) as (po' & Hpo' & Hid').
      exists po'. rewrite nth_error_store_set by exact Hr.
      split; [exact Hpo'|]. congruence.
Qed.

Ltac ids_side :=
  first [ exact ids_ok_copy | exact ids_ok_assign | assumption
        | intros ? ? H; exact H
        | intros ? ? ? H; exact H
        | intros ? ? ? ? H _ _; exact H ].

Lemma ids_add r other :
  (forall f r, hoare (@ids_ok ASTNode FunctionT Content)
                     (call_function f r) (fun _ => @ids_ok _ _ _)
                     (@ids_ok _ _ _)) ->
  hoare (@ids_ok _ _ _)
        (__add__ str_of_state apply_chunk client_run _parse_tags
                 call_function r other)
        (fun _ => @ids_ok _ _ _) (@ids_ok _ _ _).
Proof.
  intros Hcall.
  apply (@inv_add _ _ _ str_of_state apply_chunk client_run _parse_tags
           call_function (fun _ => @ids_ok _ _ _) (@ids_ok _ _ _));
    ids_side.
Qed.

Lemma ids_set r key v :
  hoare (@ids_ok _ _ _) (@set ASTNode FunctionT Content r key v)
        (fun _ => @ids_ok _ _ _) (@ids_ok _ _ _).
Proof.
  apply (@inv_set _ _ _ (fun _ => @ids_ok _ _ _) (@ids_ok _ _ _)); ids_side.
Qed.

Lemma ids_remove r key :
  hoare (@ids_ok _ _ _) (@remove ASTNode FunctionT Content r key)
        (fun _ => @ids_ok _ _ _) (@ids_ok _ _ _).
Proof.
  apply (@inv_remove _ _ _ (fun _ => @ids_ok _ _ _) (@ids_ok _ _ _));
    ids_side.
Qed.

Lemma ids_copy r :
  hoare (@ids_ok _ _ _) (@copy ASTNode FunctionT Content r)
        (fun _ => @ids_ok _ _ _) (@ids_ok _ _ _).
Proof.
  apply (@inv_copy _ _ _ (fun _ => @ids_ok _ _ _) (@ids_ok _ _ _));
    ids_side.
Qed.

Lemma Model_init_eq (state : State Content) (e : bool) w :
  exists w' n,
    Model_init state e w = Ok (List.length (models w)) w'
    /\ models w' = models w ++ [n]
    /\ dicts w' = dicts w ++ [[]]
    /\ _id_counter w' = _id_counter w + 1
    /\ _id n = _id_counter w
    /\ _parent n = None /\ _parent_id n = None
    /\ _active_blocks n = List.length (dicts w)
    /\ _state n = state /\ echo n = e /\ token_count n = 0%Z
    /\ trace_handler w' = trace_handler w ++ [(_id_counter w, None, None)]
    /\ renderer w' = (if e then renderer w ++ [(_id_counter w, None, None)]
                      else renderer w).
Proof.
  unfold Model_init, bind, new_dict, _gen_id, new_model, _update_trace_node,
    assign, bind, deref, modify, get_state, ret.
  repeat first
    [ progress cbn [models dicts set_models set_dicts set_id_counter
                    set_trace_handler _id_counter]
    | rewrite nth_error_snoc
    | rewrite store_set_snoc ].
  cbn.
  destruct e; eexists; eexists; (split; [reflexivity|]); cbn;
    repeat split; reflexivity.
Qed.

End Ids.
End TreeIds.

Module TreeTheorems.
Import Tree TreeProperties TreeSpec ModelProperties TreeInvariants.
Import TreeInstances TreeIds.

Section Theorems.
Variables ASTNode FunctionT Content : Type.
Variable str_of_state : State Content -> string.
Variable apply_chunk : State Content -> MessageChunk -> State Content.
Variable client_run : State Content -> ASTNode -> list MessageChunk.
Variable _parse_tags : string -> grammar ASTNode FunctionT.
Variable call_function :
  FunctionT -> ref -> M (World ASTNode FunctionT Content) ref.
Implicit Types (w : World ASTNode FunctionT Content) (self r : ref).
Implicit Types o : Model Content.

(** X17: a node that does not echo never reaches the renderer. Whatever
    is added to it, and whichever variable is set or removed, the
    renderer is sent nothing, whether the call returns or raises, and the
    node returned does not echo either; this is what a [ModelStream]
    relies on when it turns echoing off. A [Function] that is added has
    to keep to this itself. *)
Theorem non_echo_model_never_renders self other key v w :
  (forall R f r, hoare (quiet_at R r) (call_function f r) (quiet_at R)
                       (fun w => renderer w = R)) ->
  is_quiet w self ->
  quiet_outcome w
    (__add__ str_of_state apply_chunk client_run _parse_tags call_function
             self other w)
  /\ quiet_outcome w (set self key v w)
  /\ quiet_outcome w (remove self key w).
Proof.
  intros Hcall Hq.
  assert (quiet_at (renderer w) self w) as H0 by (split; [reflexivity|exact Hq]).
  split; [|split].
  - pose proof (@hoare_run _ _ _ _ _ _ w (@quiet_add _ _ _ str_of_state apply_chunk
                  client_run _parse_tags call_function (renderer w) self
                  other (Hcall (renderer w))) H0) as H.
    unfold quiet_outcome. destruct (__add__ _ _ _ _ _ _ _ _); exact H.
  - pose proof (@hoare_run _ _ _ _ _ _ w (@quiet_set ASTNode FunctionT Content (renderer w)
                             self key v) H0) as H.
    unfold quiet_outcome. destruct (set _ _ _ _); exact H.
  - pose proof (@hoare_run _ _ _ _ _ _ w (@quiet_remove ASTNode FunctionT Content
                             (renderer w) self key) H0) as H.
    unfold quiet_outcome. destruct (remove _ _ _); exact H.
Qed.

(** X18: identifiers are never reused and parents are recorded
    consistently. The empty world satisfies, and [Model.__init__],
    [copy], [set], [remove] and [+] keep, whether they return or raise:
    every node's identifier is below the counter, no two nodes have the
    same identifier, and a node's parent is an earlier node whose
    identifier is the node's [_parent_id] (a node without parent has no
    [_parent_id]). A [Function] that is added has to keep this itself. *)
Theorem node_ids_stay_unique self other key v (state : State Content)
  (e : bool) w :
  (forall f r, hoare (@ids_ok ASTNode FunctionT Content)
                     (call_function f r) (fun _ => @ids_ok _ _ _)
                     (@ids_ok _ _ _)) ->
  ids_ok w ->
  ids_ok (empty_world ASTNode FunctionT Content)
  /\ kept (@ids_ok _ _ _) (Model_init state e w)
  /\ kept (@ids_ok _ _ _) (copy self w)
  /\ kept (@ids_ok _ _ _) (set self key v w)
  /\ kept (@ids_ok _ _ _) (remove self key w)
  /\ kept (@ids_ok _ _ _)
          (__add__ str_of_state apply_chunk client_run _parse_tags
                   call_function self other w).
Proof.
  intros Hcall H0. split; [|split; [|split; [|split; [|split]]]].
  - split; [constructor|]. split; [constructor|].
    intros r o Hr. destruct r; discriminate.
  - destruct (Model_init_eq state e w)
      as (w' & n & E & Hm & _ & Hc & Hid & Hp & Hpi & _).
    rewrite E. simpl.
    apply (@ids_ok_new_node _ _ _ w w' n H0 Hm Hc Hid). now rewrite Hp.
  - pose proof (@hoare_run _ _ _ _ _ _ w (@ids_copy ASTNode FunctionT Content self) H0) as H.
    unfold kept. destruct (copy _ _); exact H.
  - pose proof (@hoare_run _ _ _ _ _ _ w (@ids_set ASTNode FunctionT Content self key v) H0)
      as H.
    unfold kept. destruct (set _ _ _ _); exact H.
  - pose proof (@hoare_run _ _ _ _ _ _ w (@ids_remove ASTNode FunctionT Content self key) H0)
      as H.
    unfold kept. destruct (remove _ _ _); exact H.
  - pose proof (@hoare_run _ _ _ _ _ _ w (@ids_add _ _ _ str_of_state apply_chunk
                  client_run _parse_tags call_function self other Hcall) H0)
      as H.
    unfold kept. destruct (__add__ _ _ _ _ _ _ _ _); exact H.
Qed.

End Theorems.
End TreeTheorems.

Module StreamProperties.
Import Tree TreeProperties TreeSpec ModelProperties Stream.

Section Streams.
Variables ASTNode FunctionT Content : Type.
Variable G : Type.
Variable grammar_add : G -> G -> G.
Implicit Types (w : World ASTNode FunctionT Content) (m : ref).
Implicit Types o : Model Content.

Lemma init_on_quiet m (g : stream_grammar G) t w :
  is_quiet w m ->
  ModelStream_init m g t w = Ok (MkModelStream m g t) w.
Proof.
  intros (o & Ho & He). unfold ModelStream_init, bind, deref.
  rewrite Ho, He. reflexivity.
Qed.

(** X19: a stream never echoes, and turns echoing off on a node of its
    own. Given a node that echoes, [ModelStream.__init__] copies it and
    clears the flag on the copy, so that the given node is left as it
    was; the copy is made while the flag is still set, so the renderer
    is sent the one message that announces the copy. Given a node that
    does not echo, the stream keeps that node and nothing changes. *)
Theorem stream_init_turns_echo_off_on_a_copy m (g : stream_grammar G) t w
  o :
  nth_error (models w) m = Some o ->
  exists s w',
    ModelStream_init m g t w = Ok s w'
    /\ grammar_of s = g /\ timeout_of s = t
    /\ is_quiet w' (model_of s)
    /\ (forall q, q < List.length (models w) ->
          observe w' q = observe w q)
    /\ if echo o then
         model_of s = List.length (models w)
         /\ one_more w w'
         /\ renderer w'
            = renderer w ++ [(_id_counter w, Some (_id o), None)]
         /\ exists o',
              nth_error (models w') (model_of s) = Some o'
              /\ _state o' = _state o /\ _parent o' = Some m
              /\ token_count o' = token_count o
       else model_of s = m /\ w' = w.
Proof.
  intros Ho. destruct (echo o) eqn:He.
  - unfold ModelStream_init, bind at 1, deref. rewrite Ho, He.
    unfold bind at 1. unfold bind at 1. rewrite (copy_eq _ _ Ho).
    unfold bind.
    erewrite (@assign_newest_eq _ _ _ (copy_world m o w)
                (copy_node m o w) (with_echo false) (models w));
      [|reflexivity].
    unfold ret. eexists. eexists. split; [reflexivity|].
    split; [reflexivity|]. split; [reflexivity|]. simpl.
    assert (extends w
              (set_models (models w ++ [with_echo false (copy_node m o w)])
                          (copy_world m o w))) as Hext
      by (split; simpl; [eexists; reflexivity|reflexivity]).
    split; [|split].
    + eexists. split; [apply nth_error_snoc|reflexivity].
    + intros q Hq. now apply extends_observe.
    + split; [reflexivity|]. split.
      * split; simpl; [eexists; reflexivity|reflexivity].
      * rewrite He. split; [reflexivity|]. eexists.
        split; [apply nth_error_snoc|]. repeat split.
  - assert (is_quiet w m) as Hq by (exists o; auto).
    rewrite (init_on_quiet g t Hq). eexists. eexists.
    split; [reflexivity|]. simpl. repeat split; auto.
Qed.

(** X20: extending a stream builds a new stream with the default
    timeout, whatever the timeout of the stream that is extended. On a
    stream whose node (and that of every stream nested in it) does not
    echo, [+] returns a stream over the same node, which it neither
    copies nor changes, with a grammar and a timeout of 5. *)
Theorem stream_add_resets_timeout (g : G) w : forall s : ModelStream G,
  stream_quiet w s ->
  exists s',
    stream_add grammar_add s g w = Ok s' w
    /\ model_of s' = model_of s
    /\ timeout_of s' = default_timeout
    /\ grammar_of s' <> GNone G
    /\ stream_quiet w s'.
Proof.
  fix IH 1. intros [m g0 t] [Hm Hg]. destruct g0 as [|s0|g1].
  - cbn [stream_add]. rewrite (init_on_quiet _ _ Hm). eexists.
    split; [reflexivity|]. simpl. repeat split; auto. discriminate.
  - destruct (IH s0 Hg) as (s1 & E1 & _ & _ & _ & Hq1).
    cbn [stream_add]. unfold bind. rewrite E1.
    rewrite (init_on_quiet _ _ Hm). eexists.
    split; [reflexivity|]. simpl. repeat split; auto. discriminate.
  - cbn [stream_add]. rewrite (init_on_quiet _ _ Hm). eexists.
    split; [reflexivity|]. simpl. repeat split; auto. discriminate.
Qed.

End Streams.
End StreamProperties.

(* ------------------------------------------------------------------ *)
(** ** The tree properties on a sample world *)

(** X12 on the variable ["y"] set on the sample root. *)
Lemma set_overrides_one_variable_witness :
  exists w' o',
    Tree.set 0 "y" (Scalar "2"%string) (Sample.world true) = Ok 1 w'
    /\ nth_error (Tree.models w') 1 = Some o'
    /\ dget (Tree.captures (Tree._state o')) "x"
       = Some (Scalar (Tree.fresh_var "1")).
Proof.
  destruct (@ModelProperties.set_overrides_one_variable _ Empty_set _
              0 "y"%string (Scalar "2"%string) (Sample.world true)
              (Sample.root true) eq_refl)
    as (w' & o' & E & Hn & _ & _ & Hk & _).
  exists w', o'. split; [exact E|]. split; [exact Hn|].
  rewrite Hk; [reflexivity|discriminate].
Defined.

(** X13 on the variable ["x"] of the sample root. *)
Lemma remove_deletes_one_variable_witness :
  NoDup (PyDict.keys (Tree.captures (Tree._state (Sample.root true))))
  /\ exists w',
       Tree.remove 0 "x" (Sample.world true) = Ok 1 w'
       /\ Tree.__contains__ 1 "x" w' = Ok false w'.
Proof.
  assert (NoDup (PyDict.keys
                   (Tree.captures (Tree._state (Sample.root true))))) as Hn
    by (constructor; [simpl; tauto|constructor]).
  split; [exact Hn|].
  destruct (@ModelProperties.remove_deletes_one_variable _ Empty_set _
              0 "x"%string (Sample.world true) (Sample.root true) eq_refl Hn)
    as (w' & o' & E & _ & _ & Hc & _).
  exists w'. split; [exact E|exact Hc].
Defined.

(** X14 on the variables ["x"] and ["y"] of the sample root. *)
Lemma readers_agree_witness :
  (exists b, Tree.__contains__ 0 "x" (Sample.world true)
             = Ok b (Sample.world true))
  /\ (exists b, Tree.__contains__ 0 "y" (Sample.world true)
                = Ok b (Sample.world true)).
Proof.
  split.
  - destruct (@ModelProperties.readers_agree _ Empty_set _ 0 "x"%string
                unit tt (Sample.world true) (Sample.root true) eq_refl)
      as (b & E & _).
    exists b. exact E.
  - destruct (@ModelProperties.readers_agree _ Empty_set _ 0 "y"%string
                unit tt (Sample.world true) (Sample.root true) eq_refl)
      as (b & E & _).
    exists b. exact E.
Defined.

(** X15 on a text chunk of three tokens and on a chunk of another kind. *)
Lemma apply_chunk_publishes_one_node_witness :
  (exists w' o',
     Tree._apply_chunk Tree.Literal.apply_chunk 0 (Tree.TextOutput "c" 3)
                       (Sample.world true) = Ok 1 w'
     /\ Tree.models w' = Tree.models (Sample.world true) ++ [o']
     /\ Tree.token_count o' = 3%Z
     /\ Tree.event_queues w' = [[1]])
  /\ (exists w',
        Tree._apply_chunk Tree.Literal.apply_chunk 0 (Tree.UnknownChunk "c")
                          (Sample.world true) = Raise NotImplementedError w'
        /\ Tree.event_queues w' = [[]]).
Proof.
  split.
  - destruct (@ModelProperties.apply_chunk_publishes_one_node _ Empty_set _
                Tree.Literal.apply_chunk 0 (Tree.TextOutput "c" 3)
                (Sample.world true) (Sample.root true) eq_refl)
      as (w' & o' & E & Hm & _ & Ht & Hq & _).
    exists w', o'. split; [exact E|]. split; [exact Hm|].
    split; [exact Ht|exact Hq].
  - destruct (@ModelProperties.apply_chunk_publishes_one_node _ Empty_set _
                Tree.Literal.apply_chunk 0 (Tree.UnknownChunk "c")
                (Sample.world true) (Sample.root true) eq_refl)
      as (w' & E & _ & Hq & _).
    exists w'. split; [exact E|exact Hq].
Defined.

(** X16 on the text ["hi"], run into two chunks of one token each. *)
Lemma apply_node_accumulates_witness :
  Forall (fun c => Tree.is_supported c = true)
         (Sample.client_run (Tree._state (Sample.root true)) "hi")
  /\ exists r w' o',
       Tree._apply_node Tree.Literal.apply_chunk Sample.client_run 0
                        "hi"%string (Sample.world true) = Ok r w'
       /\ nth_error (Tree.models w') r = Some o'
       /\ Tree.token_count o' = 2%Z
       /\ List.length (Tree.models w') = 3
       /\ Tree.event_queues w' = [[1; 2]].
Proof.
  assert (Forall (fun c => Tree.is_supported c = true)
            (Sample.client_run (Tree._state (Sample.root true)) "hi"))
    as Hs by (repeat constructor).
  split; [exact Hs|].
  destruct (@ModelProperties.apply_node_accumulates _ Empty_set _
              Tree.Literal.apply_chunk Sample.client_run 0 "hi"%string
              (Sample.world true) (Sample.root true) eq_refl Hs)
    as (r & w' & o' & E & Hn & _ & Ht & Hl & _ & Hq & _).
  exists r, w', o'. split; [exact E|]. split; [exact Hn|].
  split; [exact Ht|]. split; [exact Hl|exact Hq].
Defined.

(** X17 on the sample root that does not echo, extended by ["hi"]. *)
Lemma non_echo_model_never_renders_witness :
  TreeSpec.is_quiet (Sample.world false) 0
  /\ TreeSpec.quiet_outcome (Sample.world false)
       (Tree.Literal.add 0 (Tree.FStr _ _ "hi") (Sample.world false)).
Proof.
  assert (TreeSpec.is_quiet (Sample.world false) 0) as Hq
    by (exists (Sample.root false); split; reflexivity).
  split; [exact Hq|].
  apply (proj1 (@TreeTheorems.non_echo_model_never_renders _ _ _
                  (@Tree.content string) Tree.Literal.apply_chunk
                  Tree.Literal.client_run Tree.Literal._parse_tags
                  Tree.Literal.call_function 0 (Tree.FStr _ _ "hi")
                  "x"%string (Scalar "2"%string) (Sample.world false)
                  (fun R (f : Empty_set) => match f with end) Hq)).
Defined.

(** X18 on the sample world, extended by ["hi"]. *)
Lemma node_ids_stay_unique_witness :
  TreeSpec.ids_ok (Sample.world true)
  /\ kept (@TreeSpec.ids_ok _ _ _)
          (Tree.Literal.add 0 (Tree.FStr _ _ "hi") (Sample.world true)).
Proof.
  assert (TreeSpec.ids_ok (Sample.world true)) as H0.
  { split; [repeat constructor|]. split.
    - constructor; [simpl; tauto|constructor].
    - intros r o H. destruct r as [|r].
      + inversion H. reflexivity.
      + destruct r; discriminate. }
  split; [exact H0|].
  apply (proj2 (proj2 (proj2 (proj2 (proj2
          (@TreeTheorems.node_ids_stay_unique _ _ _
             (@Tree.content string) Tree.Literal.apply_chunk
             Tree.Literal.client_run Tree.Literal._parse_tags
             Tree.Literal.call_function 0 (Tree.FStr _ _ "hi")
             "x"%string (Scalar "2"%string) Sample.state true
             (Sample.world true)
             (fun (f : Empty_set) => match f with end) H0)))))).
Defined.

(** X19 on the sample root that echoes. *)
Lemma stream_init_turns_echo_off_on_a_copy_witness :
  exists s w',
    Stream.ModelStream_init 0 (Stream.GNone string) 60 (Sample.world true)
    = Ok s w'
    /\ TreeSpec.is_quiet w' (Stream.model_of s)
    /\ Tree.Literal.observe w' 0 = Tree.Literal.observe (Sample.world true) 0.
Proof.
  destruct (@StreamProperties.stream_init_turns_echo_off_on_a_copy
              _ Empty_set _ string 0 (Stream.GNone string) 60%Z
              (Sample.world true) (Sample.root true) eq_refl)
    as (s & w' & E & _ & _ & Hq & Hobs & _).
  exists s, w'. split; [exact E|]. split; [exact Hq|].
  apply Hobs. simpl. apply le_n.
Defined.

(** X20 on a stream with a timeout of 60 over the quiet sample root. *)
Lemma stream_add_resets_timeout_witness :
  TreeSpec.stream_quiet (Sample.world false)
    (Stream.MkModelStream 0 (Stream.GNone string) 60)
  /\ exists s',
       Stream.stream_add String.append
         (Stream.MkModelStream 0 (Stream.GNone string) 60) "hi"%string
         (Sample.world false) = Ok s' (Sample.world false)
       /\ Stream.timeout_of s' = 5%Z.
Proof.
  assert (TreeSpec.stream_quiet (Sample.world false)
            (Stream.MkModelStream 0 (Stream.GNone string) 60)) as Hq
    by (split; [exists (Sample.root false); split; reflexivity|exact I]).
  split; [exact Hq|].
  destruct (@StreamProperties.stream_add_resets_timeout _ Empty_set _ string
              String.append "hi"%string (Sample.world false) _ Hq)
    as (s' & E & _ & Ht & _).
  exists s'. split; [exact E|exact Ht].
Defined.

Module AddProperties.
Import Tree TreeProperties TreeSpec ModelProperties.

Section Add.
Variables ASTNode FunctionT Content : Type.
Variable str_of_state : State Content -> string.
Variable apply_chunk : State Content -> MessageChunk -> State Content.
Variable client_run : State Content -> ASTNode -> list MessageChunk.
Variable _parse_tags : string -> grammar ASTNode FunctionT.
Variable call_function :
  FunctionT -> ref -> M (World ASTNode FunctionT Content) ref.
Implicit Types (w : World ASTNode FunctionT Content) (self r : ref).
Implicit Types o : Model Content.

(** With no block active, globally or on the node, reconciling the
    blocks is a copy. *)
Lemma apply_blocks_idle self w o :
  nth_error (models w) self = Some o ->
  active_blocks w = [] ->
  nth_error (dicts w) (_active_blocks o) = Some [] ->
  _apply_blocks str_of_state apply_chunk client_run _parse_tags self w
  = Ok (List.length (models w)) (copy_world self o w).
Proof.
  intros Ho Ha Hd. unfold _apply_blocks, bind at 1. rewrite (copy_eq _ _ Ho).
  unfold bind, get_state, deref, deref_dict.
  cbn [models dicts copy_world active_blocks].
  rewrite nth_error_snoc. cbn [_active_blocks copy_node].
  change (dicts (copy_world self o w)) with (dicts w).
  rewrite Hd, Ha. reflexivity.
Qed.

Lemma update_open_block_captures_idle self w o :
  nth_error (models w) self = Some o ->
  nth_error (dicts w) (_active_blocks o) = Some [] ->
  _update_open_block_captures str_of_state self w
  = Ok (List.length (models w)) (copy_world self o w).
Proof.
  intros Ho Hd. unfold _update_open_block_captures, bind at 1.
  rewrite (copy_eq _ _ Ho).
  unfold bind, deref, deref_dict. cbn [models dicts copy_world].
  rewrite nth_error_snoc. cbn [_active_blocks copy_node].
  change (dicts (copy_world self o w)) with (dicts w).
  rewrite Hd. reflexivity.
Qed.

(** X21: [+] outside any block. Adding the empty string is a copy: the
    client is not run and the text is not parsed. Adding a node whose
    chunks are all of a supported kind copies the node, applies the
    chunks to copy after copy and copies once more: the result holds the
    state after all the chunks and the token counts added up, two nodes
    more than chunks have been allocated, and the event queues have
    received the node of each chunk but not the node that is returned,
    whose parent is the last node queued (or the first copy, when there
    is no chunk) and has the same state. *)
Theorem add_outside_blocks self node w o :
  nth_error (models w) self = Some o ->
  active_blocks w = [] ->
  nth_error (dicts w) (_active_blocks o) = Some [] ->
  Forall (fun c => is_supported c = true) (client_run (_state o) node) ->
  __add__ str_of_state apply_chunk client_run _parse_tags call_function
          self (FStr _ _ "") w
  = copy self w
  /\ exists r w' o' p,
       __add__ str_of_state apply_chunk client_run _parse_tags call_function
               self (FGrammar (GNode _ node)) w = Ok r w'
       /\ nth_error (models w') r = Some o'
       /\ _state o' = fold_left apply_chunk (client_run (_state o) node)
                                (_state o)
       /\ token_count o'
          = (token_count o
             + zsum (map chunk_tokens (client_run (_state o) node)))%Z
       /\ r = List.length (models w)
              + List.length (client_run (_state o) node) + 1
       /\ List.length (models w') = S r
       /\ event_queues w'
          = map (fun q => q ++ seq (List.length (models w) + 1)
                            (List.length (client_run (_state o) node)))
                (event_queues w)
       /\ _parent o' = Some (r - 1)
       /\ nth_error (models w') (r - 1) = Some p
       /\ _state p = _state o'.
Proof.
  intros Ho Ha Hd Hs. split.
  - unfold __add__, bind. rewrite (@apply_blocks_idle self w o Ho Ha Hd).
    rewrite (copy_eq _ _ Ho). reflexivity.
  - unfold __add__, bind at 1. rewrite (@apply_blocks_idle self w o Ho Ha Hd).
    assert (nth_error (models (copy_world self o w))
                      (List.length (models w))
            = Some (copy_node self o w)) as Ho1 by apply nth_error_snoc.
    destruct (@for_acc_chunks ASTNode FunctionT Content apply_chunk
                (client_run (_state o) node) _ _ _ Ho1 Hs)
      as (r & w2 & o2 & E & Hr & [added Hm] & Hd2 & Hst & Htc & _ & Hb
          & Hl & _ & Hq & Hlast).
    assert (_apply_node apply_chunk client_run (List.length (models w)) node
                        (copy_world self o w) = Ok r w2) as En.
    { unfold _apply_node, bind, deref. rewrite Ho1. exact E. }
    unfold bind. rewrite En.
    assert (nth_error (dicts w2) (_active_blocks o2) = Some []) as Hd3
      by (rewrite Hd2, Hb; exact Hd).
    rewrite (@update_open_block_captures_idle r w2 o2 Hr Hd3).
    assert (List.length (models (copy_world self o w))
            = List.length (models w) + 1) as Hl1
      by (simpl; now rewrite length_app).
    exists (List.length (models w2)), (copy_world r o2 w2),
      (copy_node r o2 w2), o2.
    split; [reflexivity|].
    split; [apply nth_error_snoc|].
    split; [exact Hst|].
    split; [exact Htc|].
    split; [lia|].
    split; [simpl; rewrite length_app; simpl; lia|].
    split; [simpl; rewrite Hq, Hl1; reflexivity|].
    assert (r = List.length (models w2) - 1) as Hrr.
    { rewrite Hl1 in Hl. revert Hl Hlast.
      destruct (client_run (_state o) node); cbn [List.length]; lia. }
    replace (List.length (models w2) - 1) with r by exact Hrr.
    split; [reflexivity|].
    split; [simpl; rewrite nth_error_app1;
            [exact Hr|apply nth_error_Some; congruence]|].
    reflexivity.
Qed.

End Add.
End AddProperties.

(* ================================================================== *)
(** * Properties of the Phi-3 vision engine's prompt tokens *)

Lemma find_last_multimodal_spec (len idx0 : Z) (l : list Z) : forall k,
  (Forall (fun t => 0 <= t)%Z l ->
   Phi3V.find_last_multimodal len (combine (seq k (List.length l)) l) idx0
   = idx0)
  /\ (forall a t b,
        l = a ++ t :: b -> Forall (fun t => 0 <= t)%Z a -> (t < 0)%Z ->
        Phi3V.find_last_multimodal len (combine (seq k (List.length l)) l)
                                   idx0
        = (len - Z.of_nat (k + List.length a) - 1)%Z).
Proof.
  induction l as [|x l IH]; intros k.
  - split; [reflexivity|]. intros [|? ?] ? ? H; discriminate.
  - destruct (IH (S k)) as [IH1 IH2]. split.
    + intros H. inversion H; subst. simpl.
      destruct (Z.ltb_spec x 0); [lia|]. now apply IH1.
    + intros a t b E Ha Ht. destruct a as [|y a]; simpl in E.
      * inversion E; subst. simpl.
        destruct (Z.ltb_spec t 0); [|lia]. f_equal. f_equal. lia.
      * inversion E; subst. inversion Ha; subst. simpl.
        destruct (Z.ltb_spec y 0); [lia|].
        rewrite (IH2 a t b eq_refl); [|assumption|assumption].
        f_equal. f_equal. lia.
Qed.

(** X22: the interpreter is never handed a multimodal token. When the
    prompt holds no negative token id, all of it goes through
    [process_prompt]; otherwise the loop finds the position of the last
    negative id, only the ids after it (none of them negative) go
    through [process_prompt], and the tokens of the parser start with
    every id up to and including that last negative one, unchanged. The
    BOS id is passed on only with [ensure_bos_token]. *)
Theorem phi3v_keeps_multimodal_prefix Interp
  (process_prompt : list Z -> Interp -> option Z -> list Z * Interp)
  (tokens : list Z) (interp : Interp) (ensure : bool) (bos : option Z) :
  (Forall (fun t => 0 <= t)%Z tokens ->
   Phi3V.last_multimodal_index tokens = (-1)%Z
   /\ Phi3V.start_prompt_tokens process_prompt tokens interp ensure bos
      = process_prompt tokens interp (if ensure then bos else None))
  /\ (forall pre t post,
        tokens = pre ++ t :: post -> (t < 0)%Z ->
        Forall (fun t => 0 <= t)%Z post ->
        Phi3V.last_multimodal_index tokens = Z.of_nat (List.length pre)
        /\ Phi3V.start_prompt_tokens process_prompt tokens interp ensure bos
           = (pre ++ t :: fst (process_prompt post interp
                                 (if ensure then bos else None)),
              snd (process_prompt post interp
                     (if ensure then bos else None)))).
Proof.
  assert ((if ensure
              && match bos with Some _ => true | None => false end
           then bos else None) = (if ensure then bos else None)) as Hb
    by (destruct ensure, bos; reflexivity).
  unfold Phi3V.start_prompt_tokens, Phi3V.last_multimodal_index, enumerate.
  rewrite Hb. split.
  - intros H.
    destruct (find_last_multimodal_spec (Z.of_nat (List.length tokens))
                (-1) (rev tokens) 0) as [H1 _].
    rewrite H1 by (now apply Forall_rev). split; reflexivity.
  - intros pre t post E Ht Hp.
    destruct (find_last_multimodal_spec (Z.of_nat (List.length tokens))
                (-1) (rev tokens) 0) as [_ H2].
    rewrite (H2 (rev post) t (rev pre)).
    2:{ rewrite E, rev_app_distr. simpl. now rewrite <- app_assoc. }
    2:{ now apply Forall_rev. }
    2:{ exact Ht. }
    assert (Z.of_nat (List.length tokens)
              - Z.of_nat (0 + List.length (rev post)) - 1
            = Z.of_nat (List.length pre))%Z as Hi.
    { rewrite E, length_app, length_rev. simpl. lia. }
    rewrite Hi. split; [reflexivity|].
    destruct (Z.eqb_spec (Z.of_nat (List.length pre)) (-1)); [lia|].
    cbn [negb].
    assert (Phi3V.slice_from tokens (Z.of_nat (List.length pre) + 1) = post)
      as Hfrom.
    { unfold Phi3V.slice_from.
      destruct (Z.ltb_spec (Z.of_nat (List.length pre) + 1) 0); [lia|].
      rewrite E at 2.
      replace (Z.to_nat _) with (List.length (pre ++ [t])).
      - replace (pre ++ t :: post) with ((pre ++ [t]) ++ post)
          by (now rewrite <- app_assoc).
        rewrite skipn_app, skipn_all, Nat.sub_diag. reflexivity.
      - rewrite E, !length_app. simpl. lia. }
    assert (slice_to tokens (Z.of_nat (List.length pre) + 1) = pre ++ [t])
      as Hto.
    { unfold slice_to.
      destruct (Z.ltb_spec (Z.of_nat (List.length pre) + 1) 0); [lia|].
      rewrite E at 2.
      replace (Z.to_nat _) with (List.length (pre ++ [t])).
      - replace (pre ++ t :: post) with ((pre ++ [t]) ++ post)
          by (now rewrite <- app_assoc).
        rewrite firstn_app, firstn_all, Nat.sub_diag. simpl.
        now rewrite app_nil_r.
      - rewrite E, !length_app. simpl. lia. }
    rewrite Hfrom, Hto.
    destruct (process_prompt post interp (if ensure then bos else None)).
    simpl. now rewrite <- app_assoc.
Qed.

(** X22 on a prompt with two image tokens. *)
Lemma phi3v_keeps_multimodal_prefix_witness :
  Phi3V.start_prompt_tokens (fun ts (i : unit) (_ : option Z) => (ts, i))
                            [1; -1; 2; -2; 3]%Z tt true (Some 1%Z)
  = ([1; -1; 2; -2; 3]%Z, tt).
Proof.
  apply (proj2 (proj2 (@phi3v_keeps_multimodal_prefix unit
                  (fun ts (i : unit) (_ : option Z) => (ts, i))
                  [1; -1; 2; -2; 3]%Z tt true (Some 1%Z))
                [1; -1; 2]%Z (-2)%Z [3%Z] eq_refl eq_refl
                ltac:(repeat constructor; discriminate))).
Defined.

(** X21 on the sample world, extended by the text ["hi"]. *)
Lemma add_outside_blocks_witness :
  Forall (fun c => Tree.is_supported c = true)
         (Sample.client_run (Tree._state (Sample.root true)) "hi")
  /\ exists r w',
       Tree.__add__ (@Tree.content string) Tree.Literal.apply_chunk
                    Sample.client_run Tree.Literal._parse_tags
                    Tree.Literal.call_function 0
                    (Tree.FGrammar (Tree.GNode _ "hi"%string))
                    (Sample.world true) = Ok r w'
       /\ r = 4
       /\ Tree.event_queues w' = [[2; 3]].
Proof.
  assert (Forall (fun c => Tree.is_supported c = true)
            (Sample.client_run (Tree._state (Sample.root true)) "hi"))
    as Hs by (repeat constructor).
  split; [exact Hs|].
  destruct (proj2 (@AddProperties.add_outside_blocks _ _ _
              (@Tree.content string) Tree.Literal.apply_chunk
              Sample.client_run Tree.Literal._parse_tags
              Tree.Literal.call_function 0 "hi"%string (Sample.world true)
              (Sample.root true) eq_refl eq_refl eq_refl Hs))
    as (r & w' & o' & p & E & _ & _ & _ & Hr & _ & Hq & _).
  exists r, w'. split; [exact E|]. split; [exact Hr|exact Hq].
Defined.

(* ================================================================== *)
(** * Properties of the monitoring loop *)

Lemma skipn_1_tl {A} (l : list A) : skipn 1 l = tl l.
Proof. destruct l; reflexivity. Qed.

Section MonitorProperties.
Variable int_div_int : Z -> Z -> float.
Variable int_div_float : Z -> float -> float.
Variable to_collect_gpu_stats : bool.
Variable max_size : Z.
Variable interval_ms : float.
Hypothesis max_size_ok : (0 <= max_size)%Z.

Lemma trim_Ret {A} (l : list A) :
  Metrics.trim max_size l = Ret (Metrics.trimmed max_size l).
Proof.
  unfold Metrics.trim, Metrics.trimmed.
  destruct (Z.gtb_spec (Z.of_nat (List.length l)) max_size);
    [|reflexivity].
  destruct l; [simpl in *; lia|reflexivity].
Qed.

Lemma window_same {A} (l : list A) :
  (Z.of_nat (List.length l) <= max_size)%Z -> Metrics.window max_size l = l.
Proof.
  intros H. unfold Metrics.window.
  replace (List.length l - Z.to_nat max_size) with 0 by lia. reflexivity.
Qed.

Lemma trimmed_same {A} (l : list A) :
  (Z.of_nat (List.length l) <= max_size)%Z ->
  Metrics.trimmed max_size l = l.
Proof.
  intros H. unfold Metrics.trimmed.
  destruct (Z.gtb_spec (Z.of_nat (List.length l)) max_size); [lia|].
  reflexivity.
Qed.

Lemma trimmed_window {A} (l : list A) (x : A) :
  (Z.of_nat (List.length l) <= max_size)%Z ->
  Metrics.trimmed max_size (l ++ [x]) = Metrics.window max_size (l ++ [x]).
Proof.
  intros H. unfold Metrics.trimmed, Metrics.window.
  rewrite length_app. simpl.
  destruct (Z.gtb_spec (Z.of_nat (List.length l + 1)) max_size).
  - replace (List.length l + 1 - Z.to_nat max_size) with 1 by lia.
    now rewrite skipn_1_tl.
  - replace (List.length l + 1 - Z.to_nat max_size) with 0 by lia.
    reflexivity.
Qed.

Lemma window_length {A} (l : list A) :
  (Z.of_nat (List.length (Metrics.window max_size l)) <= max_size)%Z.
Proof. unfold Metrics.window. rewrite length_skipn. lia. Qed.

Lemma window_window_app {A} (a xs : list A) :
  Metrics.window max_size (Metrics.window max_size a ++ xs)
  = Metrics.window max_size (a ++ xs).
Proof.
  unfold Metrics.window.
  set (k := List.length a - Z.to_nat max_size).
  assert (skipn k a ++ xs = skipn k (a ++ xs)) as E.
  { rewrite skipn_app. replace (k - List.length a) with 0 by lia.
    reflexivity. }
  rewrite E, skipn_skipn. f_equal.
  rewrite length_skipn, !length_app. lia.
Qed.

Lemma trim_all_eq (s : Metrics.state) :
  Metrics.trim_all max_size s
  = Ok tt {| Metrics.CPU_USAGE :=
               Metrics.trimmed max_size (Metrics.CPU_USAGE s);
             Metrics.MEM_USAGE :=
               Metrics.trimmed max_size (Metrics.MEM_USAGE s);
             Metrics.GPU_USAGE :=
               Metrics.trimmed max_size (Metrics.GPU_USAGE s);
             Metrics.GPU_USED_MEM :=
               Metrics.trimmed max_size (Metrics.GPU_USED_MEM s);
             Metrics.GPU_TOTAL_MEM :=
               Metrics.trimmed max_size (Metrics.GPU_TOTAL_MEM s);
             Metrics.slept := Metrics.slept s |}.
Proof.
  unfold Metrics.trim_all, bind, get_state.
  rewrite !trim_Ret. reflexivity.
Qed.

Lemma turn_eq (rd : Metrics.reading) (s : Metrics.state) :
  Metrics.turn int_div_int int_div_float to_collect_gpu_stats max_size
               interval_ms rd s
  = match Metrics.gpu_part int_div_float to_collect_gpu_stats rd with
    | Exc e => Raise e (Metrics.append_cpu_mem int_div_int rd s)
    | Ret g =>
        if Metrics.overrun interval_ms rd
        then Raise ValueError
               (Metrics.sampled int_div_int max_size rd g s)
        else Ok tt (Metrics.sampled int_div_int max_size rd g s)
    end.
Proof.
  unfold Metrics.turn, bind at 1, modify. unfold bind at 1.
  unfold Metrics.gpu_part, Metrics.collect_gpu.
  destruct to_collect_gpu_stats.
  - unfold bind at 1, lift.
    destruct (Metrics.new_query rd) as [gpus|e]; [|reflexivity].
    unfold ret at 1. unfold bind at 1.
    destruct (Metrics.usage_of int_div_float gpus) as [usage|e];
      [|reflexivity].
    unfold ret at 1, modify. unfold bind at 1.
    rewrite trim_all_eq. unfold Metrics.overrun, Metrics.time_sleep.
    destruct (PrimFloat.ltb _ 0); reflexivity.
  - unfold ret at 1. unfold bind at 1.
    rewrite trim_all_eq. unfold Metrics.overrun, Metrics.time_sleep.
    destruct (PrimFloat.ltb _ 0); reflexivity.
Qed.

Lemma monitor_fn_cons rd rest (s : Metrics.state) :
  Metrics.stop_flag rd = false ->
  Metrics._monitor_fn int_div_int int_div_float to_collect_gpu_stats
                      max_size interval_ms (rd :: rest) s
  = match Metrics.gpu_part int_div_float to_collect_gpu_stats rd with
    | Exc _ => Ok tt (Metrics.append_cpu_mem int_div_int rd s)
    | Ret g =>
        if Metrics.overrun interval_ms rd
        then Ok tt (Metrics.sampled int_div_int max_size rd g s)
        else Metrics._monitor_fn int_div_int int_div_float
               to_collect_gpu_stats max_size interval_ms rest
               (Metrics.sampled int_div_int max_size rd g s)
    end.
Proof.
  intros Hstop. unfold Metrics._monitor_fn.
  cbn [Metrics.monitor_loop]. rewrite Hstop. unfold bind.
  rewrite turn_eq.
  destruct (Metrics.gpu_part int_div_float to_collect_gpu_stats rd)
    as [g|e]; [|reflexivity].
  destruct (Metrics.overrun interval_ms rd); reflexivity.
Qed.

Lemma sampled_slept rd g s :
  Metrics.slept (Metrics.sampled int_div_int max_size rd g s)
  = Metrics.slept s.
Proof. destruct g as [[[u mu] mt]|]; reflexivity. Qed.

(** X23: the monitoring loop never sleeps, and a turn that takes longer
    than the interval ends the monitoring. The sleep is requested only
    for a negative time, which [time.sleep] refuses with a [ValueError]
    that the [except] swallows: so no call of [time.sleep] ever returns;
    after a turn within the interval the next turn starts at once, and
    after a turn beyond it the function returns, with the samples of
    that turn recorded and without the stop flag having been set. A
    turn whose GPU part raises ends the function as well, with the CPU
    and memory samples of the turn appended and nothing trimmed. *)
Theorem monitor_never_sleeps (readings : list Metrics.reading)
  (s : Metrics.state) :
  kept (fun s' => Metrics.slept s' = Metrics.slept s)
       (Metrics._monitor_fn int_div_int int_div_float to_collect_gpu_stats
                            max_size interval_ms readings s)
  /\ forall rd rest,
       readings = rd :: rest -> Metrics.stop_flag rd = false ->
       Metrics._monitor_fn int_div_int int_div_float to_collect_gpu_stats
                           max_size interval_ms readings s
       = match Metrics.gpu_part int_div_float to_collect_gpu_stats rd with
         | Exc _ => Ok tt (Metrics.append_cpu_mem int_div_int rd s)
         | Ret g =>
             if Metrics.overrun interval_ms rd
             then Ok tt (Metrics.sampled int_div_int max_size rd g s)
             else Metrics._monitor_fn int_div_int int_div_float
                    to_collect_gpu_stats max_size interval_ms rest
                    (Metrics.sampled int_div_int max_size rd g s)
         end.
Proof.
  split.
  - revert s. induction readings as [|rd rest IH]; intros s; [exact I|].
    destruct (Metrics.stop_flag rd) eqn:Hstop.
    { unfold Metrics._monitor_fn. cbn [Metrics.monitor_loop].
      rewrite Hstop. reflexivity. }
    rewrite (@monitor_fn_cons rd rest s Hstop).
    destruct (Metrics.gpu_part int_div_float to_collect_gpu_stats rd)
      as [g|e]; [|reflexivity].
    destruct (Metrics.overrun interval_ms rd); [apply sampled_slept|].
    specialize (IH (Metrics.sampled int_div_int max_size rd g s)).
    rewrite sampled_slept in IH. exact IH.
  - intros rd rest -> Hstop. now apply monitor_fn_cons.
Qed.

Lemma recorded_nil s :
  Metrics.within max_size s -> Metrics.recorded int_div_int max_size [] s = s.
Proof.
  intros (H1 & H2 & H3 & H4 & H5). destruct s. unfold Metrics.recorded.
  simpl in *. rewrite !app_nil_r, !window_same by assumption. reflexivity.
Qed.

Lemma recorded_within turns s :
  Metrics.within max_size (Metrics.recorded int_div_int max_size turns s).
Proof. repeat split; apply window_length. Qed.

Lemma sampled_within rd g s :
  Metrics.within max_size s ->
  Metrics.within max_size (Metrics.sampled int_div_int max_size rd g s).
Proof.
  intros (H1 & H2 & H3 & H4 & H5).
  unfold Metrics.within, Metrics.sampled, Metrics.appended.
  destruct g as [[[u mu] mt]|]; cbn -[Metrics.window Metrics.trimmed];
    rewrite ?trimmed_window by assumption;
    repeat split; try apply window_length;
    rewrite trimmed_same by assumption; assumption.
Qed.

Lemma recorded_cons rd g turns s :
  Metrics.within max_size s ->
  Metrics.recorded int_div_int max_size turns
    (Metrics.sampled int_div_int max_size rd g s)
  = Metrics.recorded int_div_int max_size ((rd, g) :: turns) s.
Proof.
  intros (H1 & H2 & H3 & H4 & H5).
  unfold Metrics.recorded, Metrics.sampled, Metrics.appended.
  destruct g as [[[u mu] mt]|]; cbn -[Metrics.window Metrics.trimmed];
    f_equal;
    rewrite ?trimmed_window, ?window_window_app, <- ?app_assoc
      by assumption;
    try reflexivity;
    rewrite trimmed_same by assumption; reflexivity.
Qed.

(** X24: the lists of the monitor are a sliding window, but for a turn
    cut short. Started with no list above [max_size], the function
    returns exactly when the stop flag is seen set, or a turn takes
    longer than the interval, or the GPU part of a turn raises. It then
    leaves, in every list, the newest [max_size] of the samples held at
    the start followed by the samples of the turns that ran to their
    trimming, in order; so no list holds more than [max_size]. The one
    exception is a turn whose GPU part raises: its CPU and memory
    samples are appended on top and not trimmed any more, so that these
    two lists can hold [max_size + 1]. No exception leaves the
    function. *)
Theorem monitor_keeps_a_window (readings : list Metrics.reading)
  (s : Metrics.state) :
  Metrics.within max_size s ->
  Metrics._monitor_fn int_div_int int_div_float to_collect_gpu_stats
                      max_size interval_ms readings s
  = (if Metrics.ends int_div_float to_collect_gpu_stats interval_ms readings
     then Ok tt (Metrics.final int_div_int int_div_float
                   to_collect_gpu_stats max_size interval_ms readings s)
     else OutOfFuel)
  /\ Metrics.within max_size
       (Metrics.recorded int_div_int max_size
          (Metrics.completed int_div_float to_collect_gpu_stats interval_ms
                             readings) s).
Proof.
  intros Hw. split; [|apply recorded_within].
  revert s Hw. induction readings as [|rd rest IH]; intros s Hw;
    [reflexivity|].
  unfold Metrics.final. cbn [Metrics.ends Metrics.cut_short Metrics.completed].
  destruct (Metrics.stop_flag rd) eqn:Hstop.
  { unfold Metrics._monitor_fn. cbn [Metrics.monitor_loop]. rewrite Hstop.
    unfold ret. now rewrite recorded_nil. }
  rewrite (@monitor_fn_cons rd rest s Hstop).
  destruct (Metrics.gpu_part int_div_float to_collect_gpu_stats rd)
    as [g|e].
  2:{ now rewrite recorded_nil. }
  destruct (Metrics.overrun interval_ms rd).
  { rewrite <- recorded_cons by exact Hw.
    rewrite recorded_nil by (now apply sampled_within). reflexivity. }
  rewrite IH by (now apply sampled_within).
  unfold Metrics.final. now rewrite !recorded_cons by exact Hw.
Qed.

End MonitorProperties.

(** X23 on a turn of two seconds followed by a turn of half a second,
    with an interval of one second: the function returns after the first
    turn. *)
Lemma monitor_never_sleeps_witness :
  (0 <= 2)%Z
  /\ Metrics._monitor_fn MetricsSample.int_div_int
       MetricsSample.int_div_float true 2 1000
       [MetricsSample.slow; MetricsSample.quick] MetricsSample.empty
     = Ok tt (Metrics.sampled MetricsSample.int_div_int 2
                MetricsSample.slow
                (Some ([MetricsSample.int_div_float 50 100], [1%Z], [8%Z])
                 : option Metrics.gpu_sample)
                MetricsSample.empty).
Proof.
  assert (0 <= 2)%Z as H by (vm_compute; discriminate).
  split; [exact H|].
  exact (proj2 (@monitor_never_sleeps MetricsSample.int_div_int
                  MetricsSample.int_div_float true 2 1000 H
                  [MetricsSample.slow; MetricsSample.quick]
                  MetricsSample.empty)
               MetricsSample.slow [MetricsSample.quick] eq_refl eq_refl).
Defined.

(** X24 on four turns with room for two samples, the last one cut short
    by a GPU that does not report its utilization: the CPU list ends
    with three samples. *)
Lemma monitor_keeps_a_window_witness :
  (0 <= 2)%Z
  /\ Metrics.within 2 MetricsSample.empty
  /\ exists s',
       Metrics._monitor_fn MetricsSample.int_div_int
         MetricsSample.int_div_float true 2 1000
         [MetricsSample.quick; MetricsSample.quick; MetricsSample.quick;
          MetricsSample.silent] MetricsSample.empty
       = Ok tt s'
       /\ List.length (Metrics.CPU_USAGE s') = 3
       /\ List.length (Metrics.GPU_USAGE s') = 2.
Proof.
  assert (0 <= 2)%Z as H by (vm_compute; discriminate).
  assert (Metrics.within 2 MetricsSample.empty) as Hw
    by (repeat split; vm_compute; discriminate).
  split; [exact H|]. split; [exact Hw|].
  eexists. split.
  - exact (proj1 (@monitor_keeps_a_window MetricsSample.int_div_int
                    MetricsSample.int_div_float true 2 1000 H
                    [MetricsSample.quick; MetricsSample.quick;
                     MetricsSample.quick; MetricsSample.silent]
                    MetricsSample.empty Hw)).
  - split; reflexivity.
Defined.

(* ------------------------------------------------------------------ *)
(** ** The reconciliation of blocks *)

Lemma hoare_for_acc_indexed {S A I} (E : S -> Prop) (l : list A)
  (body : A -> Tree.ref -> M S Tree.ref)
  (Jx : I -> Tree.ref -> S -> Prop) (step : I -> A -> I) :
  (forall i x r, hoare (Jx i r) (body x r) (Jx (step i x)) E) ->
  forall i r, hoare (Jx i r) (Tree.for_acc l body r)
                    (Jx (fold_left step l i)) E.
Proof.
  intros Hb. induction l as [|x l IH]; intros i r; simpl.
  - apply hoare_ret. auto.
  - eapply hoare_bind; [apply Hb|]. intros r'. apply IH.
Qed.

Module BlockProperties.
Import Tree TreeProperties TreeSpec ModelProperties TreeInvariants.

Section BlockDicts.
Variables ASTNode FunctionT : Type.
Implicit Types (D : block_dict ASTNode FunctionT).
Implicit Types (b : Block ASTNode FunctionT).

Lemma bget_equiv D b b' :
  block_eqb b b' = true ->
  PyDict.get (@block_eqb _ _) D b = PyDict.get (@block_eqb _ _) D b'.
Proof.
  unfold block_eqb. intros H. apply Nat.eqb_eq in H.
  induction D as [|[k v] D IH]; simpl; [reflexivity|].
  unfold block_eqb. rewrite H. now rewrite IH.
Qed.

Lemma block_in_equiv (G : list (Block ASTNode FunctionT)) b b' :
  block_eqb b b' = true -> block_in b G = block_in b' G.
Proof.
  unfold block_in, block_eqb. intros H. apply Nat.eqb_eq in H.
  now rewrite H.
Qed.

Lemma bget_ids D b :
  PyDict.get (@block_eqb _ _) D b <> None <-> In (block_id b) (block_ids D).
Proof.
  induction D as [|[k v] D IH]; simpl; [tauto|].
  unfold block_eqb at 1.
  destruct (Nat.eqb_spec (block_id b) (block_id k)) as [E|E].
  - split; [auto|discriminate].
  - rewrite IH. split; [auto|]. intros [H|H]; [congruence|exact H].
Qed.

Lemma bpop_None D b :
  PyDict.pop (@block_eqb _ _) D b = None ->
  PyDict.get (@block_eqb _ _) D b = None.
Proof.
  induction D as [|[k v] D IH]; simpl; [reflexivity|].
  destruct (block_eqb b k); [discriminate|].
  destruct (PyDict.pop _ D b) as [[x r]|]; [discriminate|]. auto.
Qed.

Lemma bpop_Some D b : forall n D',
  PyDict.pop (@block_eqb _ _) D b = Some (n, D') ->
  NoDup (block_ids D) ->
  NoDup (block_ids D')
  /\ (forall k, In k (block_ids D') -> In k (block_ids D))
  /\ forall b',
       PyDict.get (@block_eqb _ _) D' b'
       = if block_eqb b' b then None
         else PyDict.get (@block_eqb _ _) D b'.
Proof.
  induction D as [|[k v] D IH]; simpl; [discriminate|].
  intros n D'. unfold block_eqb at 1.
  destruct (Nat.eqb_spec (block_id b) (block_id k)) as [E|E].
  - intros H Hn. inversion H; subst. inversion Hn as [|? ? Hin Hn']; subst.
    split; [exact Hn'|]. split; [auto|]. intros b'. unfold block_eqb.
    destruct (Nat.eqb_spec (block_id b') (block_id b)) as [E'|E'].
    + destruct (PyDict.get _ D' b') eqn:G; [|reflexivity].
      exfalso. apply Hin. rewrite <- E, <- E'. apply bget_ids.
      unfold block_eqb. congruence.
    + destruct (Nat.eqb_spec (block_id b') (block_id k)); [congruence|].
      reflexivity.
  - destruct (PyDict.pop _ D b) as [[x r]|] eqn:P; [|discriminate].
    intros H Hn. inversion H; subst. inversion Hn as [|? ? Hin Hn']; subst.
    destruct (IH _ _ eq_refl Hn') as (Hn2 & Hsub & Hget).
    split; [|split].
    + simpl. constructor; [|exact Hn2]. intros Hi. apply Hin. now apply Hsub.
    + simpl. intros k0 [H0|H0]; [auto|right; now apply Hsub].
    + intros b'. simpl. rewrite Hget. unfold block_eqb.
      destruct (Nat.eqb_spec (block_id b') (block_id k)) as [E1|E1];
        [|reflexivity].
      destruct (Nat.eqb_spec (block_id b') (block_id b)); [congruence|].
      reflexivity.
Qed.

Lemma bget_bset D b n b' :
  PyDict.get (@block_eqb _ _) (PyDict.set (@block_eqb _ _) D b n) b'
  = if block_eqb b' b then Some n else PyDict.get (@block_eqb _ _) D b'.
Proof.
  induction D as [|[k v] D IH]; simpl.
  - reflexivity.
  - unfold block_eqb in *.
    destruct (Nat.eqb_spec (block_id b) (block_id k)); simpl;
      [|rewrite IH];
      destruct (Nat.eqb_spec (block_id b') (block_id k));
      destruct (Nat.eqb_spec (block_id b') (block_id b));
      try reflexivity; congruence.
Qed.

(** The dictionary after the closing loop. *)
Lemma close_steps G (L : list (Block ASTNode FunctionT * nat)) : forall D,
  NoDup (block_ids D) ->
  forall b,
    PyDict.get (@block_eqb _ _) (fold_left (close_step G) L D) b
    = if block_in b G then PyDict.get (@block_eqb _ _) D b
      else if existsb (fun item => block_eqb b (fst item)) L then None
           else PyDict.get (@block_eqb _ _) D b.
Proof.
  induction L as [|[b0 i0] L IH]; intros D Hn b; simpl.
  - destruct (block_in b G); reflexivity.
  - unfold close_step at 2. simpl fst.
    destruct (block_in b0 G) eqn:G0.
    + rewrite (IH D Hn). destruct (block_in b G) eqn:Gb; [reflexivity|].
      destruct (block_eqb b b0) eqn:E; [|reflexivity].
      rewrite (@block_in_equiv G b b0 E) in Gb. congruence.
    + destruct (PyDict.pop _ D b0) as [[n D']|] eqn:P.
      * destruct (@bpop_Some D b0 n D' P Hn) as (Hn' & _ & Hget).
        rewrite (IH D' Hn'), Hget.
        destruct (block_in b G) eqn:Gb.
        -- destruct (block_eqb b b0) eqn:E; [|reflexivity].
           rewrite (@block_in_equiv G b b0 E) in Gb. congruence.
        -- destruct (block_eqb b b0); simpl; [|reflexivity].
           destruct (existsb _ L); reflexivity.
      * rewrite (IH D Hn). destruct (block_in b G); [reflexivity|].
        destruct (block_eqb b b0) eqn:E; simpl; [|reflexivity].
        destruct (existsb _ L); [reflexivity|].
        rewrite (@bget_equiv D b b0 E). now apply bpop_None.
Qed.

Lemma existsb_items D b :
  existsb (fun item : Block ASTNode FunctionT * nat =>
             block_eqb b (fst item)) (rev (PyDict.items D)) = false ->
  PyDict.get (@block_eqb _ _) D b = None.
Proof.
  intros H. destruct (PyDict.get _ D b) eqn:G; [|reflexivity].
  assert (In (block_id b) (block_ids D)) as Hin by (apply bget_ids; congruence).
  unfold block_ids in Hin. apply in_map_iff in Hin. destruct Hin as (kv & Hk & Hin).
  assert (existsb (fun item : Block ASTNode FunctionT * nat =>
                     block_eqb b (fst item)) (rev (PyDict.items D)) = true)
    as Ht.
  { apply existsb_exists. exists kv. split.
    - apply in_rev. rewrite rev_involutive. exact Hin.
    - unfold block_eqb. apply Nat.eqb_eq. congruence. }
  congruence.
Qed.

(** The dictionary after the opening loop. *)
Lemma open_steps (G : list (Block ASTNode FunctionT)) :
  forall (P : block_dict ASTNode FunctionT -> Prop) D',
  fold_left (@open_step ASTNode FunctionT) G P D' ->
  exists D,
    P D
    /\ (forall b,
          PyDict.contains (@block_eqb _ _) D' b
          = PyDict.contains (@block_eqb _ _) D b || block_in b G)
    /\ forall b n,
         PyDict.get (@block_eqb _ _) D b = Some n ->
         PyDict.get (@block_eqb _ _) D' b = Some n.
Proof.
  induction G as [|g G IH]; intros P D' H; simpl in H.
  - exists D'. split; [exact H|]. split; [|auto].
    intros b. simpl. now rewrite orb_false_r.
  - destruct (IH _ _ H) as (D1 & (D & HP & Hcase) & Hc & Hg).
    exists D. split; [exact HP|].
    destruct Hcase as [[-> Hin]|(n & Hout & ->)].
    + split; [|exact Hg]. intros b. rewrite Hc. simpl.
      destruct (block_eqb b g) eqn:E; simpl; [|reflexivity].
      unfold PyDict.contains in *. rewrite (@bget_equiv D b g E).
      destruct (PyDict.get _ D g); [reflexivity|discriminate].
    + split.
      * intros b. rewrite Hc. unfold PyDict.contains.
        rewrite bget_bset. simpl.
        destruct (block_eqb b g); simpl; [now rewrite orb_true_r|].
        reflexivity.
      * intros b n0 Hb. apply Hg. rewrite bget_bset.
        destruct (block_eqb b g) eqn:E; [|exact Hb].
        unfold PyDict.contains in Hout. rewrite (@bget_equiv D b g E) in Hb.
        rewrite Hb in Hout. discriminate.
Qed.

End BlockDicts.
End BlockProperties.

Module BlockTheorems.
Import Tree TreeProperties TreeSpec ModelProperties TreeInvariants.
Import BlockProperties.

Section Reconcile.
Variables ASTNode FunctionT Content : Type.
Variable str_of_state : State Content -> string.
Variable apply_chunk : State Content -> MessageChunk -> State Content.
Variable client_run : State Content -> ASTNode -> list MessageChunk.
Variable _parse_tags : string -> grammar ASTNode FunctionT.
Implicit Types (w : World ASTNode FunctionT Content) (self r : ref).
Implicit Types o : Model Content.
Implicit Types (D : block_dict ASTNode FunctionT).
Implicit Types (P Q : block_dict ASTNode FunctionT -> Prop).
Variable d : ref.

Lemma on_dict_copy P r w o :
  on_dict d P r w -> nth_error (models w) r = Some o ->
  on_dict d P (List.length (models w)) (copy_world r o w).
Proof.
  intros [(o' & Ho' & Hd) HD] Ho. rewrite Ho in Ho'. inversion Ho'; subst o'.
  split; [|exact HD].
  exists (copy_node r o w). split; [apply nth_error_snoc|exact Hd].
Qed.

Lemma on_dict_assign P r w o (f : Model Content -> Model Content) :
  on_dict d P r w -> nth_error (models w) r = Some o -> keeps_identity f ->
  on_dict d P r (set_models (store_set (models w) r (f o)) w).
Proof.
  intros [(o' & Ho' & Hd) HD] Ho Hf. rewrite Ho in Ho'.
  inversion Ho'; subst o'. split; [|exact HD].
  exists (f o). split.
  - simpl. rewrite nth_error_store_set, Nat.eqb_refl; [reflexivity|].
    apply nth_error_Some. congruence.
  - destruct (Hf o) as (_ & _ & _ & _ & H). congruence.
Qed.

Ltac on_dict_side :=
  first [ exact (fun _ _ _ => I)
        | exact (@on_dict_copy _)
        | exact (@on_dict_assign _)
        | intros ? ? ? H; exact H
        | intros ? ? ? ? H _ _; exact H ].

Lemma on_dict_set P r key v :
  hoare (@on_dict ASTNode FunctionT Content d P r)
        (@set ASTNode FunctionT Content r key v)
        (on_dict d P) (fun _ => True).
Proof.
  apply (@inv_set _ _ _ (on_dict d P) (fun _ => True)); on_dict_side.
Qed.

Lemma on_dict_fragment P r f :
  hoare (on_dict d P r)
        (apply_block_fragment apply_chunk client_run _parse_tags r f)
        (on_dict d P) (fun _ => True).
Proof.
  apply (@inv_apply_block_fragment _ _ _ apply_chunk client_run _parse_tags
           (on_dict d P) (fun _ => True)); on_dict_side.
Qed.

Lemma on_dict_capture P r (block : Block ASTNode FunctionT) start_index :
  hoare (on_dict d P r)
    match block_name block with
    | Some name =>
        s <- __str__ str_of_state r ;;
        set r name (Scalar (str_from start_index s))
    | None => ret r
    end (on_dict d P) (fun _ => True).
Proof.
  apply (@inv_capture_block _ _ _ str_of_state (on_dict d P)
           (fun _ => True)); on_dict_side.
Qed.

Lemma on_dict_set_dict P Q r w D D' :
  on_dict d P r w -> nth_error (dicts w) d = Some D -> Q D' ->
  on_dict d Q r (set_dicts (store_set (dicts w) d D') w).
Proof.
  intros [Hn _] HD HQ. split; [exact Hn|]. exists D'. split; [|exact HQ].
  simpl. rewrite nth_error_store_set, Nat.eqb_refl; [reflexivity|].
  apply nth_error_Some. congruence.
Qed.

Lemma close_part G D r (block : Block ASTNode FunctionT) (start : nat) :
  hoare (on_dict d (eq D) r)
    (if negb (block_in block G) then
       o <- deref r ;;
       dd <- deref_dict (_active_blocks o) ;;
       match PyDict.pop (@block_eqb _ _) dd block with
       | None => raise KeyError
       | Some (_, d') => assign_dict (_active_blocks o) (fun _ => d')
       end ;;;
       match closer block with
       | Some c =>
           apply_block_fragment apply_chunk client_run _parse_tags r c
       | None => ret r
       end
     else ret r)
    (on_dict d (eq (close_step G D (block, start)))) (fun _ => True).
Proof.
  unfold close_step. cbn [fst].
  destruct (block_in block G); cbn [negb].
  { apply hoare_ret. auto. }
  constructor. intros w H. pose proof H as [(o & Ho & Hd) (D1 & HD & HE)].
  subst D1.
  unfold bind at 1, deref. rewrite Ho.
  unfold bind at 1, deref_dict. rewrite Hd, HD.
  destruct (PyDict.pop _ D block) as [[n D2]|]; [|exact I].
  unfold bind at 1, assign_dict, bind, deref_dict, modify.
  rewrite ?Hd, HD.
  assert (on_dict d (eq D2) r (set_dicts (store_set (dicts w) d D2) w))
    as H2 by (now apply on_dict_set_dict with (P := eq D) (D := D)).
  destruct (closer block) as [c|].
  - apply (@hoare_run _ _ _ _ _ _ _ (on_dict_fragment (eq D2) r c) H2).
  - exact H2.
Qed.

Lemma open_part P r (block : Block ASTNode FunctionT) :
  hoare (on_dict d P r)
    (o <- deref r ;;
     dd <- deref_dict (_active_blocks o) ;;
     if negb (PyDict.contains (@block_eqb _ _) dd block) then
       n <- __len__ str_of_state r ;;
       assign_dict (_active_blocks o)
                   (fun dd => PyDict.set (@block_eqb _ _) dd block n) ;;;
       match opener block with
       | Some c =>
           apply_block_fragment apply_chunk client_run _parse_tags r c
       | None => ret r
       end
     else ret r)
    (on_dict d (open_step P block)) (fun _ => True).
Proof.
  constructor. intros w H. pose proof H as [(o & Ho & Hd) (D1 & HD & HP)].
  unfold bind at 1, deref. rewrite Ho.
  unfold bind at 1, deref_dict. rewrite Hd, HD.
  destruct (PyDict.contains _ D1 block) eqn:Hc; cbn [negb].
  - unfold ret. split; [exists o; auto|]. exists D1. split; [exact HD|].
    exists D1. auto.
  - unfold bind at 1, __len__, __str__, bind, deref, ret. rewrite Ho.
    unfold assign_dict, bind, deref_dict, modify.
    rewrite ?Hd, HD.
    set (D2 := PyDict.set (@block_eqb _ _) D1 block
                 (String.length (str_of_state (_state o)))).
    assert (on_dict d (open_step P block) r
              (set_dicts (store_set (dicts w) d D2) w)) as H2.
    { apply on_dict_set_dict with (P := P) (D := D1); [exact H|exact HD|].
      exists D1. split; [exact HP|]. right. eexists. split; [exact Hc|].
      reflexivity. }
    destruct (opener block) as [c|].
    + apply (@hoare_run _ _ _ _ _ _ _
               (on_dict_fragment (open_step P block) r c) H2).
    + exact H2.
Qed.

End Reconcile.

Section ReconcileTheorem.
Variables ASTNode FunctionT Content : Type.
Variable str_of_state : State Content -> string.
Variable apply_chunk : State Content -> MessageChunk -> State Content.
Variable client_run : State Content -> ASTNode -> list MessageChunk.
Variable _parse_tags : string -> grammar ASTNode FunctionT.
Implicit Types (w : World ASTNode FunctionT Content) (self r : ref).
Implicit Types o : Model Content.
Implicit Types (D : block_dict ASTNode FunctionT).

(** X25: when [_apply_blocks] returns, the blocks open on the node are
    exactly the globally active ones. The node returned keeps its active
    blocks in the same dictionary object as the node it was called on;
    afterwards that dictionary contains a block exactly when the block
    is globally active, and a block that was open before and is still
    active keeps the start index it had. *)
Theorem apply_blocks_reconciles self w o D0 :
  nth_error (models w) self = Some o ->
  nth_error (dicts w) (_active_blocks o) = Some D0 ->
  NoDup (block_ids D0) ->
  match _apply_blocks str_of_state apply_chunk client_run _parse_tags self w
  with
  | Ok r w' =>
      exists o' D',
        nth_error (models w') r = Some o'
        /\ _active_blocks o' = _active_blocks o
        /\ nth_error (dicts w') (_active_blocks o) = Some D'
        /\ (forall b, PyDict.contains (@block_eqb _ _) D' b
                      = block_in b (active_blocks w))
        /\ (forall b n,
              PyDict.get (@block_eqb _ _) D0 b = Some n ->
              block_in b (active_blocks w) = true ->
              PyDict.get (@block_eqb _ _) D' b = Some n)
  | Raise _ _ => True
  | OutOfFuel => True
  end.
Proof.
  intros Ho HD Hn. set (d := _active_blocks o) in *.
  set (G := active_blocks w).
  unfold _apply_blocks, bind at 1. rewrite (copy_eq _ _ Ho).
  unfold bind at 1, get_state. unfold bind at 1, deref.
  cbn [models copy_world]. rewrite nth_error_snoc.
  unfold bind at 1, deref_dict. cbn [_active_blocks copy_node].
  change (dicts (copy_world self o w)) with (dicts w). fold d.
  rewrite HD.
  change (active_blocks (copy_world self o w)) with G.
  assert (on_dict d (eq D0) (List.length (models w)) (copy_world self o w))
    as H1.
  { split.
    - exists (copy_node self o w). split; [apply nth_error_snoc|reflexivity].
    - exists D0. auto. }
  match goal with
  | |- match bind (for_acc ?L ?b1 ?r1) (fun x => for_acc ?G' ?b2 x) ?w1
       with _ => _ end =>
      assert (hoare (on_dict d (eq D0) r1)
                (bind (for_acc L b1 r1) (fun x => for_acc G' b2 x))
                (on_dict d
                   (fold_left (@open_step _ _) G
                      (eq (fold_left (close_step G) L D0))))
                (fun _ => True)) as Hh
  end.
  { eapply hoare_bind.
    - apply (@hoare_for_acc_indexed _ _ _ (fun _ => True) _ _
               (fun D => on_dict d (eq D)) (close_step G)).
      intros D [block start] r.
      eapply hoare_bind; [apply close_part|].
      intros r'. apply on_dict_capture.
    - intros r2.
      apply (@hoare_for_acc_indexed _ _ _ (fun _ => True) _ _
               (fun P => on_dict d P) (@open_step _ _)).
      intros P block r. apply open_part. }
  pose proof (@hoare_run _ _ _ _ _ _ _ Hh H1) as Hr. clear Hh.
  match goal with
  | |- match ?c with _ => _ end => destruct c as [r w'|e w'|]
  end; [|exact I|exact I].
  destruct Hr as [(o' & Ho' & Hd') (D' & HD' & HP)].
  destruct (open_steps _ _ _ HP) as (D1 & <- & Hc & Hg).
  exists o', D'. split; [exact Ho'|]. split; [exact Hd'|].
  split; [exact HD'|]. split.
  - intros b. rewrite Hc. unfold PyDict.contains.
    rewrite (@close_steps _ _ G (rev (PyDict.items D0)) D0 Hn b).
    destruct (block_in b G); [now rewrite orb_true_r|].
    rewrite orb_false_r.
    destruct (existsb _ (rev (PyDict.items D0))) eqn:Ex; [reflexivity|].
    now rewrite (@existsb_items _ _ D0 b Ex).
  - intros b n Hb Hin. apply Hg.
    rewrite (@close_steps _ _ G (rev (PyDict.items D0)) D0 Hn b).
    fold G in Hin. now rewrite Hin.
Qed.

End ReconcileTheorem.
End BlockTheorems.

(** X25 on the sample root, with the block ["cap"] globally active. *)
Lemma apply_blocks_reconciles_witness :
  NoDup (TreeSpec.block_ids (@nil (Tree.Block string Empty_set * nat)))
  /\ exists r w' D',
       Tree.Literal.apply_blocks 0
         (Tree.set_active_blocks [Tree.Literal.cap_block]
                                 (Sample.world true)) = Ok r w'
       /\ nth_error (Tree.dicts w') 0 = Some D'
       /\ PyDict.contains (@Tree.block_eqb _ _) D' Tree.Literal.cap_block
          = true.
Proof.
  assert (NoDup (TreeSpec.block_ids
                   (@nil (Tree.Block string Empty_set * nat)))) as Hn
    by constructor.
  split; [exact Hn|].
  assert (exists r w',
            Tree.Literal.apply_blocks 0
              (Tree.set_active_blocks [Tree.Literal.cap_block]
                                      (Sample.world true)) = Ok r w')
    as (r & w' & E) by (eexists; eexists; vm_compute; reflexivity).
  pose proof (@BlockTheorems.apply_blocks_reconciles _ _ _
                (@Tree.content string) Tree.Literal.apply_chunk
                Tree.Literal.client_run Tree.Literal._parse_tags 0
                (Tree.set_active_blocks [Tree.Literal.cap_block]
                                        (Sample.world true))
                (Sample.root true) [] eq_refl eq_refl Hn) as H.
  unfold Tree.Literal.apply_blocks in E. rewrite E in H.
  destruct H as (o' & D' & _ & _ & HD' & Hc & _).
  exists r, w', D'. split; [exact E|]. split; [exact HD'|].
  rewrite Hc. reflexivity.
Defined.

(* ================================================================== *)
(** * The iteration of a stream *)

Section IterationProperties.
Variable Event : Type.
Implicit Types (turns : list (Iteration.turn Event)).

Lemma consume_events (evs : list Event) turns :
  Iteration.consume
    (map (fun m => {| Iteration.got := Some (Iteration.ItemEvent m);
                      Iteration.is_alive := true |}) evs ++ turns)
  = (evs ++ fst (Iteration.consume turns),
     snd (Iteration.consume turns)).
Proof.
  induction evs as [|m evs IH]; simpl.
  - now destruct (Iteration.consume turns).
  - rewrite IH. reflexivity.
Qed.

(** C8 fails on the code. A worker whose deferred chain raises an
    instance of [queue.Empty] captures it and puts it on the queue as
    its last item, after the models of the steps that came before. The
    consumer gets every item of the queue in order, and when it gets
    the exception its [raise event] stands inside the [try] whose
    handler is [except queue.Empty]: the handler takes the exception
    for a timeout. The iteration yields the models and ends without
    raising anything, so the worker's exception is lost. *)
Theorem worker_queue_Empty_is_swallowed :
  forall (evs : list Event),
    let run := {| Iteration.put_events := evs;
                  Iteration.raised := Some Iteration.queue_Empty |} in
    Iteration.target run
    = map (@Iteration.ItemEvent Event) evs
      ++ [Iteration.ItemExc Event Iteration.queue_Empty]
    /\ Iteration.gets (Iteration.drained (Iteration.target run))
       = Iteration.target run
    /\ Iteration.consume (Iteration.drained (Iteration.target run))
       = (evs, Iteration.Finished)
    /\ Iteration.consume
         (map (fun i => {| Iteration.got := Some i;
                           Iteration.is_alive := false |})
              (Iteration.target run))
       = (evs, Iteration.Finished).
Proof.
  intros evs run. split; [reflexivity|]. split; [|split].
  - unfold Iteration.gets, Iteration.drained.
    rewrite flat_map_app. simpl. rewrite app_nil_r.
    induction (Iteration.target run) as [|i l IH]; simpl; [reflexivity|].
    now rewrite IH.
  - unfold Iteration.drained, Iteration.target, run. simpl.
    rewrite map_app, map_map, <- app_assoc. simpl.
    rewrite consume_events. simpl. now rewrite app_nil_r.
  - unfold Iteration.target, run. simpl.
    rewrite map_app, map_map. simpl.
    assert (forall turns,
              Iteration.consume
                (map (fun m => {| Iteration.got :=
                                    Some (Iteration.ItemEvent m);
                                  Iteration.is_alive := false |}) evs
                 ++ turns)
              = (evs ++ fst (Iteration.consume turns),
                 snd (Iteration.consume turns))) as H.
    { intros turns. induction evs as [|m l IH]; simpl.
      - now destruct (Iteration.consume turns).
      - rewrite IH. reflexivity. }
    rewrite H. simpl. now rewrite app_nil_r.
Qed.

(** The parts of C8 that hold. Whatever the deferred chain does, the
    worker's last item is its one signal, [None] or the exception it
    captured. An exception that is not a [queue.Empty] leaves the
    generator as the object that was put on the queue, after the models
    got before it. And the loop is left by [break] only on the signal
    [None], or in a turn that took the handler of [queue.Empty] and saw
    the worker thread gone. *)
Lemma iteration_signals (run : Iteration.inner_run Event) turns
  (evs : list Event) (e : exn) :
  (exists signal,
     Iteration.target run
     = map (@Iteration.ItemEvent Event) (Iteration.put_events run)
       ++ [signal]
     /\ signal = match Iteration.raised run with
                 | None => Iteration.ItemNone Event
                 | Some ex => Iteration.ItemExc Event ex
                 end)
  /\ Iteration.consume
       (map (fun m => {| Iteration.got := Some (Iteration.ItemEvent m);
                         Iteration.is_alive := true |}) evs
        ++ {| Iteration.got :=
                Some (Iteration.ItemExc Event (Iteration.Other e));
              Iteration.is_alive := true |} :: turns)
     = (evs, Iteration.Raised (Iteration.Other e))
  /\ (forall ys, Iteration.consume turns = (ys, Iteration.Finished) ->
      exists pre t post,
        turns = pre ++ t :: post
        /\ (Iteration.got t = Some (Iteration.ItemNone Event)
            \/ ((Iteration.got t = None
                 \/ Iteration.got t
                    = Some (Iteration.ItemExc Event Iteration.queue_Empty))
                /\ Iteration.is_alive t = false))).
Proof.
  split; [|split].
  - eexists. split; reflexivity.
  - rewrite consume_events. simpl. now rewrite app_nil_r.
  - induction turns as [|t turns IH]; intros ys H; [discriminate|].
    simpl in H.
    assert (forall ys',
              (if negb (Iteration.is_alive t)
               then ([], Iteration.Finished)
               else Iteration.consume turns) = (ys', Iteration.Finished) ->
              Iteration.is_alive t = false
              \/ exists pre t' post,
                   turns = pre ++ t' :: post
                   /\ (Iteration.got t' = Some (Iteration.ItemNone Event)
                       \/ ((Iteration.got t' = None
                            \/ Iteration.got t'
                               = Some (Iteration.ItemExc Event
                                         Iteration.queue_Empty))
                           /\ Iteration.is_alive t' = false))) as Hh.
    { intros ys' H'. destruct (Iteration.is_alive t); simpl in H'.
      - right. now apply (IH ys').
      - now left. }
    destruct (Iteration.got t) as [[|ex|m]|] eqn:G.
    + exists [], t, turns. split; [reflexivity|]. now left.
    + destruct ex as [|e']; simpl in H; [|discriminate].
      destruct (Hh ys H) as [Ha|(pre & t' & post & -> & Hc)].
      * exists [], t, turns. split; [reflexivity|]. right. auto.
      * exists (t :: pre), t', post. split; [reflexivity|exact Hc].
    + destruct (Iteration.consume turns) as [ys' e'] eqn:C.
      inversion H; subst.
      destruct (IH ys' eq_refl) as (pre & t' & post & -> & Hc).
      exists (t :: pre), t', post. split; [reflexivity|exact Hc].
    + destruct (Hh ys H) as [Ha|(pre & t' & post & -> & Hc)].
      * exists [], t, turns. split; [reflexivity|]. right. auto.
      * exists (t :: pre), t', post. split; [reflexivity|exact Hc].
Qed.

(** A timeout just before the worker's last [put], with the worker gone
    when [is_alive] is asked, ends the iteration without the signal
    having been got: an exception that waits on the queue then is not
    raised either. *)
Remark exit_race_loses_signal :
  Iteration.consume
    [{| Iteration.got := @None (Iteration.item Event);
        Iteration.is_alive := false |}]
  = ([], Iteration.Finished).
Proof. reflexivity. Qed.

End IterationProperties.
